(** * Version-history messages of [api/history/v1/message.pb.go]

    A shallow embedding of the generated codec of the three messages
    [VersionHistoryItem], [VersionHistory] and [VersionHistories]:
    their getters, [Equal], [Size], [Marshal] and [Unmarshal], with
    [encodeVarintMessage], [sovMessage] and [skipMessage].

    Conventions.
    - Go's [int64], [int32], [uint64] and [int] (64 bits) are [Z] with the
      wrap-around written out by [int64], [int32], [uint64] and [int].
    - A byte is [Byte.byte]; [b2z] and [uint8] convert from and to [Z].
    - A pointer [*T] is [ptr T] ([None] is the nil pointer); a slice [[]T]
      is [slice T] ([None] is the nil slice, [Some []] an empty one).
    - A function that can panic returns [exec]; [Unmarshal] returns the
      receiver as the call leaves it, with the [status] it returns. *)

From Stdlib Require Import ZArith List Lia Bool Strings.Byte Sorting.Sorted.
Import ListNotations.
Local Open Scope Z_scope.

(** ** Machine integers and bytes *)

Definition uint64 (z : Z) : Z := z mod 2 ^ 64.
Definition int64 (z : Z) : Z := (z + 2 ^ 63) mod 2 ^ 64 - 2 ^ 63.
Definition int32 (z : Z) : Z := (z + 2 ^ 31) mod 2 ^ 32 - 2 ^ 31.
(** [int] is 64 bits wide, as on every platform the server runs on. *)
Definition int (z : Z) : Z := int64 z.

Definition is_int64 (z : Z) : Prop := - 2 ^ 63 <= z < 2 ^ 63.
Definition is_int32 (z : Z) : Prop := - 2 ^ 31 <= z < 2 ^ 31.
Definition is_uint64 (z : Z) : Prop := 0 <= z < 2 ^ 64.

Definition b2z (b : byte) : Z := Z.of_N (Byte.to_N b).

Definition uint8 (z : Z) : byte :=
  match Byte.of_N (Z.to_N (z mod 256)) with
  | Some b => b
  | None => x00
  end.

(** ** Pointers, slices, panics *)

Definition ptr (A : Type) : Type := option A.
Definition slice (A : Type) : Type := option (list A).

Definition elems {A} (s : slice A) : list A :=
  match s with
  | Some l => l
  | None => []
  end.

Definition len {A} (s : slice A) : Z := Z.of_nat (length (elems s)).

Definition llen {A} (l : list A) : Z := Z.of_nat (length l).

(** [append(s, x)]: the result is never nil. *)
Definition append {A} (s : slice A) (x : A) : slice A := Some (elems s ++ [x]).

Inductive exec (A : Type) : Type :=
| Returns (a : A)
| Panics
| OutOfFuel.
Arguments Returns {A} a.
Arguments Panics {A}.
Arguments OutOfFuel {A}.

Definition bind {A B} (c : exec A) (k : A -> exec B) : exec B :=
  match c with
  | Returns a => k a
  | Panics => Panics
  | OutOfFuel => OutOfFuel
  end.

Notation "x <- c ;; k" := (bind c (fun x => k))
  (at level 61, c at next level, right associativity).
Notation "' p <- c ;; k" := (bind c (fun p => k))
  (at level 61, p pattern, c at next level, right associativity).

(** [dAtA[i] = b]: an index outside of the slice panics. *)
Definition store (dAtA : list byte) (i : Z) (b : byte) : exec (list byte) :=
  if (0 <=? i) && (i <? llen dAtA)
  then Returns (firstn (Z.to_nat i) dAtA ++ b :: skipn (S (Z.to_nat i)) dAtA)
  else Panics.

(** [dAtA[:i]] and [dAtA[i:]], where [0 <= i <= len(dAtA)]. *)
Definition upto (dAtA : list byte) (i : Z) : list byte := firstn (Z.to_nat i) dAtA.
Definition from (dAtA : list byte) (i : Z) : list byte := skipn (Z.to_nat i) dAtA.

(** ** Errors *)

Inductive error : Type :=
| ErrInvalidLengthMessage
| ErrIntOverflowMessage
| ErrUnexpectedEndOfGroupMessage
| ErrUnexpectedEOF                      (* io.ErrUnexpectedEOF *)
| ErrEndGroupForNonGroup                (* "wiretype end group for non-group" *)
| ErrIllegalTag (fieldNum wire : Z)     (* "illegal tag %d (wire type %d)" *)
| ErrWrongWireType (wireType : Z)       (* "wrong wireType = %d for field ..." *)
| ErrIllegalWireType (wireType : Z).    (* "illegal wireType %d" *)

(** What a decoding call returns: [Nil] is a nil error.  [Fuel] does not
    exist in the program: it marks a loop of the model that ran out of
    its bound, and [Item_Unmarshal_total], [History_Unmarshal_total] and
    [Histories_Unmarshal_total] show that it is never returned. *)
Inductive status : Type :=
| Nil
| Err (e : error)
| Fuel.

(** ** The messages *)

Record VersionHistoryItem : Type := mkItem {
  EventId : Z;   (* int64 *)
  Version : Z    (* int64 *)
}.

Record VersionHistory : Type := mkHistory {
  BranchToken : slice byte;
  Items : slice (ptr VersionHistoryItem)
}.

Record VersionHistories : Type := mkHistories {
  CurrentVersionHistoryIndex : Z;   (* int32 *)
  Histories : slice (ptr VersionHistory)
}.

(** ** Getters *)

Definition GetEventId (m : ptr VersionHistoryItem) : Z :=
  match m with
  | Some x => EventId x
  | None => 0
  end.

Definition GetVersion (m : ptr VersionHistoryItem) : Z :=
  match m with
  | Some x => Version x
  | None => 0
  end.

Definition GetBranchToken (m : ptr VersionHistory) : slice byte :=
  match m with
  | Some x => BranchToken x
  | None => None
  end.

Definition GetItems (m : ptr VersionHistory) : slice (ptr VersionHistoryItem) :=
  match m with
  | Some x => Items x
  | None => None
  end.

Definition GetCurrentVersionHistoryIndex (m : ptr VersionHistories) : Z :=
  match m with
  | Some x => CurrentVersionHistoryIndex x
  | None => 0
  end.

Definition GetHistories (m : ptr VersionHistories) : slice (ptr VersionHistory) :=
  match m with
  | Some x => Histories x
  | None => None
  end.

(** ** Equal

    The argument [that] is the pointer held by the interface value; both
    a nil interface and a nil pointer make [Equal] answer [this == nil]. *)

Definition Item_Equal (this that : ptr VersionHistoryItem) : bool :=
  match that, this with
  | None, None => true
  | None, Some _ => false
  | Some _, None => false
  | Some b, Some a => (EventId a =? EventId b) && (Version a =? Version b)
  end.

Definition byte_eqb (a b : byte) : bool := Byte.eqb a b.

(** [bytes.Equal]: compares the contents, a nil slice is an empty one. *)
Fixpoint list_eqb {A} (eqb : A -> A -> bool) (a b : list A) : bool :=
  match a, b with
  | [], [] => true
  | x :: a', y :: b' => eqb x y && list_eqb eqb a' b'
  | _, _ => false
  end.

Definition bytes_Equal (a b : slice byte) : bool := list_eqb byte_eqb (elems a) (elems b).

(** [for i := range this.Items { if !this.Items[i].Equal(that1.Items[i]) ... }],
    entered only when both lengths agree. *)
Definition History_Equal (this that : ptr VersionHistory) : bool :=
  match that, this with
  | None, None => true
  | None, Some _ => false
  | Some _, None => false
  | Some b, Some a =>
      if negb (bytes_Equal (BranchToken a) (BranchToken b)) then false
      else if negb (len (Items a) =? len (Items b)) then false
      else list_eqb Item_Equal (elems (Items a)) (elems (Items b))
  end.

Definition Histories_Equal (this that : ptr VersionHistories) : bool :=
  match that, this with
  | None, None => true
  | None, Some _ => false
  | Some _, None => false
  | Some b, Some a =>
      if negb (CurrentVersionHistoryIndex a =? CurrentVersionHistoryIndex b) then false
      else if negb (len (Histories a) =? len (Histories b)) then false
      else list_eqb History_Equal (elems (Histories a)) (elems (Histories b))
  end.

(** ** Size *)

(** [math_bits.Len64]: the number of bits needed to write [x]. *)
Definition Len64 (x : Z) : Z := if x =? 0 then 0 else Z.log2 x + 1.

Definition sovMessage (x : Z) : Z := (Len64 (Z.lor x 1) + 6) / 7.

Definition Item_Size (m : ptr VersionHistoryItem) : Z :=
  match m with
  | None => 0
  | Some m =>
      let n := 0 in
      let n := if negb (EventId m =? 0) then n + (1 + sovMessage (uint64 (EventId m))) else n in
      let n := if negb (Version m =? 0) then n + (1 + sovMessage (uint64 (Version m))) else n in
      n
  end.

Definition History_Size (m : ptr VersionHistory) : Z :=
  match m with
  | None => 0
  | Some m =>
      let n := 0 in
      let l := len (BranchToken m) in
      let n := if 0 <? l then n + (1 + l + sovMessage (uint64 l)) else n in
      fold_left (fun n e => let l := Item_Size e in n + (1 + l + sovMessage (uint64 l)))
                (elems (Items m)) n
  end.

Definition Histories_Size (m : ptr VersionHistories) : Z :=
  match m with
  | None => 0
  | Some m =>
      let n := 0 in
      let n := if negb (CurrentVersionHistoryIndex m =? 0)
               then n + (1 + sovMessage (uint64 (CurrentVersionHistoryIndex m))) else n in
      fold_left (fun n e => let l := History_Size e in n + (1 + l + sovMessage (uint64 l)))
                (elems (Histories m)) n
  end.

(** ** Marshal

    [MarshalToSizedBuffer] fills its buffer from the end.  A nested call
    receives the view [dAtA[:i]] of the same backing array: the model
    passes the view and writes the returned contents back in front of
    [dAtA[i:]]. *)

(** [dAtA[:i]], which panics when [i] is out of range. *)
Definition slice_to (dAtA : list byte) (i : Z) : exec (list byte) :=
  if (0 <=? i) && (i <=? llen dAtA) then Returns (upto dAtA i) else Panics.

(** [copy(dAtA[i:], src)]. *)
Definition copy_at (dAtA : list byte) (i : Z) (src : list byte) : exec (list byte) :=
  if (0 <=? i) && (i <=? llen dAtA)
  then let dst := from dAtA i in
       let n := Nat.min (length dst) (length src) in
       Returns (upto dAtA i ++ firstn n src ++ skipn n dst)
  else Panics.

(** [for v >= 1<<7 { dAtA[offset] = uint8(v&0x7f | 0x80); v >>= 7; offset++ }]
    followed by [dAtA[offset] = uint8(v)].  Nine passes bring any 64-bit
    [v] below [1<<7]. *)
Fixpoint encodeVarint_loop (fuel : nat) (dAtA : list byte) (offset v : Z) : exec (list byte) :=
  if 128 <=? v then
    match fuel with
    | O => OutOfFuel
    | S fuel' =>
        dAtA <- store dAtA offset (uint8 (Z.lor (Z.land v 127) 128)) ;;
        encodeVarint_loop fuel' dAtA (offset + 1) (Z.shiftr v 7)
    end
  else store dAtA offset (uint8 v).

Definition encodeVarintMessage (dAtA : list byte) (offset v : Z) : exec (list byte * Z) :=
  let offset := offset - sovMessage v in
  let base := offset in
  dAtA <- encodeVarint_loop 9 dAtA offset v ;;
  Returns (dAtA, base).

(** One tagged varint field: [i = encodeVarintMessage(dAtA, i, v); i--; dAtA[i] = tag]. *)
Definition put_varint_field (dAtA : list byte) (i : Z) (v : Z) (tag : Z) : exec (list byte * Z) :=
  '(dAtA, i) <- encodeVarintMessage dAtA i v ;;
  let i := i - 1 in
  dAtA <- store dAtA i (uint8 tag) ;;
  Returns (dAtA, i).

Definition Item_MarshalToSizedBuffer (m : ptr VersionHistoryItem) (dAtA : list byte)
  : exec (list byte * Z * option error) :=
  match m with
  | None => Panics                      (* m.Version on a nil pointer *)
  | Some m =>
      let i := llen dAtA in
      '(dAtA, i) <- (if negb (Version m =? 0)
                     then put_varint_field dAtA i (uint64 (Version m)) 16
                     else Returns (dAtA, i)) ;;
      '(dAtA, i) <- (if negb (EventId m =? 0)
                     then put_varint_field dAtA i (uint64 (EventId m)) 8
                     else Returns (dAtA, i)) ;;
      Returns (dAtA, llen dAtA - i, None)
  end.

(** The loop over a repeated message field, from the last element to the
    first ([elts] is the field reversed).  [sub] marshals one element into
    the view it is given. *)
Fixpoint put_repeated {A} (sub : ptr A -> list byte -> exec (list byte * Z * option error))
    (elts : list (ptr A)) (dAtA : list byte) (i : Z)
  : exec (list byte * Z * option error) :=
  match elts with
  | [] => Returns (dAtA, i, None)
  | e :: elts' =>
      view <- slice_to dAtA i ;;
      '(view, size, err) <- sub e view ;;
      let dAtA := view ++ from dAtA i in
      match err with
      | Some _ => Returns (dAtA, i, err)
      | None =>
          let i := i - size in
          '(dAtA, i) <- encodeVarintMessage dAtA i (uint64 size) ;;
          let i := i - 1 in
          dAtA <- store dAtA i (uint8 18) ;;
          put_repeated sub elts' dAtA i
      end
  end.

Definition History_MarshalToSizedBuffer (m : ptr VersionHistory) (dAtA : list byte)
  : exec (list byte * Z * option error) :=
  match m with
  | None => Panics                      (* m.Items on a nil pointer *)
  | Some m =>
      let i := llen dAtA in
      '(dAtA, i, err) <- put_repeated Item_MarshalToSizedBuffer (rev (elems (Items m))) dAtA i ;;
      match err with
      | Some _ => Returns (dAtA, 0, err)
      | None =>
          '(dAtA, i) <- (if 0 <? len (BranchToken m)
                         then let i := i - len (BranchToken m) in
                              dAtA <- copy_at dAtA i (elems (BranchToken m)) ;;
                              '(dAtA, i) <- encodeVarintMessage dAtA i (uint64 (len (BranchToken m))) ;;
                              let i := i - 1 in
                              dAtA <- store dAtA i (uint8 10) ;;
                              Returns (dAtA, i)
                         else Returns (dAtA, i)) ;;
          Returns (dAtA, llen dAtA - i, None)
      end
  end.

Definition Histories_MarshalToSizedBuffer (m : ptr VersionHistories) (dAtA : list byte)
  : exec (list byte * Z * option error) :=
  match m with
  | None => Panics                      (* m.Histories on a nil pointer *)
  | Some m =>
      let i := llen dAtA in
      '(dAtA, i, err) <- put_repeated History_MarshalToSizedBuffer (rev (elems (Histories m))) dAtA i ;;
      match err with
      | Some _ => Returns (dAtA, 0, err)
      | None =>
          '(dAtA, i) <- (if negb (CurrentVersionHistoryIndex m =? 0)
                         then put_varint_field dAtA i (uint64 (CurrentVersionHistoryIndex m)) 8
                         else Returns (dAtA, i)) ;;
          Returns (dAtA, llen dAtA - i, None)
      end
  end.

(** [make([]byte, size)]. *)
Definition make (size : Z) : list byte := repeat x00 (Z.to_nat size).

(** The body shared by the three [Marshal] methods. *)
Definition Marshal_with {A} (Size : ptr A -> Z)
    (MarshalToSizedBuffer : ptr A -> list byte -> exec (list byte * Z * option error))
    (m : ptr A) : exec (slice byte * option error) :=
  let size := Size m in
  let dAtA := make size in
  view <- slice_to dAtA size ;;
  '(view, n, err) <- MarshalToSizedBuffer m view ;;
  let dAtA := view ++ from dAtA size in
  match err with
  | Some _ => Returns (None, err)
  | None => out <- slice_to dAtA n ;; Returns (Some out, None)
  end.

Definition Item_Marshal := Marshal_with Item_Size Item_MarshalToSizedBuffer.
Definition History_Marshal := Marshal_with History_Size History_MarshalToSizedBuffer.
Definition Histories_Marshal := Marshal_with Histories_Size Histories_MarshalToSizedBuffer.

(** ** The wire format, written front to back

    These definitions follow the encoding contract of the specification:
    a varint is the little-endian base-128 form of an unsigned 64-bit
    number; a field is its tag byte followed by a varint or by a length
    and that many bytes; zero scalars and empty byte strings are left out. *)

Fixpoint varint_upto (n : nat) (v : Z) : list byte :=
  match n with
  | O => [uint8 v]
  | S n' =>
      if 128 <=? v
      then uint8 (Z.lor (Z.land v 127) 128) :: varint_upto n' (Z.shiftr v 7)
      else [uint8 v]
  end.

(** Ten bytes hold every 64-bit number. *)
Definition varint (v : Z) : list byte := varint_upto 9 v.

Definition varint_field (tag : Z) (v : Z) : list byte :=
  if v =? 0 then [] else uint8 tag :: varint (uint64 v).

Definition delimited_field (tag : Z) (payload : list byte) : list byte :=
  uint8 tag :: varint (uint64 (llen payload)) ++ payload.

Definition wire_item (m : ptr VersionHistoryItem) : list byte :=
  match m with
  | None => []
  | Some m => varint_field 8 (EventId m) ++ varint_field 16 (Version m)
  end.

Definition wire_history (m : ptr VersionHistory) : list byte :=
  match m with
  | None => []
  | Some m =>
      (if 0 <? len (BranchToken m) then delimited_field 10 (elems (BranchToken m)) else [])
      ++ flat_map (fun e => delimited_field 18 (wire_item e)) (elems (Items m))
  end.

Definition wire_histories (m : ptr VersionHistories) : list byte :=
  match m with
  | None => []
  | Some m =>
      varint_field 8 (CurrentVersionHistoryIndex m)
      ++ flat_map (fun e => delimited_field 18 (wire_history e)) (elems (Histories m))
  end.

(** ** Examples *)

Definition some_item (e v : Z) : ptr VersionHistoryItem := Some (mkItem e v).

(** ** Unmarshal *)

(** The varint loop that every decoder repeats:
    [for shift := uint(0); ; shift += 7 {
       if shift >= 64 { return ErrIntOverflowMessage }
       if iNdEx >= l { return io.ErrUnexpectedEOF }
       b := dAtA[iNdEx]; iNdEx++
       x |= T(b&0x7F) << shift
       if b < 0x80 { break } }]
    [bs] is [dAtA[iNdEx:]], [conv] is the conversion to the type [T] in which
    the shift is computed.  The result is the accumulated [x], the cursor
    and the error, if any. *)
Fixpoint varint_loop (conv : Z -> Z) (bs : list byte) (shift x iNdEx : Z)
  : Z * Z * option error :=
  if 64 <=? shift then (x, iNdEx, Some ErrIntOverflowMessage)
  else match bs with
       | [] => (x, iNdEx, Some ErrUnexpectedEOF)
       | b :: bs' =>
           let x := Z.lor x (conv (Z.shiftl (Z.land (b2z b) 127) shift)) in
           if b2z b <? 128 then (x, iNdEx + 1, None)
           else varint_loop conv bs' (shift + 7) x (iNdEx + 1)
       end.

Definition read_varint (conv : Z -> Z) (dAtA : list byte) (iNdEx : Z) : Z * Z * option error :=
  varint_loop conv (from dAtA iNdEx) 0 0 iNdEx.

(** [dAtA[lo:hi]], used with [0 <= lo <= hi <= len(dAtA)]. *)
Definition sub (dAtA : list byte) (lo hi : Z) : list byte :=
  firstn (Z.to_nat (hi - lo)) (from dAtA lo).

Definition of_err (e : option error) : status :=
  match e with
  | Some e => Err e
  | None => Nil
  end.

(** The [switch wireType] of [skipMessage]: the cursor and the depth
    behind one field.  The cursor moves by 8 or 4 without a check in the
    program; the sum with a decoded [length] is the one that can wrap. *)
Definition skip_field (dAtA : list byte) (wireType iNdEx depth : Z) : Z * Z * option error :=
  if wireType =? 0 then
    let '(_, iNdEx, err) := read_varint (fun _ => 0) dAtA iNdEx in
    (iNdEx, depth, err)
  else if wireType =? 1 then (iNdEx + 8, depth, None)
  else if wireType =? 2 then
    let '(length, iNdEx, err) := read_varint int dAtA iNdEx in
    match err with
    | Some _ => (iNdEx, depth, err)
    | None =>
        if length <? 0 then (iNdEx, depth, Some ErrInvalidLengthMessage)
        else (int (iNdEx + length), depth, None)
    end
  else if wireType =? 3 then (iNdEx, depth + 1, None)
  else if wireType =? 4 then
    if depth =? 0 then (iNdEx, depth, Some ErrUnexpectedEndOfGroupMessage)
    else (iNdEx, depth - 1, None)
  else if wireType =? 5 then (iNdEx + 4, depth, None)
  else (iNdEx, depth, Some (ErrIllegalWireType wireType)).

(** [skipMessage]: the loop runs until the depth of groups is back to 0. *)
Fixpoint skip_loop (fuel : nat) (dAtA : list byte) (iNdEx depth : Z) : Z * status :=
  let l := llen dAtA in
  if iNdEx <? l then
    match fuel with
    | O => (0, Fuel)
    | S fuel' =>
        let '(wire, iNdEx, err) := read_varint uint64 dAtA iNdEx in
        match err with
        | Some e => (0, Err e)
        | None =>
            let wireType := int (Z.land wire 7) in
            let '(iNdEx, depth, err) := skip_field dAtA wireType iNdEx depth in
            match err with
            | Some e => (0, Err e)
            | None =>
                if iNdEx <? 0 then (0, Err ErrInvalidLengthMessage)
                else if depth =? 0 then (iNdEx, Nil)
                else skip_loop fuel' dAtA iNdEx depth
            end
        end
    end
  else (0, Err ErrUnexpectedEOF).

Definition skipMessage (dAtA : list byte) : Z * status :=
  skip_loop (length dAtA) dAtA 0 0.

(** The [default:] case of the three decoders. *)
Definition skip_unknown (dAtA : list byte) (preIndex : Z) : Z * status :=
  let l := llen dAtA in
  let iNdEx := preIndex in
  let '(skippy, st) := skipMessage (from dAtA iNdEx) in
  match st with
  | Nil =>
      if skippy <? 0 then (iNdEx, Err ErrInvalidLengthMessage)
      else if int (iNdEx + skippy) <? 0 then (iNdEx, Err ErrInvalidLengthMessage)
      else if int (iNdEx + skippy) >? l then (iNdEx, Err ErrUnexpectedEOF)
      else (int (iNdEx + skippy), Nil)
  | _ => (iNdEx, st)
  end.

(** The length prefix of a length-delimited field and its three checks;
    the result is [postIndex]. *)
Definition read_length (dAtA : list byte) (iNdEx : Z) : Z * Z * option error :=
  let l := llen dAtA in
  let '(msglen, iNdEx, err) := read_varint int dAtA iNdEx in
  match err with
  | Some _ => (iNdEx, iNdEx, err)
  | None =>
      if msglen <? 0 then (iNdEx, iNdEx, Some ErrInvalidLengthMessage)
      else
        let postIndex := int (iNdEx + msglen) in
        if postIndex <? 0 then (iNdEx, postIndex, Some ErrInvalidLengthMessage)
        else if postIndex >? l then (iNdEx, postIndex, Some ErrUnexpectedEOF)
        else (iNdEx, postIndex, None)
  end.

(** The main loop of a decoder: [step] is one pass through its body. *)
Fixpoint decode_loop {M} (step : list byte -> M -> Z -> M * Z * status)
    (fuel : nat) (dAtA : list byte) (m : M) (iNdEx : Z) : M * status :=
  let l := llen dAtA in
  if iNdEx <? l then
    match fuel with
    | O => (m, Fuel)
    | S fuel' =>
        let '(m, iNdEx, st) := step dAtA m iNdEx in
        match st with
        | Nil => decode_loop step fuel' dAtA m iNdEx
        | _ => (m, st)
        end
    end
  else if iNdEx >? l then (m, Err ErrUnexpectedEOF)
  else (m, Nil).

(** The head of every pass: the tag and its two checks.  [k] continues
    with [fieldNum], [wireType] and the cursor behind the tag. *)
Definition with_tag {M} (dAtA : list byte) (m : M) (iNdEx : Z)
    (k : Z -> Z -> Z -> M * Z * status) : M * Z * status :=
  let '(wire, iNdEx, err) := read_varint uint64 dAtA iNdEx in
  match err with
  | Some e => (m, iNdEx, Err e)
  | None =>
      let fieldNum := int32 (Z.shiftr wire 3) in
      let wireType := int (Z.land wire 7) in
      if wireType =? 4 then (m, iNdEx, Err ErrEndGroupForNonGroup)
      else if fieldNum <=? 0 then (m, iNdEx, Err (ErrIllegalTag fieldNum wire))
      else k fieldNum wireType iNdEx
  end.

Definition Item_step (dAtA : list byte) (m : VersionHistoryItem) (iNdEx : Z)
  : VersionHistoryItem * Z * status :=
  let preIndex := iNdEx in
  with_tag dAtA m iNdEx (fun fieldNum wireType iNdEx =>
    if fieldNum =? 1 then
      if negb (wireType =? 0) then (m, iNdEx, Err (ErrWrongWireType wireType))
      else
        let '(v, iNdEx, err) := read_varint int64 dAtA iNdEx in
        (mkItem v (Version m), iNdEx, of_err err)
    else if fieldNum =? 2 then
      if negb (wireType =? 0) then (m, iNdEx, Err (ErrWrongWireType wireType))
      else
        let '(v, iNdEx, err) := read_varint int64 dAtA iNdEx in
        (mkItem (EventId m) v, iNdEx, of_err err)
    else
      let '(iNdEx, st) := skip_unknown dAtA preIndex in
      (m, iNdEx, st)).

Definition Item_Unmarshal (m : VersionHistoryItem) (dAtA : list byte)
  : VersionHistoryItem * status :=
  decode_loop Item_step (length dAtA) dAtA m 0.

(** [&VersionHistoryItem{}] and [&VersionHistory{}]. *)
Definition Item_zero : VersionHistoryItem := mkItem 0 0.
Definition History_zero : VersionHistory := mkHistory None None.
Definition Histories_zero : VersionHistories := mkHistories 0 None.

Definition History_step (dAtA : list byte) (m : VersionHistory) (iNdEx : Z)
  : VersionHistory * Z * status :=
  let preIndex := iNdEx in
  with_tag dAtA m iNdEx (fun fieldNum wireType iNdEx =>
    if fieldNum =? 1 then
      if negb (wireType =? 2) then (m, iNdEx, Err (ErrWrongWireType wireType))
      else
        let '(iNdEx, postIndex, err) := read_length dAtA iNdEx in
        match err with
        | Some e => (m, iNdEx, Err e)
        | None =>
            (* append(m.BranchToken[:0], dAtA[iNdEx:postIndex]...), made
               non-nil when it is nil *)
            (mkHistory (Some (sub dAtA iNdEx postIndex)) (Items m), postIndex, Nil)
        end
    else if fieldNum =? 2 then
      if negb (wireType =? 2) then (m, iNdEx, Err (ErrWrongWireType wireType))
      else
        let '(iNdEx, postIndex, err) := read_length dAtA iNdEx in
        match err with
        | Some e => (m, iNdEx, Err e)
        | None =>
            let '(e, st) := Item_Unmarshal Item_zero (sub dAtA iNdEx postIndex) in
            (mkHistory (BranchToken m) (append (Items m) (Some e)), postIndex, st)
        end
    else
      let '(iNdEx, st) := skip_unknown dAtA preIndex in
      (m, iNdEx, st)).

Definition History_Unmarshal (m : VersionHistory) (dAtA : list byte)
  : VersionHistory * status :=
  decode_loop History_step (length dAtA) dAtA m 0.

Definition Histories_step (dAtA : list byte) (m : VersionHistories) (iNdEx : Z)
  : VersionHistories * Z * status :=
  let preIndex := iNdEx in
  with_tag dAtA m iNdEx (fun fieldNum wireType iNdEx =>
    if fieldNum =? 1 then
      if negb (wireType =? 0) then (m, iNdEx, Err (ErrWrongWireType wireType))
      else
        let '(v, iNdEx, err) := read_varint int32 dAtA iNdEx in
        (mkHistories v (Histories m), iNdEx, of_err err)
    else if fieldNum =? 2 then
      if negb (wireType =? 2) then (m, iNdEx, Err (ErrWrongWireType wireType))
      else
        let '(iNdEx, postIndex, err) := read_length dAtA iNdEx in
        match err with
        | Some e => (m, iNdEx, Err e)
        | None =>
            let '(e, st) := History_Unmarshal History_zero (sub dAtA iNdEx postIndex) in
            (mkHistories (CurrentVersionHistoryIndex m) (append (Histories m) (Some e)),
             postIndex, st)
        end
    else
      let '(iNdEx, st) := skip_unknown dAtA preIndex in
      (m, iNdEx, st)).

Definition Histories_Unmarshal (m : VersionHistories) (dAtA : list byte)
  : VersionHistories * status :=
  decode_loop Histories_step (length dAtA) dAtA m 0.

(** ** Predicates of the statements *)

(** What [MarshalToSizedBuffer] of a message does on a buffer that ends
    with room for its encoding [wire m]. *)
Definition fills {A} (sub : ptr A -> list byte -> exec (list byte * Z * option error))
    (wire : ptr A -> list byte) (e : ptr A) : Prop :=
  forall pre hole, llen hole = llen (wire e) ->
    sub e (pre ++ hole) = Returns (pre ++ wire e, llen hole, None).

(** A message without nil pointers: [MarshalToSizedBuffer] reads the
    fields of every element of a repeated field without a nil check. *)
Definition Item_nonnil (m : ptr VersionHistoryItem) : Prop := m <> None.

Definition History_nonnil (m : ptr VersionHistory) : Prop :=
  match m with
  | None => False
  | Some m => Forall Item_nonnil (elems (Items m))
  end.

Definition Histories_nonnil (m : ptr VersionHistories) : Prop :=
  match m with
  | None => False
  | Some m => Forall History_nonnil (elems (Histories m))
  end.

(** A conversion [conv] under which the varint loop accumulates the
    converted number. *)
Definition lor_morphism (conv : Z -> Z) : Prop :=
  forall a b, conv (Z.lor a b) = Z.lor (conv a) (conv b).


(** The length of a slice is an [int], and far below its largest value:
    the cursor arithmetic of the decoders ([iNdEx += 8], [iNdEx++]) is
    written for buffers that end well before [2^63]. *)
Definition slice_len_ok (dAtA : list byte) : Prop := llen dAtA < 2 ^ 62.

(** One pass of a decoder that succeeds on [d] from [j] moves forward
    inside [d], and does the same wherever [d] sits in a longer buffer. *)
Definition step_frame {M} (step : list byte -> M -> Z -> M * Z * status) : Prop :=
  forall a d b m j m' j',
    slice_len_ok (a ++ d ++ b) ->
    0 <= j < llen d ->
    step d m j = (m', j', Nil) ->
    j < j' <= llen d /\ step (a ++ d ++ b) m (llen a + j) = (m', llen a + j', Nil).

(** The key of a field on the wire: [fieldNum<<3 | wireType]. *)
Definition key (fieldNum wireType : Z) : Z := fieldNum * 8 + wireType.

(** [append] of several elements, one after the other. *)
Definition extend {A} (s : slice A) (l : list A) : slice A := fold_left append l s.

(** Fields that a message does not declare, as a newer schema writes
    them: a varint, a 64-bit or 32-bit fixed number, a byte string, or a
    group of such fields between its start key and its end key. *)
#[warnings="-register-all"]
Inductive unknown_field : Type :=
| UVarint (fieldNum v : Z)
| UFixed64 (fieldNum v : Z)
| UBytes (fieldNum : Z) (payload : list byte)
| UGroup (fieldNum : Z) (fields : list unknown_field)
| UFixed32 (fieldNum v : Z).

(** Little-endian bytes of a fixed-width number. *)
Definition fixed_bytes (n : nat) (v : Z) : list byte :=
  map (fun k => uint8 (Z.shiftr v (8 * Z.of_nat k))) (seq 0 n).

Definition unknown_fieldNum (u : unknown_field) : Z :=
  match u with
  | UVarint n _ | UFixed64 n _ | UBytes n _ | UGroup n _ | UFixed32 n _ => n
  end.

Fixpoint wire_unknown (u : unknown_field) : list byte :=
  match u with
  | UVarint n v => varint (key n 0) ++ varint (uint64 v)
  | UFixed64 n v => varint (key n 1) ++ fixed_bytes 8 v
  | UBytes n payload => varint (key n 2) ++ varint (uint64 (llen payload)) ++ payload
  | UGroup n fields => varint (key n 3) ++ flat_map wire_unknown fields ++ varint (key n 4)
  | UFixed32 n v => varint (key n 5) ++ fixed_bytes 4 v
  end.

(** Values of the Go types: the scalar fields are in the range of
    their type and no element of a repeated field is a nil pointer. *)
Definition Item_wf (m : ptr VersionHistoryItem) : Prop :=
  match m with
  | None => False
  | Some m => is_int64 (EventId m) /\ is_int64 (Version m)
  end.

Definition History_wf (m : ptr VersionHistory) : Prop :=
  match m with
  | None => False
  | Some m => Forall Item_wf (elems (Items m))
  end.

Definition Histories_wf (m : VersionHistories) : Prop :=
  is_int32 (CurrentVersionHistoryIndex m) /\ Forall History_wf (elems (Histories m)).

(** The invariants of the data model: the items of a branch strictly
    increase in event id and in version; the current index points to a
    branch. *)
Fixpoint strictly_increasing (l : list (ptr VersionHistoryItem)) : Prop :=
  match l with
  | a :: l' =>
      match l' with
      | b :: _ => GetEventId a < GetEventId b /\ GetVersion a < GetVersion b
      | [] => True
      end /\ strictly_increasing l'
  | [] => True
  end.

Definition History_valid (m : ptr VersionHistory) : Prop :=
  History_wf m /\ strictly_increasing (elems (GetItems m)).

Definition Histories_valid (m : VersionHistories) : Prop :=
  is_int32 (CurrentVersionHistoryIndex m)
  /\ 0 <= CurrentVersionHistoryIndex m < len (Histories m)
  /\ Forall History_valid (elems (Histories m)).

(** What decoding the encoding of a branch into a fresh message gives. *)
Definition History_decoded (m : ptr VersionHistory) : ptr VersionHistory :=
  Some (fst (History_Unmarshal History_zero (wire_history m))).

(** ** Buffers as sequences of fields

    A well-formed buffer is a sequence of fields, each with its key.
    [scalar_entry] and [delimited_field] write a declared field, also
    when its value is zero or empty; [wire_unknown] writes one that the
    message does not declare. *)

Definition scalar_entry (tag v : Z) : list byte := uint8 tag :: varint (uint64 v).

Inductive Item_entry : Type :=
| IEventId (v : Z)
| IVersion (v : Z)
| IUnknown (u : unknown_field).

Inductive History_entry : Type :=
| HBranchToken (token : list byte)
| HItem (payload : list byte)
| HUnknown (u : unknown_field).

Inductive Histories_entry : Type :=
| HsIndex (v : Z)
| HsHistory (payload : list byte)
| HsUnknown (u : unknown_field).

Definition wire_Item_entry (e : Item_entry) : list byte :=
  match e with
  | IEventId v => scalar_entry (key 1 0) v
  | IVersion v => scalar_entry (key 2 0) v
  | IUnknown u => wire_unknown u
  end.

Definition wire_History_entry (e : History_entry) : list byte :=
  match e with
  | HBranchToken token => delimited_field (key 1 2) token
  | HItem payload => delimited_field (key 2 2) payload
  | HUnknown u => wire_unknown u
  end.

Definition wire_Histories_entry (e : Histories_entry) : list byte :=
  match e with
  | HsIndex v => scalar_entry (key 1 0) v
  | HsHistory payload => delimited_field (key 2 2) payload
  | HsUnknown u => wire_unknown u
  end.

(** A field number that the three messages do not declare. *)
Definition unknown_number (n : Z) : Prop := 2 < n < 2 ^ 31.

(** The fields inside a group have field numbers of their own, which
    may be any. *)
Definition field_number (n : Z) : Prop := 0 < n < 2 ^ 31.

Fixpoint nested_ok (u : unknown_field) : Prop :=
  match u with
  | UGroup _ fields =>
      fold_right (fun f P => field_number (unknown_fieldNum f) /\ nested_ok f /\ P) True fields
  | _ => True
  end.

Definition unknown_ok (u : unknown_field) : Prop :=
  unknown_number (unknown_fieldNum u) /\ nested_ok u.

(** The entries of a buffer that decodes: the embedded messages decode,
    the scalars are in the range of their field. *)
Definition History_entry_ok (e : History_entry) : Prop :=
  match e with
  | HBranchToken _ => True
  | HItem payload => snd (Item_Unmarshal Item_zero payload) = Nil
  | HUnknown u => unknown_ok u
  end.

Definition Histories_entry_ok (e : Histories_entry) : Prop :=
  match e with
  | HsIndex v => is_int32 v
  | HsHistory payload => snd (History_Unmarshal History_zero payload) = Nil
  | HsUnknown u => unknown_ok u
  end.

Definition Item_entry_ok (e : Item_entry) : Prop :=
  match e with
  | IEventId v | IVersion v => is_int64 v
  | IUnknown u => unknown_ok u
  end.

(** The elements that the entries of a buffer add to a repeated field,
    in the order of the buffer. *)
Definition History_entry_items (e : History_entry) : list (ptr VersionHistoryItem) :=
  match e with
  | HItem payload => [Some (fst (Item_Unmarshal Item_zero payload))]
  | _ => []
  end.

Definition Histories_entry_histories (e : Histories_entry) : list (ptr VersionHistory) :=
  match e with
  | HsHistory payload => [Some (fst (History_Unmarshal History_zero payload))]
  | _ => []
  end.

(** The receiver after one entry. *)
Definition Item_apply (m : VersionHistoryItem) (e : Item_entry) : VersionHistoryItem :=
  match e with
  | IEventId v => mkItem v (Version m)
  | IVersion v => mkItem (EventId m) v
  | IUnknown _ => m
  end.

Definition History_apply (m : VersionHistory) (e : History_entry) : VersionHistory :=
  match e with
  | HBranchToken token => mkHistory (Some token) (Items m)
  | HItem payload =>
      mkHistory (BranchToken m) (append (Items m) (Some (fst (Item_Unmarshal Item_zero payload))))
  | HUnknown _ => m
  end.

Definition Histories_apply (m : VersionHistories) (e : Histories_entry) : VersionHistories :=
  match e with
  | HsIndex v => mkHistories v (Histories m)
  | HsHistory payload =>
      mkHistories (CurrentVersionHistoryIndex m)
                  (append (Histories m) (Some (fst (History_Unmarshal History_zero payload))))
  | HsUnknown _ => m
  end.

(** The wire type and the bytes of the value of an unknown field. *)
Definition unknown_wire_type (u : unknown_field) : Z :=
  match u with
  | UVarint _ _ => 0
  | UFixed64 _ _ => 1
  | UBytes _ _ => 2
  | UGroup _ _ => 3
  | UFixed32 _ _ => 5
  end.

Definition unknown_value (u : unknown_field) : list byte :=
  match u with
  | UVarint _ v => varint (uint64 v)
  | UFixed64 _ v => fixed_bytes 8 v
  | UBytes _ payload => varint (uint64 (llen payload)) ++ payload
  | UGroup n fields => flat_map wire_unknown fields ++ varint (key n 4)
  | UFixed32 _ v => fixed_bytes 4 v
  end.


(** ** Examples of values *)

Definition vh_ab : VersionHistory :=
  mkHistory (Some ["A"%byte; "B"%byte]) (Some [some_item 5 1; some_item 300 2]).

Definition vh_fork : VersionHistory :=
  mkHistory None (Some [some_item 5 1; some_item 8 3]).

Definition vhs_two : VersionHistories :=
  mkHistories 1 (Some [Some vh_ab; Some vh_fork]).

(** An unknown group with a varint, a byte string and an empty group
    inside. *)
Definition unknown_group : unknown_field :=
  UGroup 7 [UVarint 1 300; UBytes 2 ["x"%byte; "y"%byte]; UGroup 3 []].

(** A branch whose only item is a nil pointer. *)
Definition vh_nil_item : VersionHistory := mkHistory None (Some [None]).

(** What the claims on [Marshal] say of a value: it returns a buffer and
    no error, and the buffer is as long as [Size] says. *)
Definition marshals_to_size {A} (Marshal : ptr A -> exec (slice byte * option error))
    (Size : ptr A -> Z) (m : ptr A) : Prop :=
  exists dAtA, Marshal m = Returns (Some dAtA, None) /\ llen dAtA = Size m.

(** The repeated field of the receiver has only grown. *)
Definition Items_extended (m m' : VersionHistory) : Prop :=
  exists extra, elems (Items m') = elems (Items m) ++ extra.

Definition Histories_extended (m m' : VersionHistories) : Prop :=
  exists extra, elems (Histories m') = elems (Histories m) ++ extra.

(** A pass that never reports the bound of the model. *)
Definition never_fuel {M} (step : list byte -> M -> Z -> M * Z * status) : Prop :=
  forall d m i, slice_len_ok d -> snd (step d m i) <> Fuel.

(** ** The common shape of the three decoders

    The three [Unmarshal] bodies are generated from one template: the
    key, then by field number a scalar field, a length-delimited field
    or the [default:] case.  [field_pass] is that template; the lemmas
    [*_step_pass] show that each decoder is an instance of it. *)

Inductive field_kind (M : Type) : Type :=
| Scalar (conv : Z -> Z) (set : M -> Z -> M)
| Embedded (body : M -> list byte -> M * status)
| Undeclared.
Arguments Scalar {M} conv set.
Arguments Embedded {M} body.
Arguments Undeclared {M}.

Definition field_pass {M} (kind : Z -> field_kind M) (dAtA : list byte) (m : M) (iNdEx : Z)
  : M * Z * status :=
  let preIndex := iNdEx in
  with_tag dAtA m iNdEx (fun fieldNum wireType iNdEx =>
    match kind fieldNum with
    | Scalar conv set =>
        if negb (wireType =? 0) then (m, iNdEx, Err (ErrWrongWireType wireType))
        else
          let '(v, iNdEx, err) := read_varint conv dAtA iNdEx in
          (set m v, iNdEx, of_err err)
    | Embedded body =>
        if negb (wireType =? 2) then (m, iNdEx, Err (ErrWrongWireType wireType))
        else
          let '(iNdEx, postIndex, err) := read_length dAtA iNdEx in
          match err with
          | Some e => (m, iNdEx, Err e)
          | None =>
              let '(m', st) := body m (sub dAtA iNdEx postIndex) in
              (m', postIndex, st)
          end
    | Undeclared =>
        let '(iNdEx, st) := skip_unknown dAtA preIndex in
        (m, iNdEx, st)
    end).

Definition Item_kind (n : Z) : field_kind VersionHistoryItem :=
  if n =? 1 then Scalar int64 (fun m v => mkItem v (Version m))
  else if n =? 2 then Scalar int64 (fun m v => mkItem (EventId m) v)
  else Undeclared.

Definition History_kind (n : Z) : field_kind VersionHistory :=
  if n =? 1 then Embedded (fun m bs => (mkHistory (Some bs) (Items m), Nil))
  else if n =? 2 then
    Embedded (fun m bs =>
                let '(e, st) := Item_Unmarshal Item_zero bs in
                (mkHistory (BranchToken m) (append (Items m) (Some e)), st))
  else Undeclared.

Definition Histories_kind (n : Z) : field_kind VersionHistories :=
  if n =? 1 then Scalar int32 (fun m v => mkHistories v (Histories m))
  else if n =? 2 then
    Embedded (fun m bs =>
                let '(e, st) := History_Unmarshal History_zero bs in
                (mkHistories (CurrentVersionHistoryIndex m) (append (Histories m) (Some e)), st))
  else Undeclared.

(** ** Malformed buffers

    What can be wrong where a field begins, at the position [pos] of the
    buffer, with the error that the specification names for it:
    - a varint that continues after ten bytes ([overlong]), as a key, a
      scalar value or a length: [ErrIntOverflowMessage];
    - a length that is negative as an [int], or that added to the cursor
      exceeds the largest [int]: [ErrInvalidLengthMessage];
    - a buffer that ends inside a varint ([cut_varint]), inside a fixed
      number, or before the declared length of a field:
      [io.ErrUnexpectedEOF];
    - an embedded message whose bytes fail to decode: its error. *)

Definition continues (b : byte) : Prop := 128 <= b2z b.

Definition overlong (bs : list byte) : Prop :=
  length bs = 10%nat /\ Forall continues bs.

Definition cut_varint (bs : list byte) : Prop :=
  (length bs < 10)%nat /\ Forall continues bs.

(** The bytes [bs] are one complete varint, read as the [int] [L]. *)
Definition length_prefix (bs : list byte) (L : Z) : Prop :=
  read_varint int bs 0 = (L, llen bs, None).

Inductive malformed {M} (kind : Z -> field_kind M) (pos : Z) : list byte -> error -> Prop :=
| Mal_key_overlong bs tl :
    overlong bs ->
    malformed kind pos (bs ++ tl) ErrIntOverflowMessage
| Mal_key_cut bs :
    bs <> [] -> cut_varint bs ->
    malformed kind pos bs ErrUnexpectedEOF
| Mal_scalar_overlong n conv set bs tl :
    0 < n < 16 -> kind n = Scalar conv set -> overlong bs ->
    malformed kind pos (uint8 (key n 0) :: bs ++ tl) ErrIntOverflowMessage
| Mal_scalar_cut n conv set bs :
    0 < n < 16 -> kind n = Scalar conv set -> cut_varint bs ->
    malformed kind pos (uint8 (key n 0) :: bs) ErrUnexpectedEOF
| Mal_length_overlong n body bs tl :
    0 < n < 16 -> kind n = Embedded body -> overlong bs ->
    malformed kind pos (uint8 (key n 2) :: bs ++ tl) ErrIntOverflowMessage
| Mal_length_cut n body bs :
    0 < n < 16 -> kind n = Embedded body -> cut_varint bs ->
    malformed kind pos (uint8 (key n 2) :: bs) ErrUnexpectedEOF
| Mal_length_negative n body lenb L tl :
    0 < n < 16 -> kind n = Embedded body -> length_prefix lenb L -> L < 0 ->
    malformed kind pos (uint8 (key n 2) :: lenb ++ tl) ErrInvalidLengthMessage
| Mal_length_overflow n body lenb L tl :
    0 < n < 16 -> kind n = Embedded body -> length_prefix lenb L -> 0 <= L ->
    2 ^ 63 <= pos + 1 + llen lenb + L ->
    malformed kind pos (uint8 (key n 2) :: lenb ++ tl) ErrInvalidLengthMessage
| Mal_field_cut n body lenb L tl :
    0 < n < 16 -> kind n = Embedded body -> length_prefix lenb L -> 0 <= L ->
    pos + 1 + llen lenb + L < 2 ^ 63 -> llen tl < L ->
    malformed kind pos (uint8 (key n 2) :: lenb ++ tl) ErrUnexpectedEOF
| Mal_embedded n body p tl e :
    0 < n < 16 -> kind n = Embedded body -> (forall m, snd (body m p) = Err e) ->
    malformed kind pos (delimited_field (key n 2) p ++ tl) e
| Mal_unknown_varint_overlong n bs tl :
    0 < n < 2 ^ 31 -> kind n = Undeclared -> overlong bs ->
    malformed kind pos (varint (key n 0) ++ bs ++ tl) ErrIntOverflowMessage
| Mal_unknown_varint_cut n bs :
    0 < n < 2 ^ 31 -> kind n = Undeclared -> cut_varint bs ->
    malformed kind pos (varint (key n 0) ++ bs) ErrUnexpectedEOF
| Mal_unknown_fixed64_cut n tl :
    0 < n < 2 ^ 31 -> kind n = Undeclared -> llen tl < 8 ->
    malformed kind pos (varint (key n 1) ++ tl) ErrUnexpectedEOF
| Mal_unknown_fixed32_cut n tl :
    0 < n < 2 ^ 31 -> kind n = Undeclared -> llen tl < 4 ->
    malformed kind pos (varint (key n 5) ++ tl) ErrUnexpectedEOF
| Mal_unknown_length_overlong n bs tl :
    0 < n < 2 ^ 31 -> kind n = Undeclared -> overlong bs ->
    malformed kind pos (varint (key n 2) ++ bs ++ tl) ErrIntOverflowMessage
| Mal_unknown_length_cut n bs :
    0 < n < 2 ^ 31 -> kind n = Undeclared -> cut_varint bs ->
    malformed kind pos (varint (key n 2) ++ bs) ErrUnexpectedEOF
| Mal_unknown_length_negative n lenb L tl :
    0 < n < 2 ^ 31 -> kind n = Undeclared -> length_prefix lenb L -> L < 0 ->
    malformed kind pos (varint (key n 2) ++ lenb ++ tl) ErrInvalidLengthMessage
| Mal_unknown_length_overflow n lenb L tl :
    0 < n < 2 ^ 31 -> kind n = Undeclared -> length_prefix lenb L -> 0 <= L ->
    2 ^ 63 <= pos + llen (varint (key n 2)) + llen lenb + L ->
    malformed kind pos (varint (key n 2) ++ lenb ++ tl) ErrInvalidLengthMessage
| Mal_unknown_field_cut n lenb L tl :
    0 < n < 2 ^ 31 -> kind n = Undeclared -> length_prefix lenb L -> 0 <= L ->
    pos + llen (varint (key n 2)) + llen lenb + L < 2 ^ 63 -> llen tl < L ->
    malformed kind pos (varint (key n 2) ++ lenb ++ tl) ErrUnexpectedEOF.

(** Malformed buffers: an item that ends inside its version, a branch
    whose items entry has the length -1, and a branch set whose second
    key has eleven bytes. *)
Definition item_cut : list byte := [uint8 16; uint8 128].

Definition history_negative : list byte :=
  uint8 18 :: repeat (uint8 255) 9 ++ [uint8 1] ++ [uint8 8; uint8 5].

Definition histories_overlong : list byte := repeat (uint8 128) 10 ++ [uint8 1].


(** * More of the generated codec

    The functions of [message.pb.go] beside [Marshal], [Size],
    [Unmarshal] and the getters. *)

(** [sozMessage]: the size of [x] after the zig-zag step
    [(x << 1) ^ uint64(int64(x) >> 63)]. *)
Definition sozMessage (x : Z) : Z :=
  sovMessage (uint64 (Z.lxor (uint64 (Z.shiftl x 1)) (uint64 (Z.shiftr (int64 x) 63)))).

(** The zig-zag form of a signed number: 0, -1, 1, -2, ... become
    0, 1, 2, 3, ... *)
Definition zigzag (v : Z) : Z := if 0 <=? v then 2 * v else - 2 * v - 1.

(** [MarshalTo]: [size := m.Size(); return m.MarshalToSizedBuffer(dAtA[:size])].
    The slice expression [dAtA[:size]] is checked against the capacity
    of [dAtA]: the argument is [dAtA] up to its capacity, and the result
    holds these bytes after the call. *)
Definition MarshalTo_with {A} (Size : ptr A -> Z)
    (MarshalToSizedBuffer : ptr A -> list byte -> exec (list byte * Z * option error))
    (m : ptr A) (dAtA : list byte) : exec (list byte * Z * option error) :=
  let size := Size m in
  view <- slice_to dAtA size ;;
  '(view, n, err) <- MarshalToSizedBuffer m view ;;
  Returns (view ++ from dAtA size, n, err).

Definition Item_MarshalTo := MarshalTo_with Item_Size Item_MarshalToSizedBuffer.
Definition History_MarshalTo := MarshalTo_with History_Size History_MarshalToSizedBuffer.
Definition Histories_MarshalTo := MarshalTo_with Histories_Size Histories_MarshalToSizedBuffer.

(** [XXX_Marshal(b, deterministic)] with [deterministic == false]:
    [b = b[:cap(b)]; n, err := m.MarshalToSizedBuffer(b); if err != nil
    { return nil, err }; return b[:n], nil].  The argument is [b] up to
    its capacity.  The other branch is the marshaler of the proto
    library. *)
Definition XXX_Marshal_with {A}
    (MarshalToSizedBuffer : ptr A -> list byte -> exec (list byte * Z * option error))
    (m : ptr A) (b : list byte) : exec (slice byte * option error) :=
  '(b, n, err) <- MarshalToSizedBuffer m b ;;
  match err with
  | Some _ => Returns (None, err)
  | None => out <- slice_to b n ;; Returns (Some out, None)
  end.

Definition Item_XXX_Marshal := XXX_Marshal_with Item_MarshalToSizedBuffer.
Definition History_XXX_Marshal := XXX_Marshal_with History_MarshalToSizedBuffer.
Definition Histories_XXX_Marshal := XXX_Marshal_with Histories_MarshalToSizedBuffer.

(** [XXX_Size] and [XXX_Unmarshal] call [Size] and [Unmarshal]. *)
Definition Item_XXX_Size := Item_Size.
Definition History_XXX_Size := History_Size.
Definition Histories_XXX_Size := Histories_Size.

(** [MarshalToSizedBuffer] writes the encoding [bytes] of [e] into the
    last bytes of any buffer that is long enough, and panics on a
    shorter one. *)
Definition writes_at_end {A}
    (sub : ptr A -> list byte -> exec (list byte * Z * option error))
    (bytes : list byte) (e : ptr A) : Prop :=
  forall dAtA,
    sub e dAtA
    = if llen bytes <=? llen dAtA
      then Returns (upto dAtA (llen dAtA - llen bytes) ++ bytes, llen bytes, None)
      else Panics.

(** What [MarshalTo] does with the encoding [bytes] that [Marshal]
    returns: it writes [bytes] at the front of a buffer with room for
    it and leaves the bytes behind as they are, and it panics on a
    buffer with less room. *)
Definition MarshalTo_spec {A} (Marshal : ptr A -> exec (slice byte * option error))
    (MarshalTo : ptr A -> list byte -> exec (list byte * Z * option error))
    (m : ptr A) : Prop :=
  exists bytes,
    Marshal m = Returns (Some bytes, None)
    /\ forall dAtA,
        (llen bytes <= llen dAtA ->
         MarshalTo m dAtA = Returns (bytes ++ from dAtA (llen bytes), llen bytes, None))
        /\ (llen dAtA < llen bytes -> MarshalTo m dAtA = Panics).

(** What [XXX_Marshal(b, false)] does with the encoding [bytes] of
    [n] bytes: the encoding goes to the last [n] bytes of the capacity
    of [b] and the call returns the first [n] bytes. *)
Definition XXX_Marshal_spec {A} (Marshal : ptr A -> exec (slice byte * option error))
    (XXX_Marshal : ptr A -> list byte -> exec (slice byte * option error))
    (m : ptr A) : Prop :=
  exists bytes,
    Marshal m = Returns (Some bytes, None)
    /\ forall b,
        (llen b < llen bytes -> XXX_Marshal m b = Panics)
        /\ (llen b = llen bytes -> XXX_Marshal m b = Returns (Some bytes, None))
        /\ (llen bytes <= llen b ->
            XXX_Marshal m b
            = Returns (Some (upto (upto b (llen b - llen bytes) ++ bytes) (llen bytes)), None))
        /\ (2 * llen bytes <= llen b ->
            XXX_Marshal m b = Returns (Some (upto b (llen bytes)), None)).

(** A call of [MarshalToSizedBuffer] panics or returns without error. *)
Definition panics_or_returns {A} (r : exec (A * Z * option error)) : Prop :=
  r = Panics \/ exists a n, r = Returns (a, n, None).

(** * The branch operations and the reconciler

    The repository holds the messages and their codec; the operations on
    branches that the specification describes ([Append], [Contains],
    [FindLCA], [CompareTo], [FindBestAncestor], [Reconcile]) are not in
    the sources at hand.  They are modelled here from the specification,
    sections 3 and 4, on branches without nil items. *)

Module Core.

(** Modelled from the spec: the branch of section 3, an opaque token
    and the ordered sequence of its items ([VersionHistory] is the
    message that carries it; its operations are missing from the sources). *)
Record Branch : Type := mkBranch {
  token : list byte;
  items : list VersionHistoryItem
}.

(** Modelled from the spec: the branch set of section 3, the branches
    and the index of the current one (the operations on
    [VersionHistories] are missing from the sources). *)
Record BranchSet : Type := mkBranchSet {
  currentIndex : Z;
  branches : list Branch
}.

(** Modelled from the spec: the error taxonomy of section 7, without
    [DecodeError], which belongs to the codec. *)
Inductive CoreError : Type :=
| InvalidHistoryError
| ConflictResolutionError.

(** Modelled from the spec: [LastItem()] of section 4.1, "the last item,
    or empty if the branch has no items". *)
Definition LastItem (its : list VersionHistoryItem) : option VersionHistoryItem :=
  last (map Some its) None.

(** Modelled from the spec: [Append(eventId, version)] of section 4.1,
    which is missing from the sources.  The result is the item sequence
    after the call and the error, if any.  "If version equals the last
    item's version, extend the branch by replacing the last item's
    eventId with eventId.  If version differs, require version >
    lastItem.version and eventId > lastItem.eventId, then append a new
    item.  Fails with InvalidHistoryError if either monotonicity
    requirement is violated.  No partial mutation occurs on failure."
    With section 8, "Append with non-increasing eventId or version
    fails", the requirement on the event id holds in both cases.  On an
    empty branch the pair is the initial item. *)
Definition Append (its : list VersionHistoryItem) (eventId version : Z)
  : list VersionHistoryItem * option CoreError :=
  match LastItem its with
  | None => ([mkItem eventId version], None)
  | Some lastItem =>
      if eventId <=? EventId lastItem then (its, Some InvalidHistoryError)
      else if version <? Version lastItem then (its, Some InvalidHistoryError)
      else if version =? Version lastItem
           then (removelast its ++ [mkItem eventId (Version lastItem)], None)
           else (its ++ [mkItem eventId version], None)
  end.

(** Modelled from the spec: the item "whose range covers eventId"
    (section 4.1, [Contains]).  By section 3 an item stands for the
    events "from this eventId onward (until the next item's eventId)";
    the last item has no next one and covers its own boundary only: this
    is the reading under which scenarios A, B, C and D of section 8 come
    out as the specification gives them. *)
Fixpoint covering (its : list VersionHistoryItem) (eventId : Z) : option VersionHistoryItem :=
  match its with
  | [] => None
  | it :: rest =>
      match rest with
      | [] => if eventId =? EventId it then Some it else None
      | next :: _ =>
          if (EventId it <=? eventId) && (eventId <? EventId next) then Some it
          else covering rest eventId
      end
  end.

(** Modelled from the spec: [Contains(eventId, version)] of section 4.1,
    "true if the branch, at eventId, was written under exactly version". *)
Definition Contains (its : list VersionHistoryItem) (eventId version : Z) : bool :=
  match covering its eventId with
  | Some it => Version it =? version
  | None => false
  end.

(** Modelled from the spec: both branches agree that the pair of the
    item holds (section 4.1, [FindLCA]). *)
Definition agree (a b : list VersionHistoryItem) (it : VersionHistoryItem) : bool :=
  Contains a (EventId it) (Version it) && Contains b (EventId it) (Version it).

(** Modelled from the spec: the choice of "the item with the greatest
    eventId" in [FindLCA]; among equal event ids the first one stays. *)
Definition greatest (best : option VersionHistoryItem) (it : VersionHistoryItem)
  : option VersionHistoryItem :=
  match best with
  | None => Some it
  | Some x => if EventId x <? EventId it then Some it else best
  end.

(** Modelled from the spec: [FindLCA(other)] of section 4.1, "walks both
    item sequences and returns the item with the greatest eventId such
    that both branches agree (via Contains)"; [None] where the branches
    agree nowhere. *)
Definition FindLCA (a b : list VersionHistoryItem) : option VersionHistoryItem :=
  fold_left greatest (filter (agree a b) (a ++ b)) None.

(** Modelled from the spec: the four outcomes of [CompareTo]. *)
Inductive Comparison : Type :=
| Equal
| StrictAncestor
| StrictDescendant
| Conflicting.

(** Modelled from the spec: the items of a branch beyond the LCA, and
    those up to and including it (section 4.3, Extend and Fork). *)
Definition beyond (lca : VersionHistoryItem) (its : list VersionHistoryItem)
  : list VersionHistoryItem :=
  filter (fun it => EventId lca <? EventId it) its.

Definition upto_lca (lca : VersionHistoryItem) (its : list VersionHistoryItem)
  : list VersionHistoryItem :=
  filter (fun it => EventId it <=? EventId lca) its.

Definition item_eqb (x y : VersionHistoryItem) : bool :=
  (EventId x =? EventId y) && (Version x =? Version y).

Definition last_is (its : list VersionHistoryItem) (lca : VersionHistoryItem) : bool :=
  match LastItem its with
  | Some x => item_eqb x lca
  | None => false
  end.

Definition nonempty {A} (l : list A) : bool :=
  match l with
  | [] => false
  | _ :: _ => true
  end.

(** Modelled from the spec: [CompareTo(other)] of section 4.1, relative
    to the LCA: "Equal if item sequences are identical; StrictAncestor if
    this's last item equals the LCA and other has strictly more history
    beyond it; StrictDescendant is the symmetric case; otherwise
    Conflicting". *)
Definition CompareTo (lca : VersionHistoryItem) (this other : list VersionHistoryItem)
  : Comparison :=
  if list_eqb item_eqb this other then Equal
  else if last_is this lca && nonempty (beyond lca other) then StrictAncestor
  else if last_is other lca && nonempty (beyond lca this) then StrictDescendant
  else Conflicting.

(** Modelled from the spec: the selection of [FindBestAncestor]
    (section 4.2) among the LCAs of the branches from index [i] on, "the
    branch maximizing the LCA eventId; ties are broken by lowest branch
    index". *)
Fixpoint select (i : nat) (lcas : list VersionHistoryItem)
    (best : option (nat * VersionHistoryItem)) : option (nat * VersionHistoryItem) :=
  match lcas with
  | [] => best
  | x :: rest =>
      select (S i) rest
             (match best with
              | None => Some (i, x)
              | Some (_, y) => if EventId y <? EventId x then Some (i, x) else best
              end)
  end.

(** The LCAs of all branches, or [None] when a branch shares nothing
    with the incoming one. *)
Fixpoint all_lcas (bs : list Branch) (incoming : list VersionHistoryItem)
  : option (list VersionHistoryItem) :=
  match bs with
  | [] => Some []
  | b :: rest =>
      match FindLCA (items b) incoming, all_lcas rest incoming with
      | Some x, Some l => Some (x :: l)
      | _, _ => None
      end
  end.

(** Modelled from the spec: [FindBestAncestor(incoming)] of section 4.2.
    Two branches that agree nowhere are an invariant violation, reported
    as [InvalidHistoryError] (section 4.1), and so is a branch set
    without branches (section 7, "empty required sequence"). *)
Definition FindBestAncestor (s : BranchSet) (incoming : list VersionHistoryItem)
  : option (nat * VersionHistoryItem) :=
  match all_lcas (branches s) incoming with
  | Some lcas => select 0 lcas None
  | None => None
  end.

(** Modelled from the spec: the decisions of section 4.3. *)
Inductive Decision : Type :=
| NoOp
| Extend
| Fork
| Reject.

(** Modelled from the spec: what [Reconcile] returns, "the decision plus
    the affected branch index", or an error. *)
Inductive Outcome : Type :=
| Decided (d : Decision) (index : nat)
| Failed (e : CoreError).

(** Modelled from the spec: Extend of section 4.3, "append incoming's
    items beyond lca onto local in place", one [Append] for each item. *)
Fixpoint append_all (its tail : list VersionHistoryItem)
  : list VersionHistoryItem * option CoreError :=
  match tail with
  | [] => (its, None)
  | x :: rest =>
      match Append its (EventId x) (Version x) with
      | (its', None) => append_all its' rest
      | (_, Some e) => (its, Some e)
      end
  end.

(** [l[i] = x]. *)
Fixpoint set_nth {A} (i : nat) (x : A) (l : list A) : list A :=
  match l, i with
  | [], _ => []
  | _ :: rest, O => x :: rest
  | y :: rest, S i' => y :: set_nth i' x rest
  end.

(** Modelled from the spec: the algorithm of section 4.3, which is
    missing from the sources.  The result is the branch set after the
    call and the outcome.  NoOp, Reject and the errors leave the branch
    set as it is; Extend replaces the matched branch; Fork adds a branch
    (with the token of the incoming one) and makes it current.  A
    conflict in which one side has no item beyond the LCA is a state that
    the table does not resolve: [ConflictResolutionError]. *)
Definition Reconcile (s : BranchSet) (incoming : Branch) : BranchSet * Outcome :=
  match FindBestAncestor s (items incoming) with
  | None => (s, Failed InvalidHistoryError)
  | Some (matchIndex, lca) =>
      let local := nth matchIndex (branches s) (mkBranch [] []) in
      match CompareTo lca (items local) (items incoming) with
      | Equal => (s, Decided NoOp matchIndex)
      | StrictDescendant => (s, Decided NoOp matchIndex)
      | StrictAncestor =>
          match append_all (items local) (beyond lca (items incoming)) with
          | (its, None) =>
              (mkBranchSet (currentIndex s)
                           (set_nth matchIndex (mkBranch (token local) its) (branches s)),
               Decided Extend matchIndex)
          | (_, Some e) => (s, Failed e)
          end
      | Conflicting =>
          match beyond lca (items local), beyond lca (items incoming) with
          | l1 :: _, i1 :: _ =>
              if Version l1 <? Version i1 then
                let forked := mkBranch (token incoming)
                                       (upto_lca lca (items local)
                                        ++ beyond lca (items incoming)) in
                (mkBranchSet (Z.of_nat (length (branches s))) (branches s ++ [forked]),
                 Decided Fork (length (branches s)))
              else if Version i1 <? Version l1 then (s, Decided Reject matchIndex)
              else (s, Failed ConflictResolutionError)
          | _, _ => (s, Failed ConflictResolutionError)
          end
      end
  end.

(** The event ids of a branch strictly increase (half of the invariant
    of section 3). *)
Definition increasing_ids (its : list VersionHistoryItem) : Prop :=
  StronglySorted (fun x y => EventId x < EventId y) its.

(** The scenarios of section 8. *)
Definition branch (l : list (Z * Z)) : Branch :=
  mkBranch [] (map (fun p => mkItem (fst p) (snd p)) l).

Definition one_branch (l : list (Z * Z)) : BranchSet := mkBranchSet 0 [branch l].

End Core.

(** * Properties *)

(** ** Bytes and lists *)

Lemma b2z_range (b : byte) : 0 <= b2z b < 256.
Proof.
  unfold b2z. pose proof (Byte.to_N_bounded b). lia.
Qed.

Lemma b2z_uint8 (z : Z) : b2z (uint8 z) = z mod 256.
Proof.
  unfold b2z, uint8.
  assert (Hr : 0 <= z mod 256 < 256) by (apply Z.mod_pos_bound; lia).
  destruct (Byte.of_N (Z.to_N (z mod 256))) as [b|] eqn:E.
  - apply Byte.to_of_N in E. rewrite E. lia.
  - apply Byte.of_N_None_iff in E. lia.
Qed.

Lemma uint8_b2z (b : byte) : uint8 (b2z b) = b.
Proof.
  unfold uint8, b2z. pose proof (Byte.to_N_bounded b) as Hb.
  rewrite Z.mod_small by lia.
  rewrite N2Z.id, Byte.of_to_N. reflexivity.
Qed.

Lemma llen_app {A} (a b : list A) : llen (a ++ b) = llen a + llen b.
Proof. unfold llen. rewrite length_app. lia. Qed.

Lemma llen_cons {A} (x : A) (a : list A) : llen (x :: a) = 1 + llen a.
Proof. unfold llen. simpl length. lia. Qed.

Lemma llen_nil {A} : llen (@nil A) = 0.
Proof. reflexivity. Qed.

Lemma llen_nonneg {A} (a : list A) : 0 <= llen a.
Proof. unfold llen. lia. Qed.

Lemma firstn_length_app {A} (a b : list A) : firstn (length a) (a ++ b) = a.
Proof. induction a as [|x a IH]; simpl; [destruct b; reflexivity | now rewrite IH]. Qed.

Lemma skipn_length_app {A} (a b : list A) : skipn (length a) (a ++ b) = b.
Proof. induction a as [|x a IH]; simpl; [reflexivity | exact IH]. Qed.

Lemma upto_app (a b : list byte) : upto (a ++ b) (llen a) = a.
Proof.
  unfold upto, llen. rewrite Nat2Z.id. apply firstn_length_app.
Qed.

Lemma from_app (a b : list byte) : from (a ++ b) (llen a) = b.
Proof.
  unfold from, llen. rewrite Nat2Z.id. apply skipn_length_app.
Qed.

(** A list is cut where one wants. *)
Lemma split_length {A} (l : list A) (n : Z) :
  0 <= n <= llen l -> exists a b, l = a ++ b /\ llen a = n.
Proof.
  intros H. exists (firstn (Z.to_nat n) l), (skipn (Z.to_nat n) l). split.
  - symmetry. apply firstn_skipn.
  - unfold llen in *. rewrite length_firstn. lia.
Qed.

Lemma store_app (pre post : list byte) (old b : byte) :
  store (pre ++ old :: post) (llen pre) b = Returns (pre ++ b :: post).
Proof.
  unfold store. rewrite llen_app, llen_cons.
  pose proof (llen_nonneg pre). pose proof (llen_nonneg post).
  replace ((0 <=? llen pre) && (llen pre <? llen pre + (1 + llen post))) with true
    by (symmetry; apply andb_true_iff; split; [apply Z.leb_le | apply Z.ltb_lt]; lia).
  f_equal. unfold llen. rewrite Nat2Z.id, firstn_length_app.
  f_equal.
  change (S (length pre)) with (1 + length pre)%nat.
  rewrite <- skipn_skipn, skipn_length_app. reflexivity.
Qed.

(** ** Sizes of varints *)

Lemma sovMessage_small (v : Z) : 0 <= v < 128 -> sovMessage v = 1.
Proof.
  intros H. unfold sovMessage, Len64.
  assert (Hl : 1 <= Z.lor v 1 < 128).
  { split.
    - assert (Hb : Z.testbit (Z.lor v 1) 0 = true)
        by (rewrite Z.lor_spec; apply orb_true_r).
      assert (0 <= Z.lor v 1) by (apply Z.lor_nonneg; lia).
      destruct (Z.eq_dec (Z.lor v 1) 0) as [E|E]; [rewrite E in Hb; discriminate | lia].
    - change 128 with (2 ^ 7).
      destruct (Z.eq_dec (Z.lor v 1) 0) as [E|E]; [rewrite E; lia|].
      apply Z.log2_lt_pow2; [assert (0 <= Z.lor v 1) by (apply Z.lor_nonneg; lia); lia|].
      rewrite Z.log2_lor by lia. change (Z.log2 1) with 0.
      destruct (Z.eq_dec v 0) as [->|]; [simpl; lia|].
      assert (Z.log2 v < 7) by (apply Z.log2_lt_pow2; lia).
      pose proof (Z.log2_nonneg v). lia. }
  destruct (Z.eqb_spec (Z.lor v 1) 0); [lia|].
  assert (Z.log2 (Z.lor v 1) < 7) by (apply Z.log2_lt_pow2; lia).
  pose proof (Z.log2_nonneg (Z.lor v 1)).
  assert (E : Z.log2 (Z.lor v 1) + 1 + 6 = 7 + Z.log2 (Z.lor v 1)) by lia.
  rewrite E. symmetry. apply Z.div_unique with (r := Z.log2 (Z.lor v 1)); lia.
Qed.

Lemma sovMessage_large (v : Z) : 128 <= v -> sovMessage v = 1 + sovMessage (Z.shiftr v 7).
Proof.
  intros H. unfold sovMessage, Len64.
  assert (Hs : 1 <= Z.shiftr v 7).
  { rewrite Z.shiftr_div_pow2 by lia. apply Z.div_le_lower_bound; lia. }
  assert (H1 : Z.lor v 1 <> 0).
  { intros E. apply Z.lor_eq_0_iff in E. lia. }
  assert (H2 : Z.lor (Z.shiftr v 7) 1 <> 0).
  { intros E. apply Z.lor_eq_0_iff in E. lia. }
  destruct (Z.eqb_spec (Z.lor v 1) 0); [contradiction|].
  destruct (Z.eqb_spec (Z.lor (Z.shiftr v 7) 1) 0); [contradiction|].
  rewrite !Z.log2_lor by lia. change (Z.log2 1) with 0.
  rewrite Z.log2_shiftr by lia.
  assert (7 <= Z.log2 v) by (apply Z.log2_le_pow2; lia).
  replace (Z.max (Z.max 0 (Z.log2 v - 7)) 0) with (Z.log2 v - 7) by lia.
  replace (Z.max (Z.log2 v) 0 + 1 + 6) with (Z.log2 v - 7 + 1 + 6 + 1 * 7) by lia.
  rewrite Z.div_add by lia. lia.
Qed.

Lemma sovMessage_pos (v : Z) : 0 <= v -> 1 <= sovMessage v.
Proof.
  intros H. destruct (Z_lt_le_dec v 128).
  - rewrite sovMessage_small; lia.
  - rewrite sovMessage_large by lia.
    assert (0 <= sovMessage (Z.shiftr v 7)); [|lia].
    unfold sovMessage, Len64. apply Z.div_pos; [|lia].
    destruct (_ =? 0); [lia|]. pose proof (Z.log2_nonneg (Z.lor (Z.shiftr v 7) 1)). lia.
Qed.

Lemma shiftr7_bound (v : Z) (n : nat) :
  0 <= v < 2 ^ (7 * (Z.of_nat (S n) + 1)) -> 0 <= Z.shiftr v 7 < 2 ^ (7 * (Z.of_nat n + 1)).
Proof.
  intros H. rewrite Z.shiftr_div_pow2 by lia. split.
  - apply Z.div_pos; lia.
  - apply Z.div_lt_upper_bound; [lia|].
    rewrite <- Z.pow_add_r by lia.
    replace (7 + 7 * (Z.of_nat n + 1)) with (7 * (Z.of_nat (S n) + 1)) by lia. lia.
Qed.

Lemma varint_upto_length (n : nat) (v : Z) :
  0 <= v < 2 ^ (7 * (Z.of_nat n + 1)) -> llen (varint_upto n v) = sovMessage v.
Proof.
  revert v. induction n as [|n IH]; intros v H.
  - simpl. rewrite sovMessage_small; [reflexivity | simpl in H; lia].
  - cbn [varint_upto]. destruct (Z.leb_spec 128 v).
    + rewrite llen_cons, IH by (apply shiftr7_bound; exact H).
      rewrite (sovMessage_large v) by lia. reflexivity.
    + rewrite sovMessage_small by lia. reflexivity.
Qed.

Lemma varint_length (v : Z) : is_uint64 v -> llen (varint v) = sovMessage v.
Proof.
  intros H. apply varint_upto_length. unfold is_uint64 in H.
  assert (2 ^ 64 < 2 ^ (7 * (Z.of_nat 9 + 1))) by (vm_compute; reflexivity). lia.
Qed.

Lemma uint64_range (z : Z) : is_uint64 (uint64 z).
Proof. unfold is_uint64, uint64. apply Z.mod_pos_bound. lia. Qed.

Lemma uint64_small (z : Z) : is_uint64 z -> uint64 z = z.
Proof. unfold is_uint64, uint64. intros H. apply Z.mod_small. exact H. Qed.

(** ** [encodeVarintMessage] writes the varint in front of [offset] *)

Lemma encodeVarint_loop_app (fuel : nat) :
  forall v pre hole post,
    0 <= v < 2 ^ (7 * (Z.of_nat fuel + 1)) ->
    llen hole = sovMessage v ->
    encodeVarint_loop fuel (pre ++ hole ++ post) (llen pre) v
    = Returns (pre ++ varint_upto fuel v ++ post).
Proof.
  induction fuel as [|fuel IH]; intros v pre hole post Hv Hl.
  - simpl in Hv. cbn [encodeVarint_loop varint_upto].
    destruct (Z.leb_spec 128 v); [lia|].
    rewrite sovMessage_small in Hl by lia.
    destruct hole as [|h [|h' hole]]; try (unfold llen in Hl; simpl in Hl; lia).
    simpl app. apply store_app.
  - cbn [encodeVarint_loop varint_upto].
    destruct (Z.leb_spec 128 v).
    + rewrite sovMessage_large in Hl by lia.
      pose proof (sovMessage_pos (Z.shiftr v 7)) as Hp.
      destruct hole as [|h hole];
        [ rewrite llen_nil in Hl;
          assert (0 <= Z.shiftr v 7) by (rewrite Z.shiftr_nonneg; lia); lia |].
      rewrite llen_cons in Hl.
      simpl app. rewrite store_app. cbn [bind].
      replace (llen pre + 1) with (llen (pre ++ [uint8 (Z.lor (Z.land v 127) 128)]))
        by (rewrite llen_app, llen_cons, llen_nil; lia).
      change (pre ++ ?b :: hole ++ post) with (pre ++ [b] ++ hole ++ post).
      rewrite app_assoc.
      rewrite IH by (try apply shiftr7_bound; try exact Hv; lia).
      rewrite <- app_assoc. reflexivity.
    + rewrite sovMessage_small in Hl by lia.
      destruct hole as [|h [|h' hole]]; try (unfold llen in Hl; simpl in Hl; lia).
      simpl app. apply store_app.
Qed.

Lemma encodeVarintMessage_app (v : Z) (pre hole post : list byte) :
  is_uint64 v ->
  llen hole = sovMessage v ->
  encodeVarintMessage (pre ++ hole ++ post) (llen pre + llen hole) v
  = Returns (pre ++ varint v ++ post, llen pre).
Proof.
  intros Hv Hl. unfold encodeVarintMessage.
  replace (llen pre + llen hole - sovMessage v) with (llen pre) by lia.
  rewrite encodeVarint_loop_app; [reflexivity | | exact Hl].
  unfold is_uint64 in Hv.
  assert (2 ^ 64 < 2 ^ (7 * (Z.of_nat 9 + 1))) by (vm_compute; reflexivity). lia.
Qed.

Lemma put_varint_field_app (v tag : Z) (pre hole post : list byte) :
  is_uint64 v ->
  llen hole = 1 + sovMessage v ->
  put_varint_field (pre ++ hole ++ post) (llen pre + llen hole) v tag
  = Returns (pre ++ uint8 tag :: varint v ++ post, llen pre).
Proof.
  intros Hv Hl. unfold put_varint_field.
  destruct hole as [|h hole];
    [rewrite llen_nil in Hl; pose proof (sovMessage_pos v); unfold is_uint64 in Hv; lia|].
  rewrite llen_cons in Hl.
  change (pre ++ (h :: hole) ++ post) with (pre ++ [h] ++ hole ++ post).
  rewrite app_assoc.
  replace (llen pre + llen (h :: hole)) with (llen (pre ++ [h]) + llen hole)
    by (rewrite llen_app, !llen_cons, llen_nil; lia).
  rewrite encodeVarintMessage_app by (assumption || lia).
  cbn [bind].
  replace (llen (pre ++ [h]) - 1) with (llen pre)
    by (rewrite llen_app, llen_cons, llen_nil; lia).
  rewrite <- app_assoc. simpl app. rewrite store_app. reflexivity.
Qed.

Lemma varint_field_length (tag v : Z) :
  llen (varint_field tag v) = if v =? 0 then 0 else 1 + sovMessage (uint64 v).
Proof.
  unfold varint_field. destruct (v =? 0); [reflexivity|].
  rewrite llen_cons, varint_length by apply uint64_range. reflexivity.
Qed.

(** An optional scalar field, as [MarshalToSizedBuffer] writes it. *)
Lemma put_optional_varint (v tag : Z) (pre hole post dAtA : list byte) (i : Z) :
  dAtA = pre ++ hole ++ post ->
  i = llen pre + llen hole ->
  llen hole = llen (varint_field tag v) ->
  (if negb (v =? 0)
   then put_varint_field dAtA i (uint64 v) tag
   else Returns (dAtA, i))
  = Returns (pre ++ varint_field tag v ++ post, llen pre).
Proof.
  intros -> -> Hl. rewrite varint_field_length in Hl. unfold varint_field.
  destruct (v =? 0); cbn [negb].
  - destruct hole; [|rewrite llen_cons in Hl; pose proof (llen_nonneg hole); lia].
    simpl. f_equal. f_equal. rewrite llen_nil. lia.
  - rewrite put_varint_field_app by (apply uint64_range || exact Hl). reflexivity.
Qed.

Lemma Item_MarshalToSizedBuffer_app (m : VersionHistoryItem) (pre hole : list byte) :
  llen hole = llen (wire_item (Some m)) ->
  Item_MarshalToSizedBuffer (Some m) (pre ++ hole)
  = Returns (pre ++ wire_item (Some m), llen hole, None).
Proof.
  intros Hl. cbn [wire_item] in *. rewrite llen_app in Hl.
  destruct (split_length hole (llen (varint_field 8 (EventId m)))) as (h1 & h2 & -> & H1).
  { pose proof (llen_nonneg (varint_field 16 (Version m))).
    pose proof (llen_nonneg (varint_field 8 (EventId m))). lia. }
  rewrite llen_app in Hl.
  unfold Item_MarshalToSizedBuffer. cbv zeta.
  rewrite (put_optional_varint _ _ (pre ++ h1) h2 [])
    by (rewrite ?app_nil_r, <- ?app_assoc, ?llen_app; reflexivity || lia).
  cbn [bind].
  rewrite (put_optional_varint _ _ pre h1 (varint_field 16 (Version m) ++ []))
    by (rewrite ?app_nil_r, <- ?app_assoc, ?llen_app; reflexivity || lia).
  cbn [bind]. rewrite app_nil_r. repeat f_equal.
  rewrite !llen_app. lia.
Qed.

Lemma slice_to_app (dAtA a b : list byte) (i : Z) :
  dAtA = a ++ b -> i = llen a -> slice_to dAtA i = Returns a.
Proof.
  intros -> ->. unfold slice_to. rewrite llen_app.
  pose proof (llen_nonneg a). pose proof (llen_nonneg b).
  replace ((0 <=? llen a) && (llen a <=? llen a + llen b)) with true
    by (symmetry; apply andb_true_iff; split; apply Z.leb_le; lia).
  rewrite upto_app. reflexivity.
Qed.

Lemma delimited_field_length (tag : Z) (p : list byte) :
  llen (delimited_field tag p) = 1 + sovMessage (uint64 (llen p)) + llen p.
Proof.
  unfold delimited_field.
  rewrite llen_cons, llen_app, varint_length by apply uint64_range. lia.
Qed.

Lemma put_repeated_app {A} (sub : ptr A -> list byte -> exec (list byte * Z * option error))
    (wire : ptr A -> list byte) (elts : list (ptr A)) :
  Forall (fills sub wire) elts ->
  forall pre hole post dAtA i,
    dAtA = pre ++ hole ++ post ->
    i = llen pre + llen hole ->
    llen hole = llen (flat_map (fun e => delimited_field 18 (wire e)) (rev elts)) ->
    put_repeated sub elts dAtA i
    = Returns (pre ++ flat_map (fun e => delimited_field 18 (wire e)) (rev elts) ++ post,
               llen pre, None).
Proof.
  induction 1 as [|e elts He Hall IH]; intros pre hole post dAtA i -> -> Hl.
  - simpl in *. destruct hole; [|rewrite llen_cons, llen_nil in Hl; pose proof (llen_nonneg hole); lia].
    simpl. rewrite llen_nil. repeat f_equal. lia.
  - cbn [rev] in *. rewrite flat_map_app in *. cbn [flat_map] in *.
    rewrite app_nil_r in *. rewrite llen_app in Hl.
    set (body := flat_map (fun e => delimited_field 18 (wire e)) (rev elts)) in *.
    pose proof (llen_nonneg body). pose proof (llen_nonneg (delimited_field 18 (wire e))).
    destruct (split_length hole (llen body)) as (hA & hE & -> & HA); [lia|].
    rewrite llen_app in Hl.
    assert (HE : llen hE = llen (delimited_field 18 (wire e))) by lia.
    rewrite delimited_field_length in HE.
    pose proof (sovMessage_pos (uint64 (llen (wire e)))) as Hs.
    pose proof (uint64_range (llen (wire e))) as Hu. unfold is_uint64 in Hu.
    pose proof (llen_nonneg (wire e)).
    destruct hE as [|t hE]; [rewrite llen_nil in HE; lia|]. rewrite llen_cons in HE.
    destruct (split_length hE (sovMessage (uint64 (llen (wire e))))) as (hv & hp & -> & Hv); [lia|].
    rewrite llen_app in HE.
    cbn [put_repeated].
    rewrite (slice_to_app _ (pre ++ hA ++ t :: hv ++ hp) post)
      by (rewrite <- ?app_assoc; try reflexivity;
          rewrite !llen_app, llen_cons, !llen_app; lia).
    cbn [bind].
    replace (pre ++ hA ++ t :: hv ++ hp) with ((pre ++ hA ++ t :: hv) ++ hp)
      by (rewrite <- !app_assoc; reflexivity).
    rewrite (He (pre ++ hA ++ t :: hv) hp) by lia.
    cbn [bind].
    replace (from (pre ++ (hA ++ t :: hv ++ hp) ++ post)
                  (llen pre + llen (hA ++ t :: hv ++ hp))) with post.
    2:{ rewrite app_assoc, <- llen_app. symmetry. apply from_app. }
    replace (((pre ++ hA ++ t :: hv) ++ wire e) ++ post)
      with ((pre ++ hA ++ [t]) ++ hv ++ (wire e ++ post))
      by (rewrite <- !app_assoc; reflexivity).
    replace (llen pre + llen (hA ++ t :: hv ++ hp) - llen hp)
      with (llen (pre ++ hA ++ [t]) + llen hv)
      by (rewrite !llen_app, !llen_cons, !llen_app, llen_nil; lia).
    replace (llen hp) with (llen (wire e)) by lia.
    rewrite encodeVarintMessage_app by (apply uint64_range || lia).
    cbn [bind].
    replace (llen (pre ++ hA ++ [t]) - 1) with (llen (pre ++ hA))
      by (rewrite !llen_app, !llen_cons, llen_nil; lia).
    replace ((pre ++ hA ++ [t]) ++ varint (uint64 (llen (wire e))) ++ wire e ++ post)
      with ((pre ++ hA) ++ t :: (varint (uint64 (llen (wire e))) ++ wire e ++ post))
      by (rewrite <- !app_assoc; reflexivity).
    rewrite store_app. cbn [bind].
    rewrite (IH pre hA (delimited_field 18 (wire e) ++ post)).
    + unfold delimited_field. rewrite <- !app_assoc. cbn [app].
      rewrite <- !app_assoc. reflexivity.
    + unfold delimited_field. rewrite <- !app_assoc. cbn [app].
      rewrite <- !app_assoc. reflexivity.
    + rewrite llen_app. reflexivity.
    + exact HA.
Qed.

Ltac list_len :=
  repeat (rewrite llen_app || rewrite llen_cons || rewrite llen_nil);
  repeat match goal with
         | H : context [llen (_ ++ _)] |- _ => rewrite llen_app in H
         | H : context [llen (_ :: _)] |- _ => rewrite llen_cons in H
         | H : context [llen []] |- _ => rewrite llen_nil in H
         end.

Ltac list_norm :=
  repeat first [rewrite <- app_assoc | rewrite app_nil_r | progress cbn [app]].

Lemma copy_at_app (dAtA pre hole post src : list byte) (i : Z) :
  dAtA = pre ++ hole ++ post -> i = llen pre -> llen hole = llen src ->
  copy_at dAtA i src = Returns (pre ++ src ++ post).
Proof.
  intros -> -> Hl. unfold copy_at. rewrite llen_app.
  pose proof (llen_nonneg pre). pose proof (llen_nonneg (hole ++ post)).
  replace ((0 <=? llen pre) && (llen pre <=? llen pre + llen (hole ++ post))) with true
    by (symmetry; apply andb_true_iff; split; apply Z.leb_le; lia).
  rewrite upto_app, from_app. rewrite length_app.
  assert (E : length hole = length src) by (unfold llen in Hl; lia).
  replace (Nat.min (length hole + length post) (length src)) with (length src) by lia.
  rewrite firstn_all, <- E, skipn_length_app. reflexivity.
Qed.

Lemma encodeVarintMessage_at (v : Z) (dAtA pre hole post : list byte) (i : Z) :
  dAtA = pre ++ hole ++ post -> i = llen pre + llen hole ->
  is_uint64 v -> llen hole = sovMessage v ->
  encodeVarintMessage dAtA i v = Returns (pre ++ varint v ++ post, llen pre).
Proof. intros -> ->. apply encodeVarintMessage_app. Qed.

Lemma store_at (dAtA pre post : list byte) (old b : byte) (i : Z) :
  dAtA = pre ++ old :: post -> i = llen pre ->
  store dAtA i b = Returns (pre ++ b :: post).
Proof. intros -> ->. apply store_app. Qed.

Lemma Item_fills (m : ptr VersionHistoryItem) :
  Item_nonnil m -> fills Item_MarshalToSizedBuffer wire_item m.
Proof.
  intros Hm pre hole Hl. destruct m as [m|]; [|contradiction].
  apply Item_MarshalToSizedBuffer_app. exact Hl.
Qed.

Lemma History_fills (m : ptr VersionHistory) :
  History_nonnil m -> fills History_MarshalToSizedBuffer wire_history m.
Proof.
  intros Hm pre hole Hl. destruct m as [m|]; [|contradiction].
  cbn [History_nonnil] in Hm. cbn [wire_history] in Hl.
  unfold History_MarshalToSizedBuffer. cbv zeta. cbn [wire_history].
  set (tok := if 0 <? len (BranchToken m)
              then delimited_field 10 (elems (BranchToken m)) else []) in *.
  set (body := flat_map (fun e => delimited_field 18 (wire_item e)) (elems (Items m))) in *.
  rewrite llen_app in Hl.
  pose proof (llen_nonneg tok). pose proof (llen_nonneg body).
  destruct (split_length hole (llen tok)) as (hT & hB & -> & HT); [lia|].
  rewrite llen_app in Hl.
  assert (Hput : put_repeated Item_MarshalToSizedBuffer (rev (elems (Items m)))
                    ((pre ++ hT) ++ hB ++ []) (llen (pre ++ hT) + llen hB)
                  = Returns ((pre ++ hT) ++ body ++ [], llen (pre ++ hT), None)).
  { unfold body. rewrite <- (rev_involutive (elems (Items m))) at 2.
    apply put_repeated_app with (hole := hB); try reflexivity.
    - rewrite Forall_forall in *. intros e He. apply Item_fills, Hm.
      apply in_rev. exact He.
    - rewrite rev_involutive. fold body. lia. }
  rewrite !app_nil_r in Hput.
  replace (llen (pre ++ hT ++ hB)) with (llen (pre ++ hT) + llen hB)
    by (rewrite !llen_app; lia).
  rewrite (app_assoc pre hT hB), Hput. clear Hput.
  rewrite <- !app_assoc.
  - cbn [bind].
    subst tok. unfold len in *. fold (llen (elems (BranchToken m))) in *.
    destruct (0 <? llen (elems (BranchToken m))) eqn:E.
    + rewrite delimited_field_length in HT.
      pose proof (uint64_range (llen (elems (BranchToken m)))) as Hu.
      pose proof (sovMessage_pos (uint64 (llen (elems (BranchToken m))))) as Hs.
      unfold is_uint64 in Hu. pose proof (llen_nonneg (elems (BranchToken m))).
      destruct hT as [|t hT]; [rewrite llen_nil in HT; lia|]. rewrite llen_cons in HT.
      destruct (split_length hT (sovMessage (uint64 (llen (elems (BranchToken m))))))
        as (hv & hp & -> & Hv); [lia|].
      rewrite llen_app in HT.
      rewrite (copy_at_app _ (pre ++ t :: hv) hp body)
        by (rewrite <- ?app_assoc; cbn [app]; rewrite <- ?app_assoc;
            try reflexivity; rewrite ?llen_app, ?llen_cons, ?llen_app; lia).
      cbn [bind].
      rewrite (encodeVarintMessage_at _ _ (pre ++ [t]) hv (elems (BranchToken m) ++ body)).
      * cbn [bind].
        rewrite (store_at _ pre (varint (uint64 (llen (elems (BranchToken m))))
                                  ++ elems (BranchToken m) ++ body) t)
          by (rewrite <- ?app_assoc; try reflexivity;
              rewrite llen_app, llen_cons, llen_nil; lia).
        cbn [bind].
        unfold delimited_field. cbn [app]. rewrite <- ?app_assoc.
        apply (f_equal Returns). apply f_equal2; [apply f_equal2|reflexivity].
        -- reflexivity.
        -- list_len. rewrite varint_length by apply uint64_range.
           list_len. rewrite delimited_field_length in Hl. lia.
      * list_norm. reflexivity.
      * list_len. lia.
      * apply uint64_range.
      * exact Hv.
    + destruct hT; [|rewrite llen_cons, llen_nil in HT; pose proof (llen_nonneg hT); lia].
      cbn [bind app].
      apply (f_equal Returns). apply f_equal2; [apply f_equal2|reflexivity].
      * reflexivity.
      * list_len. lia.
Qed.

Lemma Histories_fills (m : ptr VersionHistories) :
  Histories_nonnil m -> fills Histories_MarshalToSizedBuffer wire_histories m.
Proof.
  intros Hm pre hole Hl. destruct m as [m|]; [|contradiction].
  cbn [Histories_nonnil] in Hm. cbn [wire_histories] in Hl.
  unfold Histories_MarshalToSizedBuffer. cbv zeta. cbn [wire_histories].
  set (idx := varint_field 8 (CurrentVersionHistoryIndex m)) in *.
  set (body := flat_map (fun e => delimited_field 18 (wire_history e)) (elems (Histories m))) in *.
  rewrite llen_app in Hl.
  pose proof (llen_nonneg idx). pose proof (llen_nonneg body).
  destruct (split_length hole (llen idx)) as (hI & hB & -> & HI); [lia|].
  rewrite llen_app in Hl.
  assert (Hput : put_repeated History_MarshalToSizedBuffer (rev (elems (Histories m)))
                    ((pre ++ hI) ++ hB ++ []) (llen (pre ++ hI) + llen hB)
                  = Returns ((pre ++ hI) ++ body ++ [], llen (pre ++ hI), None)).
  { unfold body. rewrite <- (rev_involutive (elems (Histories m))) at 2.
    apply put_repeated_app with (hole := hB); try reflexivity.
    - rewrite Forall_forall in *. intros e He. apply History_fills, Hm.
      apply in_rev. exact He.
    - rewrite rev_involutive. fold body. lia. }
  rewrite !app_nil_r in Hput.
  replace (llen (pre ++ hI ++ hB)) with (llen (pre ++ hI) + llen hB)
    by (rewrite !llen_app; lia).
  rewrite (app_assoc pre hI hB), Hput. clear Hput.
  cbn [bind].
  rewrite (put_optional_varint _ _ pre hI body).
  2:{ list_norm. reflexivity. }
  2:{ list_len. reflexivity. }
  2:{ exact HI. }
  cbn [bind]. fold idx.
  apply (f_equal Returns). apply f_equal2; [apply f_equal2|reflexivity].
  - reflexivity.
  - list_len. lia.
Qed.

(** [Marshal] returns the buffer that [MarshalToSizedBuffer] has filled. *)
Lemma Marshal_with_fills {A} (Size : ptr A -> Z)
    (sub : ptr A -> list byte -> exec (list byte * Z * option error))
    (wire : ptr A -> list byte) (m : ptr A) :
  fills sub wire m -> Size m = llen (wire m) ->
  Marshal_with Size sub m = Returns (Some (wire m), None).
Proof.
  intros Hf Hs. unfold Marshal_with. cbv zeta.
  assert (Hmk : llen (make (Size m)) = llen (wire m)).
  { unfold make, llen. rewrite repeat_length. unfold llen in Hs. lia. }
  rewrite (slice_to_app _ (make (Size m)) []) by (list_norm; reflexivity || lia).
  cbn [bind].
  pose proof (Hf [] (make (Size m)) Hmk) as Hr. cbn [app] in Hr.
  rewrite Hr. cbn [bind].
  rewrite (slice_to_app _ (wire m) (from (make (Size m)) (Size m))) by (reflexivity || lia).
  reflexivity.
Qed.

(** ** [Size] is the length of the encoding *)

Lemma Item_Size_wire (m : ptr VersionHistoryItem) : Item_Size m = llen (wire_item m).
Proof.
  destruct m as [m|]; [|reflexivity].
  unfold Item_Size, wire_item. cbv zeta. rewrite llen_app, !varint_field_length.
  destruct (EventId m =? 0), (Version m =? 0); cbn [negb]; lia.
Qed.

Lemma fold_Size {A} (Size : ptr A -> Z) (wire : ptr A -> list byte) (l : list (ptr A)) :
  (forall e, Size e = llen (wire e)) ->
  forall n,
    fold_left (fun n e => let l := Size e in n + (1 + l + sovMessage (uint64 l))) l n
    = n + llen (flat_map (fun e => delimited_field 18 (wire e)) l).
Proof.
  intros HS. induction l as [|e l IH]; intros n.
  - simpl. rewrite llen_nil. lia.
  - cbn [fold_left flat_map]. rewrite IH. cbv zeta.
    rewrite llen_app, delimited_field_length, HS. lia.
Qed.

Lemma History_Size_wire (m : ptr VersionHistory) : History_Size m = llen (wire_history m).
Proof.
  destruct m as [m|]; [|reflexivity].
  unfold History_Size, wire_history. cbv zeta.
  rewrite (fold_Size Item_Size wire_item) by apply Item_Size_wire.
  rewrite llen_app. f_equal.
  unfold len. fold (llen (elems (BranchToken m))).
  destruct (0 <? llen (elems (BranchToken m))).
  - rewrite delimited_field_length. lia.
  - reflexivity.
Qed.

Lemma Histories_Size_wire (m : ptr VersionHistories) :
  Histories_Size m = llen (wire_histories m).
Proof.
  destruct m as [m|]; [|reflexivity].
  unfold Histories_Size, wire_histories. cbv zeta.
  rewrite (fold_Size History_Size wire_history) by apply History_Size_wire.
  rewrite llen_app, varint_field_length. f_equal.
  destruct (CurrentVersionHistoryIndex m =? 0); cbn [negb]; lia.
Qed.

(** ** [Marshal] produces the wire format *)

Lemma Item_Marshal_wire (m : VersionHistoryItem) :
  Item_Marshal (Some m) = Returns (Some (wire_item (Some m)), None).
Proof.
  apply Marshal_with_fills; [apply Item_fills; discriminate | apply Item_Size_wire].
Qed.

Lemma History_Marshal_wire (m : VersionHistory) :
  History_nonnil (Some m) ->
  History_Marshal (Some m) = Returns (Some (wire_history (Some m)), None).
Proof.
  intros H. apply Marshal_with_fills; [apply History_fills, H | apply History_Size_wire].
Qed.

Lemma Histories_Marshal_wire (m : VersionHistories) :
  Histories_nonnil (Some m) ->
  Histories_Marshal (Some m) = Returns (Some (wire_histories (Some m)), None).
Proof.
  intros H. apply Marshal_with_fills; [apply Histories_fills, H | apply Histories_Size_wire].
Qed.

(** ** Bits of the integer conversions *)

Lemma signed_wrap_cases (k a : Z) :
  0 <= k ->
  let u := a mod 2 ^ (k + 1) in
  (a + 2 ^ k) mod 2 ^ (k + 1) - 2 ^ k = if u <? 2 ^ k then u else u - 2 ^ (k + 1).
Proof.
  intros Hk u.
  assert (Hp : 2 ^ (k + 1) = 2 * 2 ^ k) by (rewrite Z.pow_add_r by lia; lia).
  assert (H2 : 0 < 2 ^ k) by (apply Z.pow_pos_nonneg; lia).
  assert (Hu : 0 <= u < 2 ^ (k + 1)) by (apply Z.mod_pos_bound; lia).
  assert (E : a = 2 ^ (k + 1) * (a / 2 ^ (k + 1)) + u) by (apply Z.div_mod; lia).
  destruct (Z.ltb_spec u (2 ^ k)).
  - assert ((a + 2 ^ k) mod 2 ^ (k + 1) = u + 2 ^ k); [|lia].
    symmetry. apply Z.mod_unique with (q := a / 2 ^ (k + 1)); lia.
  - assert ((a + 2 ^ k) mod 2 ^ (k + 1) = u - 2 ^ k); [|lia].
    symmetry. apply Z.mod_unique with (q := a / 2 ^ (k + 1) + 1); lia.
Qed.

(** The signed conversion to [k + 1] bits keeps the low [k] bits and
    repeats bit [k] above them. *)
Lemma signed_wrap_testbit (k a i : Z) :
  0 < k -> 0 <= i ->
  Z.testbit ((a + 2 ^ k) mod 2 ^ (k + 1) - 2 ^ k) i
  = Z.testbit a (if i <? k then i else k).
Proof.
  intros Hk Hi. rewrite signed_wrap_cases by lia. cbv zeta.
  set (u := a mod 2 ^ (k + 1)).
  assert (Hp : 2 ^ (k + 1) = 2 * 2 ^ k) by (rewrite Z.pow_add_r by lia; lia).
  assert (H2 : 0 < 2 ^ k) by (apply Z.pow_pos_nonneg; lia).
  assert (Hu : 0 <= u < 2 ^ (k + 1)) by (apply Z.mod_pos_bound; lia).
  assert (Hlow : forall j, 0 <= j <= k -> Z.testbit u j = Z.testbit a j).
  { intros j Hj. unfold u. apply Z.mod_pow2_bits_low. lia. }
  destruct (Z.ltb_spec u (2 ^ k)) as [Hs|Hs].
  - (* non-negative result *)
    assert (Hhigh : forall j, k <= j -> Z.testbit u j = false).
    { intros j Hj. destruct (Z.eq_dec u 0) as [->|Hne]; [apply Z.bits_0|].
      apply Z.bits_above_log2; [lia|].
      assert (Z.log2 u < k) by (apply Z.log2_lt_pow2; lia). lia. }
    destruct (Z.ltb_spec i k).
    + apply Hlow. lia.
    + rewrite Hhigh by lia. rewrite <- (Hlow k) by lia. symmetry. apply Hhigh. lia.
  - (* negative result *)
    assert (Hk1 : Z.testbit a k = true).
    { rewrite <- Hlow by lia. apply Z.testbit_true; [lia|].
      replace (u / 2 ^ k) with 1; [reflexivity|].
      apply Z.div_unique with (r := u - 2 ^ k); lia. }
    destruct (Z.ltb_spec i k).
    + rewrite <- Hlow by lia.
      rewrite <- (Z.mod_pow2_bits_low (u - 2 ^ (k + 1)) (k + 1) i) by lia.
      f_equal. unfold u at 1.
      replace (a mod 2 ^ (k + 1) - 2 ^ (k + 1)) with (a mod 2 ^ (k + 1) + (-1) * 2 ^ (k + 1)) by lia.
      rewrite Z.mod_add by lia. apply Z.mod_mod. lia.
    + rewrite Hk1. apply Z.bits_above_log2_neg; [lia|].
      destruct (Z.eq_dec (Z.pred (- (u - 2 ^ (k + 1)))) 0) as [E|E].
      * rewrite E. simpl. lia.
      * assert (Z.log2 (Z.pred (- (u - 2 ^ (k + 1)))) < k) by (apply Z.log2_lt_pow2; lia).
        lia.
Qed.

Lemma int64_testbit (a i : Z) :
  0 <= i -> Z.testbit (int64 a) i = Z.testbit a (if i <? 63 then i else 63).
Proof. intros. apply (signed_wrap_testbit 63 a i); lia. Qed.

Lemma int32_testbit (a i : Z) :
  0 <= i -> Z.testbit (int32 a) i = Z.testbit a (if i <? 31 then i else 31).
Proof. intros. apply (signed_wrap_testbit 31 a i); lia. Qed.

Lemma uint64_lor : lor_morphism uint64.
Proof.
  intros a b. unfold uint64. rewrite <- !Z.land_ones by lia.
  apply Z.land_lor_distr_l.
Qed.

Lemma int64_lor : lor_morphism int64.
Proof.
  intros a b. apply Z.bits_inj'. intros n Hn.
  rewrite Z.lor_spec, !int64_testbit, Z.lor_spec by lia. reflexivity.
Qed.

Lemma int32_lor : lor_morphism int32.
Proof.
  intros a b. apply Z.bits_inj'. intros n Hn.
  rewrite Z.lor_spec, !int32_testbit, Z.lor_spec by lia. reflexivity.
Qed.

Lemma const0_lor : lor_morphism (fun _ => 0).
Proof. intros a b. reflexivity. Qed.

Lemma int64_small (z : Z) : is_int64 z -> int64 z = z.
Proof.
  unfold is_int64, int64. intros H.
  rewrite Z.mod_small by lia. lia.
Qed.

Lemma int32_small (z : Z) : is_int32 z -> int32 z = z.
Proof.
  unfold is_int32, int32. intros H.
  rewrite Z.mod_small by lia. lia.
Qed.

Lemma int64_uint64 (z : Z) : int64 (uint64 z) = int64 z.
Proof.
  unfold int64, uint64.
  rewrite Zplus_mod_idemp_l. reflexivity.
Qed.

Lemma int32_uint64 (z : Z) : int32 (uint64 z) = int32 z.
Proof.
  apply Z.bits_inj'. intros n Hn. rewrite !int32_testbit by lia.
  unfold uint64. apply Z.mod_pow2_bits_low. destruct (n <? 31) eqn:E; [|lia].
  apply Z.ltb_lt in E. lia.
Qed.

(** ** Reading back a varint *)

Lemma chunk_split (v s : Z) :
  0 <= s ->
  Z.lor (Z.shiftl (Z.land v 127) s) (Z.shiftl (Z.shiftr v 7) (s + 7)) = Z.shiftl v s.
Proof.
  intros Hs. apply Z.bits_inj'. intros n Hn.
  rewrite Z.lor_spec, !Z.shiftl_spec by lia.
  destruct (Z_lt_le_dec (n - s) 0) as [Hlt|Hge].
  - rewrite !Z.testbit_neg_r by lia. reflexivity.
  - change 127 with (Z.ones 7). rewrite Z.land_ones by lia.
    destruct (Z_lt_le_dec (n - s) 7).
    + rewrite Z.mod_pow2_bits_low by lia.
      rewrite (Z.testbit_neg_r _ (n - (s + 7))) by lia. apply orb_false_r.
    + rewrite Z.mod_pow2_bits_high by lia.
      rewrite Z.shiftr_spec by lia. cbn [orb]. f_equal. lia.
Qed.

Lemma lor_128 (x : Z) : 0 <= x < 128 -> Z.lor x 128 = x + 128.
Proof.
  intros H.
  assert (E : Z.land x 128 = 0).
  { apply Z.bits_inj'. intros n Hn. rewrite Z.land_spec, Z.bits_0.
    change 128 with (2 ^ 7). rewrite Z.pow2_bits_eqb by lia.
    destruct (Z.eqb_spec 7 n) as [<-|]; [|apply andb_false_r].
    destruct (Z.eq_dec x 0) as [->|]; [reflexivity|].
    rewrite Z.bits_above_log2; [reflexivity | lia |].
    apply Z.log2_lt_pow2; lia. }
  rewrite <- Z.lxor_lor by exact E. symmetry. apply Z.add_nocarry_lxor. exact E.
Qed.

Lemma land_127_range (v : Z) : 0 <= Z.land v 127 < 128.
Proof.
  change 127 with (Z.ones 7). rewrite Z.land_ones by lia.
  apply Z.mod_pos_bound. lia.
Qed.

(** The continuation byte [uint8(v&0x7f | 0x80)]. *)
Lemma continuation_byte (v : Z) :
  let b := uint8 (Z.lor (Z.land v 127) 128) in
  128 <= b2z b /\ Z.land (b2z b) 127 = Z.land v 127.
Proof.
  cbv zeta. pose proof (land_127_range v) as Hr.
  rewrite b2z_uint8, lor_128 by exact Hr.
  rewrite Z.mod_small by lia. split; [lia|].
  change 127 with (Z.ones 7) at 2. rewrite Z.land_ones by lia.
  replace (Z.land v 127 + 128) with (Z.land v 127 + 1 * 2 ^ 7) by reflexivity.
  rewrite Z.mod_add by lia. apply Z.mod_small. exact Hr.
Qed.

(** The last byte [uint8(v)] of a varint, [v < 1<<7]. *)
Lemma final_byte (v : Z) :
  0 <= v < 128 -> b2z (uint8 v) = v /\ Z.land v 127 = v.
Proof.
  intros H. rewrite b2z_uint8, Z.mod_small by lia. split; [reflexivity|].
  change 127 with (Z.ones 7). rewrite Z.land_ones by lia. apply Z.mod_small. exact H.
Qed.

Lemma varint_loop_varint (conv : Z -> Z) (n : nat) :
  lor_morphism conv ->
  forall v shift x i rest,
    0 <= shift < 64 ->
    0 <= v < 2 ^ (7 * (Z.of_nat n + 1)) ->
    v < 2 ^ (64 - shift) ->
    varint_loop conv (varint_upto n v ++ rest) shift x i
    = (Z.lor x (conv (Z.shiftl v shift)), i + llen (varint_upto n v), None).
Proof.
  intros Hc. induction n as [|n IH]; intros v shift x i rest Hs Hv Hb.
  - simpl in Hv. cbn [varint_upto app varint_loop].
    destruct (Z.leb_spec 64 shift); [lia|].
    destruct (final_byte v) as [E1 E2]; [lia|]. rewrite E1, E2.
    destruct (Z.ltb_spec v 128); [|lia]. reflexivity.
  - cbn [varint_upto]. destruct (Z.leb_spec 128 v) as [Hbig|Hsmall].
    + cbn [app varint_loop].
      destruct (Z.leb_spec 64 shift); [lia|].
      destruct (continuation_byte v) as [E1 E2]. cbv zeta in E1, E2.
      rewrite E2. destruct (Z.ltb_spec (b2z (uint8 (Z.lor (Z.land v 127) 128))) 128); [lia|].
      assert (Hshift : shift + 7 < 64).
      { destruct (Z_lt_le_dec (shift + 7) 64); [assumption|].
        assert (2 ^ (64 - shift) <= 2 ^ 7) by (apply Z.pow_le_mono_r; lia).
        change (2 ^ 7) with 128 in *. lia. }
      pose proof (shiftr7_bound v n Hv) as Hv'.
      rewrite IH; [| lia | exact Hv' |].
      * rewrite <- Z.lor_assoc, <- Hc, chunk_split by lia.
        rewrite llen_cons. f_equal. f_equal. lia.
      * rewrite Z.shiftr_div_pow2 by lia. apply Z.div_lt_upper_bound; [lia|].
        rewrite <- Z.pow_add_r by lia. replace (7 + (64 - (shift + 7))) with (64 - shift) by lia.
        exact Hb.
    + cbn [app varint_loop].
      destruct (Z.leb_spec 64 shift); [lia|].
      destruct (final_byte v) as [E1 E2]; [lia|]. rewrite E1, E2.
      destruct (Z.ltb_spec v 128); [|lia]. reflexivity.
Qed.

Lemma from_app_l (a b : list byte) (j : Z) :
  0 <= j -> from (a ++ b) (llen a + j) = from b j.
Proof.
  intros H. unfold from, llen.
  replace (Z.to_nat (Z.of_nat (length a) + j)) with (Z.to_nat j + length a)%nat by lia.
  rewrite <- skipn_skipn, skipn_length_app. reflexivity.
Qed.

Lemma from_app_r (d b : list byte) (j : Z) :
  j <= llen d -> from (d ++ b) j = from d j ++ b.
Proof.
  intros H. unfold from, llen in *. rewrite skipn_app.
  replace (Z.to_nat j - length d)%nat with 0%nat by lia. reflexivity.
Qed.

Lemma from_0 (d : list byte) : from d 0 = d.
Proof. reflexivity. Qed.

Lemma llen_from (d : list byte) (j : Z) : 0 <= j <= llen d -> llen (from d j) = llen d - j.
Proof. intros H. unfold from, llen in *. rewrite length_skipn. lia. Qed.

Lemma read_varint_at (conv : Z -> Z) (v : Z) (pre rest : list byte) :
  lor_morphism conv -> is_uint64 v ->
  read_varint conv (pre ++ varint v ++ rest) (llen pre)
  = (conv v, llen pre + llen (varint v), None).
Proof.
  intros Hc Hv. unfold read_varint. rewrite from_app. unfold varint.
  unfold is_uint64 in Hv.
  assert (2 ^ 64 < 2 ^ (7 * (Z.of_nat 9 + 1))) by (vm_compute; reflexivity).
  rewrite varint_loop_varint; try assumption; try lia.
  rewrite Z.shiftl_0_r, Z.lor_0_l. reflexivity.
Qed.

(** A varint that was read stays the same when bytes are added behind
    the buffer, and the cursor has moved inside the buffer. *)
Lemma varint_loop_app (conv : Z -> Z) (bs b : list byte) :
  forall shift x i v i',
    varint_loop conv bs shift x i = (v, i', None) ->
    varint_loop conv (bs ++ b) shift x i = (v, i', None) /\ i < i' <= i + llen bs.
Proof.
  induction bs as [|c bs IH]; intros shift x i v i' H; cbn [varint_loop app] in *.
  - destruct (64 <=? shift); discriminate.
  - destruct (64 <=? shift); [discriminate|].
    rewrite llen_cons. pose proof (llen_nonneg bs).
    destruct (b2z c <? 128).
    + inversion H; subst. split; [reflexivity | lia].
    + apply IH in H. destruct H as [H1 H2]. split; [exact H1 | lia].
Qed.

Lemma read_varint_app (conv : Z -> Z) (d b : list byte) (i v i' : Z) :
  0 <= i <= llen d ->
  read_varint conv d i = (v, i', None) ->
  read_varint conv (d ++ b) i = (v, i', None) /\ i < i' <= llen d.
Proof.
  unfold read_varint. intros Hi H. rewrite from_app_r by lia.
  apply (varint_loop_app conv _ b) in H. destruct H as [H1 H2].
  rewrite llen_from in H2 by lia. split; [exact H1 | lia].
Qed.

(** Reading at [llen a + j] in [a ++ d] is reading at [j] in [d]. *)
Lemma varint_loop_cursor (conv : Z -> Z) (bs : list byte) (k : Z) :
  forall shift x i,
    varint_loop conv bs shift x (k + i)
    = let '(v, i', e) := varint_loop conv bs shift x i in (v, k + i', e).
Proof.
  induction bs as [|c bs IH]; intros shift x i; cbn [varint_loop].
  - destruct (64 <=? shift); reflexivity.
  - destruct (64 <=? shift); [reflexivity|].
    destruct (b2z c <? 128).
    + f_equal. f_equal. lia.
    + replace (k + i + 1) with (k + (i + 1)) by lia. apply IH.
Qed.

Lemma read_varint_shift (conv : Z -> Z) (a d : list byte) (j : Z) :
  0 <= j ->
  read_varint conv (a ++ d) (llen a + j)
  = let '(v, i', e) := read_varint conv d j in (v, llen a + i', e).
Proof.
  intros Hj. unfold read_varint. rewrite from_app_l by lia. apply varint_loop_cursor.
Qed.

(** ** The main loop in a longer buffer *)

Lemma step_frame_advances {M} (step : list byte -> M -> Z -> M * Z * status) :
  step_frame step ->
  forall d m j m' j',
    slice_len_ok d -> 0 <= j < llen d -> step d m j = (m', j', Nil) -> j < j' <= llen d.
Proof.
  intros Hf d m j m' j' Hd Hj Hs.
  apply (Hf [] d [] m j m' j'); try assumption.
  cbn [app]. rewrite app_nil_r. exact Hd.
Qed.

(** With enough fuel the result does not depend on the fuel. *)
Lemma decode_loop_fuel {M} (step : list byte -> M -> Z -> M * Z * status) (d : list byte) :
  step_frame step -> slice_len_ok d ->
  forall f1 f2 m i,
    0 <= i ->
    llen d - i <= Z.of_nat f1 -> llen d - i <= Z.of_nat f2 ->
    decode_loop step f1 d m i = decode_loop step f2 d m i.
Proof.
  intros Hf Hd. induction f1 as [|f1 IH]; intros f2 m i Hi H1 H2.
  - destruct f2; cbn [decode_loop]; destruct (Z.ltb_spec i (llen d)); try lia; reflexivity.
  - destruct f2 as [|f2]; cbn [decode_loop]; destruct (Z.ltb_spec i (llen d)); try lia;
      try reflexivity.
    destruct (step d m i) as [[m' i'] st] eqn:Es.
    destruct st; try reflexivity.
    pose proof (step_frame_advances step Hf d m i m' i' Hd ltac:(lia) Es).
    apply IH; lia.
Qed.

Lemma decode_loop_frame {M} (step : list byte -> M -> Z -> M * Z * status) (a d b : list byte) :
  step_frame step -> slice_len_ok (a ++ d ++ b) ->
  forall f m j m2 F,
    0 <= j ->
    decode_loop step f d m j = (m2, Nil) ->
    llen (a ++ d ++ b) - (llen a + j) <= Z.of_nat F ->
    decode_loop step F (a ++ d ++ b) m (llen a + j)
    = decode_loop step F (a ++ d ++ b) m2 (llen a + llen d).
Proof.
  intros Hf Hl.
  pose proof (llen_nonneg a). pose proof (llen_nonneg b). pose proof (llen_nonneg d).
  induction f as [|f IH]; intros m j m2 F Hj Hrun HF; cbn [decode_loop] in Hrun.
  - destruct (Z.ltb_spec j (llen d)); [discriminate|].
    destruct (Z.gtb_spec j (llen d)); [discriminate|].
    inversion Hrun; subst. replace j with (llen d) by lia. reflexivity.
  - destruct (Z.ltb_spec j (llen d)).
    + destruct (step d m j) as [[m' j'] st] eqn:Es.
      destruct st; try discriminate; try (inversion Hrun; fail).
      destruct (Hf a d b m j m' j' Hl ltac:(lia) Es) as [Hadv Hs'].
      destruct F as [|F]; [list_len; lia|].
      remember (decode_loop step (S F) (a ++ d ++ b) m2 (llen a + llen d)) as R eqn:ER.
      cbn [decode_loop].
      destruct (Z.ltb_spec (llen a + j) (llen (a ++ d ++ b))); [|list_len; lia].
      rewrite Hs'.
      rewrite (IH m' j' m2 F) by (try assumption; list_len; lia).
      subst R. apply decode_loop_fuel; try assumption; list_len; lia.
    + destruct (Z.gtb_spec j (llen d)); [discriminate|].
      inversion Hrun; subst. replace j with (llen d) by lia. reflexivity.
Qed.

(** Decoding [a ++ b] when [a] decodes: the loop reaches the end of [a]
    with the receiver that [a] alone gives. *)
Lemma decode_loop_app {M} (step : list byte -> M -> Z -> M * Z * status) (a b : list byte)
    (m m1 : M) :
  step_frame step -> slice_len_ok (a ++ b) ->
  decode_loop step (length a) a m 0 = (m1, Nil) ->
  decode_loop step (length (a ++ b)) (a ++ b) m 0
  = decode_loop step (length (a ++ b)) (a ++ b) m1 (llen a).
Proof.
  intros Hf Hl Hrun.
  pose proof (decode_loop_frame step [] a b Hf Hl (length a) m 0 m1 (length (a ++ b))
                ltac:(lia) Hrun) as H.
  cbn [app] in H. change (llen (@nil byte)) with 0 in H. cbn [Z.add] in H.
  apply H. unfold llen. lia.
Qed.

(** ... and when [b] decodes too, so does [a ++ b]. *)
Lemma decode_loop_app_Nil {M} (step : list byte -> M -> Z -> M * Z * status) (a b : list byte)
    (m m1 m2 : M) :
  step_frame step -> slice_len_ok (a ++ b) ->
  decode_loop step (length a) a m 0 = (m1, Nil) ->
  decode_loop step (length b) b m1 0 = (m2, Nil) ->
  decode_loop step (length (a ++ b)) (a ++ b) m 0 = (m2, Nil).
Proof.
  intros Hf Hl Ha Hb.
  rewrite (decode_loop_app step a b m m1 Hf Hl Ha).
  assert (Hl' : slice_len_ok (a ++ b ++ [])) by (rewrite app_nil_r; exact Hl).
  pose proof (decode_loop_frame step a b [] Hf Hl' (length b) m1 0 m2 (length (a ++ b))
                ltac:(lia) Hb) as H.
  rewrite app_nil_r, Z.add_0_r in H. rewrite H by (unfold llen; rewrite length_app; lia).
  destruct (length (a ++ b)); cbn [decode_loop]; rewrite <- llen_app;
    destruct (Z.ltb_spec (llen (a ++ b)) (llen (a ++ b))); try lia;
    destruct (Z.gtb_spec (llen (a ++ b)) (llen (a ++ b))); try lia; reflexivity.
Qed.

(** ** The parts of a pass in a longer buffer *)

Lemma read_varint_frame (conv : Z -> Z) (a d b : list byte) (j v j' : Z) :
  0 <= j <= llen d ->
  read_varint conv d j = (v, j', None) ->
  j < j' <= llen d /\ read_varint conv (a ++ d ++ b) (llen a + j) = (v, llen a + j', None).
Proof.
  intros Hj H. destruct (read_varint_app conv d b j v j' Hj H) as [H1 H2].
  split; [exact H2|]. rewrite read_varint_shift by lia. rewrite H1. reflexivity.
Qed.

Lemma varint_loop_image (conv : Z -> Z) :
  lor_morphism conv ->
  forall bs shift x0 i v i' e,
    varint_loop conv bs shift (conv x0) i = (v, i', e) -> exists v0, v = conv v0.
Proof.
  intros Hc. induction bs as [|c bs IH]; intros shift x0 i v i' e H; cbn [varint_loop] in H.
  - destruct (64 <=? shift); inversion H; eauto.
  - destruct (64 <=? shift); [inversion H; eauto|].
    rewrite <- Hc in H. destruct (b2z c <? 128); [inversion H; eauto|].
    eapply IH. exact H.
Qed.

Lemma int64_range (z : Z) : is_int64 (int64 z).
Proof.
  unfold is_int64, int64.
  pose proof (Z.mod_pos_bound (z + 2 ^ 63) (2 ^ 64) ltac:(lia)). lia.
Qed.

Lemma int32_range (z : Z) : is_int32 (int32 z).
Proof.
  unfold is_int32, int32.
  pose proof (Z.mod_pos_bound (z + 2 ^ 31) (2 ^ 32) ltac:(lia)). lia.
Qed.

Lemma read_varint_int_range (d : list byte) (j v j' : Z) (e : option error) :
  read_varint int d j = (v, j', e) -> is_int64 v.
Proof.
  unfold read_varint. intros H.
  change 0 with (int 0) in H at 2.
  apply (varint_loop_image int int64_lor) in H. destruct H as [v0 ->]. apply int64_range.
Qed.

(** A sum of two non-negative [int]s that is not negative has not wrapped. *)
Lemma int_sum_nonneg (x y : Z) :
  0 <= x < 2 ^ 63 -> 0 <= y < 2 ^ 63 -> 0 <= int (x + y) -> int (x + y) = x + y.
Proof.
  unfold int, int64. intros Hx Hy H.
  destruct (Z_lt_le_dec (x + y) (2 ^ 63)).
  - rewrite Z.mod_small by lia. lia.
  - exfalso. revert H.
    replace (x + y + 2 ^ 63) with (x + y - 2 ^ 63 + 1 * 2 ^ 64) by lia.
    rewrite Z.mod_add by lia. rewrite Z.mod_small by lia. lia.
Qed.

Lemma int_small (z : Z) : - 2 ^ 63 <= z < 2 ^ 63 -> int z = z.
Proof. apply int64_small. Qed.

Lemma sub_frame (a d b : list byte) (i p : Z) :
  0 <= i <= p -> p <= llen d ->
  sub (a ++ d ++ b) (llen a + i) (llen a + p) = sub d i p.
Proof.
  intros Hi Hp. unfold sub. rewrite from_app_l, from_app_r by lia.
  replace (llen a + p - (llen a + i)) with (p - i) by lia.
  rewrite firstn_app.
  replace (Z.to_nat (p - i) - length (from d i))%nat with 0%nat.
  - cbn [firstn]. apply app_nil_r.
  - pose proof (llen_from d i ltac:(lia)) as E. unfold llen in *. lia.
Qed.

Lemma sub_whole (pre p post : list byte) (i q : Z) :
  i = llen pre -> q = llen pre + llen p ->
  sub (pre ++ p ++ post) i q = p.
Proof.
  intros -> ->. unfold sub. rewrite from_app.
  replace (llen pre + llen p - llen pre) with (llen p) by lia.
  unfold llen. rewrite Nat2Z.id. apply firstn_length_app.
Qed.

Lemma read_length_frame (a d b : list byte) (j i1 p : Z) :
  slice_len_ok (a ++ d ++ b) ->
  0 <= j <= llen d ->
  read_length d j = (i1, p, None) ->
  (j < i1 /\ i1 <= p <= llen d)
  /\ read_length (a ++ d ++ b) (llen a + j) = (llen a + i1, llen a + p, None).
Proof.
  unfold slice_len_ok. intros Hl Hj H. unfold read_length in *.
  rewrite !llen_app in *.
  pose proof (llen_nonneg a). pose proof (llen_nonneg b). pose proof (llen_nonneg d).
  destruct (read_varint int d j) as [[msglen i] err] eqn:Er.
  destruct err; [discriminate|].
  pose proof (read_varint_int_range d j msglen i None Er) as Hr. unfold is_int64 in Hr.
  destruct (read_varint_frame int a d b j msglen i Hj Er) as [Hadv Er'].
  rewrite Er'.
  destruct (Z.ltb_spec msglen 0); [discriminate|].
  cbv zeta in H.
  destruct (Z.ltb_spec (int (i + msglen)) 0); [discriminate|].
  destruct (Z.gtb_spec (int (i + msglen)) (llen d)); [discriminate|].
  inversion H; subst i1 p. clear H.
  rewrite int_sum_nonneg in * by lia.
  replace (llen a + i + msglen) with (llen a + (i + msglen)) by lia.
  rewrite (int_small (llen a + (i + msglen))) by lia.
  destruct (Z.ltb_spec (llen a + (i + msglen)) 0); [lia|].
  destruct (Z.gtb_spec (llen a + (i + msglen)) (llen a + (llen d + llen b))); [lia|].
  split; [lia | reflexivity].
Qed.

(** *** [skipMessage] *)

Lemma skip_field_app (x b : list byte) (wt i depth i' depth' : Z) :
  0 <= i <= llen x ->
  skip_field x wt i depth = (i', depth', None) ->
  skip_field (x ++ b) wt i depth = (i', depth', None).
Proof.
  intros Hi H. unfold skip_field in *.
  destruct (wt =? 0).
  { destruct (read_varint (fun _ => 0) x i) as [[v i1] e] eqn:E.
    inversion H; subst. apply (read_varint_app _ x b) in E; [|lia].
    destruct E as [-> _]. reflexivity. }
  destruct (wt =? 1); [exact H|].
  destruct (wt =? 2).
  { destruct (read_varint int x i) as [[v i1] e] eqn:E.
    destruct e; [discriminate|].
    apply (read_varint_app _ x b) in E; [|lia].
    destruct E as [-> _]. exact H. }
  exact H.
Qed.

Lemma skip_field_bound (x : list byte) (wt i depth i' depth' : Z) :
  slice_len_ok x ->
  0 <= i <= llen x -> 0 <= depth ->
  skip_field x wt i depth = (i', depth', None) ->
  0 <= i' ->
  i <= i' < 2 ^ 63 /\ 0 <= depth'.
Proof.
  unfold slice_len_ok. intros Hl Hi Hd H Hi'. unfold skip_field in *.
  destruct (wt =? 0).
  { destruct (read_varint (fun _ => 0) x i) as [[v i1] e] eqn:E.
    inversion H; subst. apply (read_varint_app _ x []) in E; [|lia].
    destruct E as [_ E]. lia. }
  destruct (wt =? 1); [inversion H; lia|].
  destruct (wt =? 2).
  { destruct (read_varint int x i) as [[v i1] e] eqn:E.
    destruct e; [discriminate|].
    pose proof (read_varint_int_range _ _ _ _ _ E) as Hr. unfold is_int64 in Hr.
    apply (read_varint_app _ x []) in E; [|lia]. destruct E as [_ E].
    destruct (Z.ltb_spec v 0); [discriminate|].
    inversion H; subst.
    pose proof (int64_range (i1 + v)) as Hr'. unfold is_int64 in Hr'. fold (int (i1 + v)) in Hr'.
    rewrite int_sum_nonneg in * by lia. lia. }
  destruct (wt =? 3); [inversion H; lia|].
  destruct (wt =? 4).
  { destruct (Z.eqb_spec depth 0); [discriminate|]. inversion H; lia. }
  destruct (wt =? 5); [inversion H; lia|].
  discriminate.
Qed.

Lemma skip_loop_app (x b : list byte) :
  forall f F i depth n,
    (f <= F)%nat -> 0 <= i ->
    skip_loop f x i depth = (n, Nil) ->
    skip_loop F (x ++ b) i depth = (n, Nil).
Proof.
  induction f as [|f IH]; intros F i depth n HF Hi H; cbn [skip_loop] in H.
  - destruct (i <? llen x); discriminate.
  - destruct (Z.ltb_spec i (llen x)); [|discriminate].
    destruct F as [|F]; [lia|]. cbn [skip_loop].
    pose proof (llen_nonneg b).
    destruct (Z.ltb_spec i (llen (x ++ b))); [|rewrite llen_app in *; lia].
    destruct (read_varint uint64 x i) as [[wire i1] e] eqn:E.
    destruct e; [discriminate|].
    apply (read_varint_app _ x b) in E; [|lia]. destruct E as [-> Ei].
    destruct (skip_field x (int (Z.land wire 7)) i1 depth) as [[i2 d2] e] eqn:Ef.
    destruct e; [discriminate|].
    assert (Hi1 : 0 <= i1 <= llen x) by lia.
    rewrite (skip_field_app x b _ _ _ _ _ Hi1 Ef).
    destruct (Z.ltb_spec i2 0); [discriminate|].
    destruct (d2 =? 0); [exact H|].
    apply IH; [lia | lia | exact H].
Qed.

Lemma skip_loop_bound (x : list byte) :
  slice_len_ok x ->
  forall f i depth n,
    0 <= i -> 0 <= depth ->
    skip_loop f x i depth = (n, Nil) -> i < n < 2 ^ 63.
Proof.
  intros Hl. induction f as [|f IH]; intros i depth n Hi Hd H; cbn [skip_loop] in H.
  - destruct (i <? llen x); discriminate.
  - destruct (Z.ltb_spec i (llen x)); [|discriminate].
    destruct (read_varint uint64 x i) as [[wire i1] e] eqn:E.
    destruct e; [discriminate|].
    apply (read_varint_app _ x []) in E; [|lia]. destruct E as [_ Ei].
    destruct (skip_field x (int (Z.land wire 7)) i1 depth) as [[i2 d2] e] eqn:Ef.
    destruct e; [discriminate|].
    destruct (Z.ltb_spec i2 0); [discriminate|].
    assert (Hi1 : 0 <= i1 <= llen x) by lia.
    assert (Hi2 : 0 <= i2) by lia.
    destruct (skip_field_bound x _ _ _ _ _ Hl Hi1 Hd Ef Hi2) as [Hb Hd2].
    destruct (d2 =? 0); [inversion H; subst; lia|].
    apply IH in H; lia.
Qed.

Lemma skipMessage_app (x b : list byte) (n : Z) :
  skipMessage x = (n, Nil) -> skipMessage (x ++ b) = (n, Nil).
Proof.
  unfold skipMessage. intros H.
  apply skip_loop_app with (f := length x); [rewrite length_app; lia | lia | exact H].
Qed.

Lemma skip_unknown_frame (a d b : list byte) (j j' : Z) :
  slice_len_ok (a ++ d ++ b) ->
  0 <= j <= llen d ->
  skip_unknown d j = (j', Nil) ->
  j < j' <= llen d /\ skip_unknown (a ++ d ++ b) (llen a + j) = (llen a + j', Nil).
Proof.
  unfold slice_len_ok. intros Hl Hj H. unfold skip_unknown in *.
  rewrite !llen_app in *.
  pose proof (llen_nonneg a). pose proof (llen_nonneg b). pose proof (llen_nonneg d).
  rewrite from_app_l, from_app_r by lia.
  destruct (skipMessage (from d j)) as [skippy st] eqn:Es.
  destruct st; try discriminate.
  rewrite (skipMessage_app _ b _ Es).
  assert (Hb : 0 < skippy < 2 ^ 63).
  { apply skip_loop_bound in Es; try lia.
    unfold slice_len_ok. rewrite llen_from by lia. lia. }
  revert H.
  destruct (Z.ltb_spec skippy 0); [lia|].
  destruct (Z.ltb_spec (int (j + skippy)) 0); [discriminate|].
  rewrite int_sum_nonneg in * by lia.
  destruct (Z.gtb_spec (j + skippy) (llen d)); [discriminate|].
  intros Hq. inversion Hq; subst j'.
  replace (llen a + j + skippy) with (llen a + (j + skippy)) by lia.
  rewrite (int_small (llen a + (j + skippy))) by lia.
  destruct (Z.ltb_spec (llen a + (j + skippy)) 0); [lia|].
  destruct (Z.gtb_spec (llen a + (j + skippy)) (llen a + (llen d + llen b))); [lia|].
  split; [lia | reflexivity].
Qed.

(** *** The three passes *)

Lemma with_tag_frame {M} (a d b : list byte) (m : M) (j : Z)
    (k k' : Z -> Z -> Z -> M * Z * status) (m' : M) (j' : Z) :
  0 <= j <= llen d ->
  with_tag d m j k = (m', j', Nil) ->
  (forall fieldNum wireType i1,
      j < i1 <= llen d ->
      k fieldNum wireType i1 = (m', j', Nil) ->
      j < j' <= llen d /\ k' fieldNum wireType (llen a + i1) = (m', llen a + j', Nil)) ->
  j < j' <= llen d /\ with_tag (a ++ d ++ b) m (llen a + j) k' = (m', llen a + j', Nil).
Proof.
  intros Hj H Hk. unfold with_tag in *.
  destruct (read_varint uint64 d j) as [[wire i1] e] eqn:E.
  destruct e; [discriminate|].
  destruct (read_varint_frame uint64 a d b j wire i1 Hj E) as [Hadv ->].
  cbv zeta in *.
  destruct (int (Z.land wire 7) =? 4); [discriminate|].
  destruct (int32 (Z.shiftr wire 3) <=? 0); [discriminate|].
  destruct (Hk _ _ _ Hadv H) as [H1 H2]. split; [lia | exact H2].
Qed.

Lemma of_err_Nil (e : option error) : of_err e = Nil -> e = None.
Proof. destruct e; [discriminate | reflexivity]. Qed.

(** A scalar field: [m.X = 0] and the varint loop on [m.X]. *)
Lemma varint_field_frame {M} (conv : Z -> Z) (set : Z -> M) (a d b : list byte)
    (i1 : Z) (m' : M) (j' : Z) :
  0 <= i1 <= llen d ->
  (let '(v, iNdEx, err) := read_varint conv d i1 in (set v, iNdEx, of_err err)) = (m', j', Nil) ->
  i1 <= j' <= llen d
  /\ (let '(v, iNdEx, err) := read_varint conv (a ++ d ++ b) (llen a + i1) in
      (set v, iNdEx, of_err err)) = (m', llen a + j', Nil).
Proof.
  intros Hi H.
  destruct (read_varint conv d i1) as [[v i2] e] eqn:E.
  inversion H as [[Hm Hj He]]. apply of_err_Nil in He. subst e i2.
  destruct (read_varint_frame conv a d b i1 v j' Hi E) as [Hadv ->].
  split; [lia | reflexivity].
Qed.

(** A field that is skipped. *)
Lemma skipped_field_frame {M} (a d b : list byte) (m m' : M) (j j' : Z) :
  slice_len_ok (a ++ d ++ b) ->
  0 <= j <= llen d ->
  (let '(iNdEx, st) := skip_unknown d j in (m, iNdEx, st)) = (m', j', Nil) ->
  j < j' <= llen d
  /\ (let '(iNdEx, st) := skip_unknown (a ++ d ++ b) (llen a + j) in (m, iNdEx, st))
     = (m', llen a + j', Nil).
Proof.
  intros Hl Hj H.
  destruct (skip_unknown d j) as [i2 st] eqn:E.
  inversion H; subst.
  destruct (skip_unknown_frame a d b j j' Hl ltac:(lia) E) as [Hadv ->].
  split; [lia|reflexivity].
Qed.

Lemma Item_step_frame : step_frame Item_step.
Proof.
  intros a d b m j m' j' Hl Hj H. unfold Item_step in *. cbv zeta in *.
  apply (with_tag_frame a d b m j _ _ m' j' ltac:(lia) H).
  clear H. intros fieldNum wireType i1 Hi H.
  destruct (fieldNum =? 1).
  { destruct (negb (wireType =? 0)); [discriminate|].
    destruct (varint_field_frame int64 (fun v => mkItem v (Version m)) a d b i1 m' j'
                ltac:(lia) H) as [H1 H2].
    split; [lia | exact H2]. }
  destruct (fieldNum =? 2).
  { destruct (negb (wireType =? 0)); [discriminate|].
    destruct (varint_field_frame int64 (fun v => mkItem (EventId m) v) a d b i1 m' j'
                ltac:(lia) H) as [H1 H2].
    split; [lia | exact H2]. }
  apply skipped_field_frame; [exact Hl | lia | exact H].
Qed.

(** A length-delimited field: the checks on the length, then [body] on
    the bytes of the field. *)
Lemma delimited_frame {M T} (body : list byte -> T * status) (set : T -> M)
    (a d b : list byte) (m : M) (i1 : Z) (m' : M) (j' : Z) :
  slice_len_ok (a ++ d ++ b) ->
  0 <= i1 <= llen d ->
  (let '(iNdEx, postIndex, err) := read_length d i1 in
   match err with
   | Some e => (m, iNdEx, Err e)
   | None => let '(e, st) := body (sub d iNdEx postIndex) in (set e, postIndex, st)
   end) = (m', j', Nil) ->
  i1 <= j' <= llen d
  /\ (let '(iNdEx, postIndex, err) := read_length (a ++ d ++ b) (llen a + i1) in
      match err with
      | Some e => (m, iNdEx, Err e)
      | None => let '(e, st) := body (sub (a ++ d ++ b) iNdEx postIndex) in
                (set e, postIndex, st)
      end) = (m', llen a + j', Nil).
Proof.
  intros Hl Hi H.
  destruct (read_length d i1) as [[i2 p] e] eqn:E.
  destruct e; [discriminate|].
  destruct (read_length_frame a d b i1 i2 p Hl Hi E) as [Hadv ->].
  rewrite sub_frame by lia.
  destruct (body (sub d i2 p)) as [e st].
  inversion H; subst. split; [lia | reflexivity].
Qed.

Lemma History_step_frame : step_frame History_step.
Proof.
  intros a d b m j m' j' Hl Hj H. unfold History_step in *. cbv zeta in *.
  apply (with_tag_frame a d b m j _ _ m' j' ltac:(lia) H).
  clear H. intros fieldNum wireType i1 Hi H.
  destruct (fieldNum =? 1).
  { destruct (negb (wireType =? 2)); [discriminate|].
    destruct (delimited_frame (fun bs => (bs, Nil))
                (fun bs => mkHistory (Some bs) (Items m)) a d b m i1 m' j' Hl
                ltac:(lia)) as [H1 H2].
    - destruct (read_length d i1) as [[i2 p] e]. destruct e; exact H.
    - split; [lia|].
      destruct (read_length (a ++ d ++ b) (llen a + i1)) as [[i2 p] e].
      destruct e; exact H2. }
  destruct (fieldNum =? 2).
  { destruct (negb (wireType =? 2)); [discriminate|].
    destruct (delimited_frame (Item_Unmarshal Item_zero)
                (fun e => mkHistory (BranchToken m) (append (Items m) (Some e)))
                a d b m i1 m' j' Hl ltac:(lia) H) as [H1 H2].
    split; [lia | exact H2]. }
  apply skipped_field_frame; [exact Hl | lia | exact H].
Qed.

Lemma Histories_step_frame : step_frame Histories_step.
Proof.
  intros a d b m j m' j' Hl Hj H. unfold Histories_step in *. cbv zeta in *.
  apply (with_tag_frame a d b m j _ _ m' j' ltac:(lia) H).
  clear H. intros fieldNum wireType i1 Hi H.
  destruct (fieldNum =? 1).
  { destruct (negb (wireType =? 0)); [discriminate|].
    destruct (varint_field_frame int32 (fun v => mkHistories v (Histories m)) a d b i1 m' j'
                ltac:(lia) H) as [H1 H2].
    split; [lia | exact H2]. }
  destruct (fieldNum =? 2).
  { destruct (negb (wireType =? 2)); [discriminate|].
    destruct (delimited_frame (History_Unmarshal History_zero)
                (fun e => mkHistories (CurrentVersionHistoryIndex m)
                                      (append (Histories m) (Some e)))
                a d b m i1 m' j' Hl ltac:(lia) H) as [H1 H2].
    split; [lia | exact H2]. }
  apply skipped_field_frame; [exact Hl | lia | exact H].
Qed.

(** ** Decoding a concatenation *)

Lemma Item_Unmarshal_app (a b : list byte) (m m1 m2 : VersionHistoryItem) :
  slice_len_ok (a ++ b) ->
  Item_Unmarshal m a = (m1, Nil) -> Item_Unmarshal m1 b = (m2, Nil) ->
  Item_Unmarshal m (a ++ b) = (m2, Nil).
Proof. apply decode_loop_app_Nil, Item_step_frame. Qed.

Lemma History_Unmarshal_app (a b : list byte) (m m1 m2 : VersionHistory) :
  slice_len_ok (a ++ b) ->
  History_Unmarshal m a = (m1, Nil) -> History_Unmarshal m1 b = (m2, Nil) ->
  History_Unmarshal m (a ++ b) = (m2, Nil).
Proof. apply decode_loop_app_Nil, History_step_frame. Qed.

Lemma Histories_Unmarshal_app (a b : list byte) (m m1 m2 : VersionHistories) :
  slice_len_ok (a ++ b) ->
  Histories_Unmarshal m a = (m1, Nil) -> Histories_Unmarshal m1 b = (m2, Nil) ->
  Histories_Unmarshal m (a ++ b) = (m2, Nil).
Proof. apply decode_loop_app_Nil, Histories_step_frame. Qed.

(** ** Decoding one field *)

Lemma decode_loop_end {M} (step : list byte -> M -> Z -> M * Z * status) (f : nat)
    (d : list byte) (m : M) :
  decode_loop step f d m (llen d) = (m, Nil).
Proof.
  destruct f; cbn [decode_loop];
    destruct (Z.ltb_spec (llen d) (llen d)); try lia;
    destruct (Z.gtb_spec (llen d) (llen d)); try lia; reflexivity.
Qed.

(** The first pass over a buffer that is not empty. *)
Lemma decode_loop_first {M} (step : list byte -> M -> Z -> M * Z * status)
    (d : list byte) (m : M) :
  d <> [] ->
  decode_loop step (length d) d m 0
  = let '(m', i, st) := step d m 0 in
    match st with
    | Nil => decode_loop step (pred (length d)) d m' i
    | _ => (m', st)
    end.
Proof.
  intros Hd. destruct d as [|c d]; [contradiction|].
  cbn [length pred decode_loop]. rewrite llen_cons.
  pose proof (llen_nonneg d).
  destruct (Z.ltb_spec 0 (1 + llen d)); [reflexivity | lia].
Qed.

(** A buffer that holds one field. *)
Lemma decode_loop_single {M} (step : list byte -> M -> Z -> M * Z * status)
    (d : list byte) (m m' : M) :
  d <> [] -> step d m 0 = (m', llen d, Nil) ->
  decode_loop step (length d) d m 0 = (m', Nil).
Proof.
  intros Hd Hs. rewrite decode_loop_first by exact Hd. rewrite Hs.
  apply decode_loop_end.
Qed.

Lemma key_shiftr (n wt : Z) : 0 <= wt < 8 -> Z.shiftr (key n wt) 3 = n.
Proof.
  intros H. unfold key. rewrite Z.shiftr_div_pow2 by lia. change (2 ^ 3) with 8.
  symmetry. apply Z.div_unique with (r := wt); lia.
Qed.

Lemma key_land (n wt : Z) : 0 <= wt < 8 -> Z.land (key n wt) 7 = wt.
Proof.
  intros H. unfold key. change 7 with (Z.ones 3). rewrite Z.land_ones by lia.
  change (2 ^ 3) with 8. symmetry. apply Z.mod_unique with (q := n); lia.
Qed.

(** The head of a pass on a well-formed key. *)
Lemma with_tag_key {M} (n wt : Z) (rest : list byte) (m : M)
    (k : Z -> Z -> Z -> M * Z * status) :
  0 < n < 2 ^ 31 -> 0 <= wt < 8 -> wt <> 4 ->
  with_tag (varint (key n wt) ++ rest) m 0 k = k n wt (llen (varint (key n wt))).
Proof.
  intros Hn Hwt H4. unfold with_tag.
  assert (Hk : is_uint64 (key n wt)) by (unfold is_uint64, key; lia).
  pose proof (read_varint_at uint64 (key n wt) [] rest uint64_lor Hk) as Hr.
  cbn [app] in Hr. change (llen (@nil byte)) with 0 in Hr. rewrite Hr.
  rewrite uint64_small by exact Hk. cbv zeta.
  rewrite key_shiftr, key_land by lia.
  rewrite int32_small by (unfold is_int32; lia).
  rewrite int_small by lia.
  destruct (Z.eqb_spec wt 4); [contradiction|].
  destruct (Z.leb_spec n 0); [lia|]. reflexivity.
Qed.

Lemma varint_small (t : Z) : 0 <= t < 128 -> varint t = [uint8 t].
Proof.
  intros H. unfold varint. cbn [varint_upto].
  destruct (Z.leb_spec 128 t); [lia | reflexivity].
Qed.

Lemma varint_nonempty (v : Z) : varint v <> [].
Proof. unfold varint. cbn [varint_upto]. destruct (128 <=? v); discriminate. Qed.

(** *** Scalar fields *)

Lemma scalar_field_step {M} (conv : Z -> Z) (set : Z -> M) (tag v : Z) (rest : list byte) :
  lor_morphism conv ->
  (let '(x, iNdEx, err) := read_varint conv (uint8 tag :: varint (uint64 v) ++ rest) 1 in
   (set x, iNdEx, of_err err))
  = (set (conv (uint64 v)), llen (uint8 tag :: varint (uint64 v)), Nil).
Proof.
  intros Hc.
  pose proof (read_varint_at conv (uint64 v) [uint8 tag] rest Hc (uint64_range v)) as Hr.
  cbn [app] in Hr. change (llen [uint8 tag]) with 1 in Hr. rewrite Hr.
  rewrite llen_cons. reflexivity.
Qed.

(** The head of a pass on a key of one byte. *)
Lemma with_tag_byte {M} (n wt : Z) (rest : list byte) (m : M)
    (k : Z -> Z -> Z -> M * Z * status) :
  0 < n < 16 -> 0 <= wt < 8 -> wt <> 4 ->
  with_tag (uint8 (key n wt) :: rest) m 0 k = k n wt 1.
Proof.
  intros Hn Hwt H4.
  assert (Hv : varint (key n wt) = [uint8 (key n wt)])
    by (apply varint_small; unfold key; lia).
  change (uint8 (key n wt) :: rest) with ([uint8 (key n wt)] ++ rest).
  rewrite <- Hv, with_tag_key by lia. rewrite Hv. reflexivity.
Qed.

Lemma Item_Unmarshal_EventId (m : VersionHistoryItem) (e : Z) :
  is_int64 e ->
  Item_Unmarshal m (varint_field 8 e)
  = (mkItem (if e =? 0 then EventId m else e) (Version m), Nil).
Proof.
  intros He. unfold varint_field, Item_Unmarshal.
  destruct (e =? 0); [destruct m; reflexivity|].
  apply decode_loop_single; [discriminate|].
  unfold Item_step. cbv zeta.
  change 8 with (key 1 0) at 1. rewrite with_tag_byte by lia.
  cbn [Z.eqb negb Pos.eqb]. change (key 1 0) with 8.
  rewrite <- (app_nil_r (varint (uint64 e))).
  rewrite (scalar_field_step int64 (fun x => mkItem x (Version m)) 8 e [] int64_lor).
  rewrite int64_uint64, int64_small by exact He. rewrite app_nil_r. reflexivity.
Qed.

Lemma Item_Unmarshal_Version (m : VersionHistoryItem) (v : Z) :
  is_int64 v ->
  Item_Unmarshal m (varint_field 16 v)
  = (mkItem (EventId m) (if v =? 0 then Version m else v), Nil).
Proof.
  intros He. unfold varint_field, Item_Unmarshal.
  destruct (v =? 0); [destruct m; reflexivity|].
  apply decode_loop_single; [discriminate|].
  unfold Item_step. cbv zeta.
  change 16 with (key 2 0) at 1. rewrite with_tag_byte by lia.
  cbn [Z.eqb negb Pos.eqb]. change (key 2 0) with 16.
  rewrite <- (app_nil_r (varint (uint64 v))).
  rewrite (scalar_field_step int64 (fun x => mkItem (EventId m) x) 16 v [] int64_lor).
  rewrite int64_uint64, int64_small by exact He. rewrite app_nil_r. reflexivity.
Qed.

Lemma Histories_Unmarshal_index (m : VersionHistories) (v : Z) :
  is_int32 v ->
  Histories_Unmarshal m (varint_field 8 v)
  = (mkHistories (if v =? 0 then CurrentVersionHistoryIndex m else v) (Histories m), Nil).
Proof.
  intros He. unfold varint_field, Histories_Unmarshal.
  destruct (v =? 0); [destruct m; reflexivity|].
  apply decode_loop_single; [discriminate|].
  unfold Histories_step. cbv zeta.
  change 8 with (key 1 0) at 1. rewrite with_tag_byte by lia.
  cbn [Z.eqb negb Pos.eqb]. change (key 1 0) with 8.
  rewrite <- (app_nil_r (varint (uint64 v))).
  rewrite (scalar_field_step int32 (fun x => mkHistories x (Histories m)) 8 v [] int32_lor).
  rewrite int32_uint64, int32_small by exact He. rewrite app_nil_r. reflexivity.
Qed.

(** *** Length-delimited fields *)

Lemma decode_loop_one {M} (step : list byte -> M -> Z -> M * Z * status)
    (d : list byte) (m m' : M) (st : status) :
  d <> [] -> step d m 0 = (m', llen d, st) ->
  decode_loop step (length d) d m 0 = (m', st).
Proof.
  intros Hd Hs. rewrite decode_loop_first by exact Hd. rewrite Hs.
  destruct st; try reflexivity. apply decode_loop_end.
Qed.

Lemma read_length_at (pre payload rest : list byte) :
  slice_len_ok (pre ++ varint (uint64 (llen payload)) ++ payload ++ rest) ->
  read_length (pre ++ varint (uint64 (llen payload)) ++ payload ++ rest) (llen pre)
  = (llen pre + llen (varint (uint64 (llen payload))),
     llen pre + llen (varint (uint64 (llen payload))) + llen payload, None).
Proof.
  unfold slice_len_ok. intros Hl. unfold read_length.
  rewrite (read_varint_at int _ pre _ int64_lor (uint64_range _)).
  set (lv := llen (varint (uint64 (llen payload)))) in *.
  rewrite !llen_app in *. fold lv in Hl.
  pose proof (llen_nonneg pre). pose proof (llen_nonneg payload).
  pose proof (llen_nonneg rest).
  assert (0 <= lv) by apply llen_nonneg.
  unfold int. rewrite int64_uint64.
  rewrite (int64_small (llen payload)) by (unfold is_int64; lia).
  destruct (Z.ltb_spec (llen payload) 0); [lia|].
  cbv zeta. rewrite (int64_small (llen pre + lv + llen payload)) by (unfold is_int64; lia).
  fold lv.
  destruct (Z.ltb_spec (llen pre + lv + llen payload) 0); [lia|].
  destruct (Z.gtb_spec (llen pre + lv + llen payload) (llen pre + (lv + (llen payload + llen rest))));
    [lia|].
  reflexivity.
Qed.

(** One length-delimited field in front of the buffer: the length is
    accepted and the bytes of the field are handed on. *)
Lemma delimited_field_step {M T} (body : list byte -> T * status) (set : T -> M)
    (tag : Z) (p rest : list byte) (m : M) :
  slice_len_ok (delimited_field tag p ++ rest) ->
  (let '(iNdEx, postIndex, err) := read_length (delimited_field tag p ++ rest) 1 in
   match err with
   | Some e => (m, iNdEx, Err e)
   | None => let '(e, st) := body (sub (delimited_field tag p ++ rest) iNdEx postIndex) in
             (set e, postIndex, st)
   end)
  = (let '(e, st) := body p in (set e, llen (delimited_field tag p), st)).
Proof.
  intros Hl. unfold delimited_field in *. cbn [app] in *.
  change (uint8 tag :: ?x) with ([uint8 tag] ++ x) in *.
  rewrite <- !app_assoc in *.
  pose proof (read_length_at [uint8 tag] p rest Hl) as Hr.
  change (llen [uint8 tag]) with 1 in Hr. rewrite Hr.
  rewrite (app_assoc [uint8 tag]).
  rewrite sub_whole by (list_len; lia).
  destruct (body p) as [e st]. repeat f_equal. list_len. lia.
Qed.

Lemma History_Unmarshal_token (m : VersionHistory) (tok : list byte) :
  slice_len_ok (delimited_field 10 tok) ->
  History_Unmarshal m (delimited_field 10 tok) = (mkHistory (Some tok) (Items m), Nil).
Proof.
  intros Hl. unfold History_Unmarshal.
  apply decode_loop_one; [discriminate|].
  unfold History_step. cbv zeta.
  change (delimited_field 10 tok) with (uint8 (key 1 2) :: varint (uint64 (llen tok)) ++ tok) at 1.
  rewrite with_tag_byte by lia. cbn [Z.eqb negb Pos.eqb].
  pose proof (delimited_field_step (fun bs => (bs, Nil))
                (fun bs => mkHistory (Some bs) (Items m)) 10 tok [] m) as Hs.
  rewrite app_nil_r in Hs. specialize (Hs Hl). cbv beta iota in Hs.
  destruct (read_length (delimited_field 10 tok) 1) as [[i p] [e|]]; exact Hs.
Qed.

Lemma History_Unmarshal_item (m : VersionHistory) (p : list byte) :
  slice_len_ok (delimited_field 18 p) ->
  History_Unmarshal m (delimited_field 18 p)
  = (let '(e, st) := Item_Unmarshal Item_zero p in
     (mkHistory (BranchToken m) (append (Items m) (Some e)), st)).
Proof.
  intros Hl. unfold History_Unmarshal.
  destruct (Item_Unmarshal Item_zero p) as [e st] eqn:E.
  apply decode_loop_one; [discriminate|].
  unfold History_step. cbv zeta.
  change (delimited_field 18 p) with (uint8 (key 2 2) :: varint (uint64 (llen p)) ++ p) at 1.
  rewrite with_tag_byte by lia. cbn [Z.eqb negb Pos.eqb].
  pose proof (delimited_field_step (Item_Unmarshal Item_zero)
                (fun e => mkHistory (BranchToken m) (append (Items m) (Some e))) 18 p [] m) as Hs.
  rewrite app_nil_r in Hs. rewrite (Hs Hl), E. reflexivity.
Qed.

Lemma Histories_Unmarshal_history (m : VersionHistories) (p : list byte) :
  slice_len_ok (delimited_field 18 p) ->
  Histories_Unmarshal m (delimited_field 18 p)
  = (let '(e, st) := History_Unmarshal History_zero p in
     (mkHistories (CurrentVersionHistoryIndex m) (append (Histories m) (Some e)), st)).
Proof.
  intros Hl. unfold Histories_Unmarshal.
  destruct (History_Unmarshal History_zero p) as [e st] eqn:E.
  apply decode_loop_one; [discriminate|].
  unfold Histories_step. cbv zeta.
  change (delimited_field 18 p) with (uint8 (key 2 2) :: varint (uint64 (llen p)) ++ p) at 1.
  rewrite with_tag_byte by lia. cbn [Z.eqb negb Pos.eqb].
  pose proof (delimited_field_step (History_Unmarshal History_zero)
                (fun e => mkHistories (CurrentVersionHistoryIndex m)
                                      (append (Histories m) (Some e))) 18 p [] m) as Hs.
  rewrite app_nil_r in Hs. rewrite (Hs Hl), E. reflexivity.
Qed.

(** ** Encoding, then decoding *)

Lemma sovMessage_le_10 (v : Z) : is_uint64 v -> sovMessage v <= 10.
Proof.
  unfold is_uint64. intros H. unfold sovMessage, Len64.
  assert (Hl : 0 < Z.lor v 1).
  { assert (0 <= Z.lor v 1) by (apply Z.lor_nonneg; lia).
    destruct (Z.eq_dec (Z.lor v 1) 0) as [E|E]; [|lia].
    apply Z.lor_eq_0_iff in E. lia. }
  destruct (Z.eqb_spec (Z.lor v 1) 0); [lia|].
  rewrite Z.log2_lor by lia. change (Z.log2 1) with 0.
  assert (Z.log2 v < 64).
  { destruct (Z.eq_dec v 0) as [->|]; [simpl; lia|]. apply Z.log2_lt_pow2; lia. }
  pose proof (Z.log2_nonneg v).
  apply Z.div_le_upper_bound; lia.
Qed.

Lemma wire_item_short (m : ptr VersionHistoryItem) : llen (wire_item m) <= 22.
Proof.
  rewrite <- Item_Size_wire. destruct m as [m|]; [|simpl; lia].
  unfold Item_Size. cbv zeta.
  pose proof (sovMessage_le_10 _ (uint64_range (EventId m))).
  pose proof (sovMessage_le_10 _ (uint64_range (Version m))).
  destruct (EventId m =? 0), (Version m =? 0); cbn [negb]; lia.
Qed.

Lemma slice_len_ok_app_l (a b : list byte) : slice_len_ok (a ++ b) -> slice_len_ok a.
Proof. unfold slice_len_ok. rewrite llen_app. pose proof (llen_nonneg b). lia. Qed.

Lemma slice_len_ok_app_r (a b : list byte) : slice_len_ok (a ++ b) -> slice_len_ok b.
Proof. unfold slice_len_ok. rewrite llen_app. pose proof (llen_nonneg a). lia. Qed.

Lemma slice_len_ok_payload (tag : Z) (p : list byte) :
  slice_len_ok (delimited_field tag p) -> slice_len_ok p.
Proof.
  unfold slice_len_ok. rewrite delimited_field_length.
  pose proof (sovMessage_pos _ (proj1 (uint64_range (llen p)))). lia.
Qed.

(** Decoding the encoding of an item overwrites the fields that are
    not zero. *)
Lemma Item_Unmarshal_wire (m x : VersionHistoryItem) :
  Item_wf (Some x) ->
  Item_Unmarshal m (wire_item (Some x))
  = (mkItem (if EventId x =? 0 then EventId m else EventId x)
            (if Version x =? 0 then Version m else Version x), Nil).
Proof.
  intros [He Hv]. cbn [wire_item].
  apply Item_Unmarshal_app with (m1 := mkItem (if EventId x =? 0 then EventId m else EventId x)
                                              (Version m)).
  - pose proof (wire_item_short (Some x)) as Hs. cbn [wire_item] in Hs.
    unfold slice_len_ok. lia.
  - apply Item_Unmarshal_EventId, He.
  - rewrite Item_Unmarshal_Version by exact Hv. reflexivity.
Qed.

Lemma Item_roundtrip (x : VersionHistoryItem) :
  Item_wf (Some x) -> Item_Unmarshal Item_zero (wire_item (Some x)) = (x, Nil).
Proof.
  intros H. rewrite Item_Unmarshal_wire by exact H. destruct x as [e v]. cbn.
  destruct (Z.eqb_spec e 0), (Z.eqb_spec v 0); subst; reflexivity.
Qed.

Lemma elems_extend {A} (l : list A) : forall s : slice A, elems (extend s l) = elems s ++ l.
Proof.
  unfold extend. induction l as [|x l IH]; intros s; cbn [fold_left].
  - symmetry. apply app_nil_r.
  - rewrite IH. unfold append. cbn [elems]. rewrite <- app_assoc. reflexivity.
Qed.

Lemma History_Unmarshal_items (its : list (ptr VersionHistoryItem)) :
  Forall Item_wf its ->
  forall m,
    slice_len_ok (flat_map (fun e => delimited_field 18 (wire_item e)) its) ->
    History_Unmarshal m (flat_map (fun e => delimited_field 18 (wire_item e)) its)
    = (mkHistory (BranchToken m) (extend (Items m) its), Nil).
Proof.
  induction 1 as [|e its He Hall IH]; intros m Hl.
  - destruct m. reflexivity.
  - cbn [flat_map] in *. destruct e as [x|]; [|contradiction].
    apply History_Unmarshal_app
      with (m1 := mkHistory (BranchToken m) (append (Items m) (Some x))).
    + exact Hl.
    + rewrite History_Unmarshal_item by (eapply slice_len_ok_app_l; exact Hl).
      rewrite Item_roundtrip by exact He. reflexivity.
    + rewrite IH by (eapply slice_len_ok_app_r; exact Hl). reflexivity.
Qed.

Lemma History_Unmarshal_wire (m h : VersionHistory) :
  History_wf (Some h) ->
  slice_len_ok (wire_history (Some h)) ->
  History_Unmarshal m (wire_history (Some h))
  = (mkHistory (if 0 <? len (BranchToken h) then Some (elems (BranchToken h))
                else BranchToken m)
               (extend (Items m) (elems (Items h))), Nil).
Proof.
  intros Hw Hl. cbn [wire_history History_wf] in *.
  destruct (0 <? len (BranchToken h)).
  - apply History_Unmarshal_app
      with (m1 := mkHistory (Some (elems (BranchToken h))) (Items m)).
    + exact Hl.
    + apply History_Unmarshal_token. eapply slice_len_ok_app_l; exact Hl.
    + rewrite History_Unmarshal_items; [reflexivity | exact Hw |].
      eapply slice_len_ok_app_r; exact Hl.
  - cbn [app] in *. rewrite History_Unmarshal_items by assumption. reflexivity.
Qed.

Lemma wire_history_ok_in (hs : list (ptr VersionHistory)) (h : ptr VersionHistory) :
  slice_len_ok (flat_map (fun e => delimited_field 18 (wire_history e)) hs) ->
  In h hs -> slice_len_ok (wire_history h).
Proof.
  induction hs as [|x hs IH]; intros Hl Hin; [contradiction|].
  cbn [flat_map] in Hl. destruct Hin as [->|Hin].
  - eapply slice_len_ok_payload, slice_len_ok_app_l, Hl.
  - apply IH; [eapply slice_len_ok_app_r, Hl | exact Hin].
Qed.

Lemma Histories_Unmarshal_histories (hs : list (ptr VersionHistory)) :
  Forall History_wf hs ->
  forall m,
    slice_len_ok (flat_map (fun e => delimited_field 18 (wire_history e)) hs) ->
    Histories_Unmarshal m (flat_map (fun e => delimited_field 18 (wire_history e)) hs)
    = (mkHistories (CurrentVersionHistoryIndex m)
                   (extend (Histories m) (map History_decoded hs)), Nil).
Proof.
  induction 1 as [|e hs He Hall IH]; intros m Hl.
  - destruct m. reflexivity.
  - cbn [flat_map map] in *. destruct e as [h|]; [|contradiction].
    assert (Hp : slice_len_ok (wire_history (Some h)))
      by (eapply slice_len_ok_payload, slice_len_ok_app_l, Hl).
    apply Histories_Unmarshal_app
      with (m1 := mkHistories (CurrentVersionHistoryIndex m)
                              (append (Histories m) (History_decoded (Some h)))).
    + exact Hl.
    + rewrite Histories_Unmarshal_history by (eapply slice_len_ok_app_l; exact Hl).
      unfold History_decoded.
      rewrite (History_Unmarshal_wire History_zero h He Hp). reflexivity.
    + rewrite IH by (eapply slice_len_ok_app_r; exact Hl). reflexivity.
Qed.

Lemma Histories_Unmarshal_wire (m v : VersionHistories) :
  Histories_wf v ->
  slice_len_ok (wire_histories (Some v)) ->
  Histories_Unmarshal m (wire_histories (Some v))
  = (mkHistories (if CurrentVersionHistoryIndex v =? 0 then CurrentVersionHistoryIndex m
                  else CurrentVersionHistoryIndex v)
                 (extend (Histories m) (map History_decoded (elems (Histories v)))), Nil).
Proof.
  intros [Hi Hw] Hl. cbn [wire_histories] in *.
  apply Histories_Unmarshal_app
    with (m1 := mkHistories (if CurrentVersionHistoryIndex v =? 0
                             then CurrentVersionHistoryIndex m
                             else CurrentVersionHistoryIndex v) (Histories m)).
  - exact Hl.
  - apply Histories_Unmarshal_index, Hi.
  - rewrite Histories_Unmarshal_histories; [reflexivity | exact Hw |].
    eapply slice_len_ok_app_r; exact Hl.
Qed.

(** *** [Equal] on the decoded value *)

Lemma list_eqb_refl {A} (eqb : A -> A -> bool) (l : list A) :
  (forall x, eqb x x = true) -> list_eqb eqb l l = true.
Proof.
  intros H. induction l as [|x l IH]; [reflexivity|].
  cbn [list_eqb]. rewrite H, IH. reflexivity.
Qed.

Lemma list_eqb_Forall2 {A} (eqb : A -> A -> bool) (a b : list A) :
  Forall2 (fun x y => eqb x y = true) a b -> list_eqb eqb a b = true.
Proof.
  induction 1 as [|x y a b Hxy Hab IH]; [reflexivity|].
  cbn [list_eqb]. rewrite Hxy, IH. reflexivity.
Qed.

Lemma Item_Equal_refl (m : ptr VersionHistoryItem) : Item_Equal m m = true.
Proof. destruct m as [m|]; [|reflexivity]. cbn. rewrite !Z.eqb_refl. reflexivity. Qed.

Lemma byte_eqb_refl (b : byte) : byte_eqb b b = true.
Proof. apply Byte.byte_dec_lb. reflexivity. Qed.

(** Two branches with the same token bytes and the same items are
    [Equal], whether their slices are nil or empty. *)
Lemma History_Equal_elems (a b : VersionHistory) :
  elems (BranchToken a) = elems (BranchToken b) ->
  elems (Items a) = elems (Items b) ->
  History_Equal (Some a) (Some b) = true.
Proof.
  intros Ht Hi. unfold History_Equal, bytes_Equal, len. rewrite Ht, Hi.
  rewrite (list_eqb_refl byte_eqb) by apply byte_eqb_refl.
  rewrite Z.eqb_refl. cbn [negb].
  apply list_eqb_refl, Item_Equal_refl.
Qed.

Lemma len_positive_elems (s : slice byte) :
  elems (if 0 <? len s then Some (elems s) else None) = elems s.
Proof.
  unfold len. destruct (Z.ltb_spec 0 (Z.of_nat (length (elems s)))); [reflexivity|].
  destruct (elems s); [reflexivity | cbn [length] in *; lia].
Qed.

Lemma History_decoded_Equal (p : ptr VersionHistory) :
  History_wf p -> slice_len_ok (wire_history p) ->
  History_Equal (History_decoded p) p = true /\ History_Equal p (History_decoded p) = true.
Proof.
  intros Hw Hl. destruct p as [h|]; [|contradiction].
  unfold History_decoded. rewrite (History_Unmarshal_wire History_zero h Hw Hl).
  cbn [fst History_zero BranchToken Items].
  split; apply History_Equal_elems; cbn [BranchToken Items];
    rewrite ?len_positive_elems, ?elems_extend; reflexivity.
Qed.

Lemma Histories_Equal_decoded (v : VersionHistories) (s : slice (ptr VersionHistory)) :
  Forall History_wf (elems (Histories v)) ->
  slice_len_ok (flat_map (fun e => delimited_field 18 (wire_history e)) (elems (Histories v))) ->
  elems s = map History_decoded (elems (Histories v)) ->
  let v' := mkHistories (CurrentVersionHistoryIndex v) s in
  Histories_Equal (Some v') (Some v) = true /\ Histories_Equal (Some v) (Some v') = true.
Proof.
  intros Hw Hl Hs v'. unfold Histories_Equal, len. cbn [v' CurrentVersionHistoryIndex Histories].
  rewrite Hs, length_map, !Z.eqb_refl. cbn [negb].
  assert (Hall : forall h, In h (elems (Histories v)) ->
                   History_Equal (History_decoded h) h = true
                   /\ History_Equal h (History_decoded h) = true).
  { intros h Hin. apply History_decoded_Equal.
    - rewrite Forall_forall in Hw. apply Hw, Hin.
    - eapply wire_history_ok_in; [exact Hl | exact Hin]. }
  clear Hw Hl Hs. induction (elems (Histories v)) as [|h hs IH]; [split; reflexivity|].
  cbn [map list_eqb].
  destruct (Hall h (or_introl eq_refl)) as [-> ->].
  destruct IH as [-> ->]; [|split; reflexivity].
  intros x Hx. apply Hall. right. exact Hx.
Qed.

(** ** Fields that the message does not declare *)

Lemma fixed_bytes_length (n : nat) (v : Z) : llen (fixed_bytes n v) = Z.of_nat n.
Proof. unfold fixed_bytes, llen. rewrite length_map, length_seq. reflexivity. Qed.

Lemma tag_read (n wt : Z) (rest : list byte) :
  0 <= n < 2 ^ 60 -> 0 <= wt < 8 ->
  read_varint uint64 (varint (key n wt) ++ rest) 0
  = (key n wt, llen (varint (key n wt)), None).
Proof.
  intros Hn Hwt.
  assert (Hk : is_uint64 (key n wt)) by (unfold is_uint64, key; lia).
  pose proof (read_varint_at uint64 (key n wt) [] rest uint64_lor Hk) as Hr.
  cbn [app] in Hr. change (llen (@nil byte)) with 0 in Hr.
  rewrite Hr, uint64_small by exact Hk. reflexivity.
Qed.

(** The key of a field anywhere in a buffer. *)
Lemma key_read_at (n wt : Z) (pre rest : list byte) :
  0 <= n < 2 ^ 60 -> 0 <= wt < 8 ->
  read_varint uint64 (pre ++ varint (key n wt) ++ rest) (llen pre)
  = (key n wt, llen pre + llen (varint (key n wt)), None).
Proof.
  intros Hn Hwt.
  assert (Hk : is_uint64 (key n wt)) by (unfold is_uint64, key; lia).
  rewrite (read_varint_at uint64 (key n wt) pre rest uint64_lor Hk).
  rewrite uint64_small by exact Hk. reflexivity.
Qed.

Lemma llen_varint_pos (v : Z) : 0 < llen (varint v).
Proof.
  destruct (varint v) eqn:E; [exact (False_ind _ (varint_nonempty _ E))|].
  rewrite llen_cons. pose proof (llen_nonneg l). lia.
Qed.

(** [skip_field] on the value of an unknown field that is not a group,
    behind its key. *)
Lemma skip_field_unknown (u : unknown_field) (wt : Z) (keyb value rest : list byte) (depth : Z) :
  slice_len_ok (keyb ++ value ++ rest) ->
  match u with
  | UVarint _ v => wt = 0 /\ value = varint (uint64 v)
  | UFixed64 _ v => wt = 1 /\ value = fixed_bytes 8 v
  | UBytes _ payload => wt = 2 /\ value = varint (uint64 (llen payload)) ++ payload
  | UGroup _ _ => False
  | UFixed32 _ v => wt = 5 /\ value = fixed_bytes 4 v
  end ->
  skip_field (keyb ++ value ++ rest) wt (llen keyb) depth
  = (llen keyb + llen value, depth, None).
Proof.
  unfold slice_len_ok. intros Hl Hu. unfold skip_field.
  destruct u as [n v|n v|n payload|n fields|n v]; [| | |contradiction|];
    destruct Hu as [-> ->]; cbn [Z.eqb Pos.eqb].
  - rewrite (read_varint_at (fun _ => 0) _ keyb rest const0_lor (uint64_range v)).
    reflexivity.
  - rewrite fixed_bytes_length. reflexivity.
  - rewrite <- app_assoc.
    rewrite (read_varint_at int _ keyb (payload ++ rest) int64_lor (uint64_range _)).
    rewrite !llen_app in *.
    pose proof (llen_nonneg keyb). pose proof (llen_nonneg payload).
    pose proof (llen_nonneg rest).
    pose proof (llen_nonneg (varint (uint64 (llen payload)))).
    unfold int. rewrite int64_uint64.
    rewrite (int64_small (llen payload)) by (unfold is_int64; lia).
    destruct (Z.ltb_spec (llen payload) 0); [lia|].
    rewrite int64_small by (unfold is_int64; lia).
    f_equal. f_equal. lia.
  - rewrite fixed_bytes_length. reflexivity.
Qed.

Lemma wire_unknown_split (u : unknown_field) :
  wire_unknown u
  = varint (key (unknown_fieldNum u) (unknown_wire_type u)) ++ unknown_value u.
Proof. destruct u; reflexivity. Qed.

Lemma unknown_wire_type_range (u : unknown_field) :
  0 <= unknown_wire_type u < 8 /\ unknown_wire_type u <> 4.
Proof. destruct u; cbn; lia. Qed.

Lemma wire_unknown_nonempty (u : unknown_field) : wire_unknown u <> [].
Proof.
  rewrite wire_unknown_split. intros E. apply app_eq_nil in E. destruct E as [E _].
  exact (varint_nonempty _ E).
Qed.

(** The bound of [skip_loop] does not matter once it is the number of
    bytes that are left. *)
Lemma skip_loop_fuel (x : list byte) :
  slice_len_ok x ->
  forall f1 f2 i depth,
    0 <= i -> 0 <= depth ->
    llen x - i <= Z.of_nat f1 -> llen x - i <= Z.of_nat f2 ->
    skip_loop f1 x i depth = skip_loop f2 x i depth.
Proof.
  intros Hl f1. induction f1 as [|f1 IH]; intros f2 i depth Hi Hd H1 H2;
    destruct f2 as [|f2]; cbn [skip_loop];
    destruct (Z.ltb_spec i (llen x)); try reflexivity; try lia.
  destruct (read_varint uint64 x i) as [[wire i1] err] eqn:Hr.
  destruct err as [e|]; [reflexivity|].
  destruct (read_varint_frame uint64 [] x [] i wire i1 ltac:(lia) Hr) as [Hb _].
  destruct (skip_field x (int (Z.land wire 7)) i1 depth) as [[i2 depth'] err] eqn:Hs.
  destruct err as [e|]; [reflexivity|].
  destruct (Z.ltb_spec i2 0); [reflexivity|].
  destruct (skip_field_bound x _ i1 depth i2 depth' Hl ltac:(lia) Hd Hs ltac:(lia))
    as [Hb2 Hd'].
  destruct (depth' =? 0); [reflexivity|].
  apply IH; lia.
Qed.

(** One turn of [skip_loop] at a key. *)
Lemma skip_loop_iter (x pre rest : list byte) (n wt : Z) (f : nat) (i depth : Z) :
  x = pre ++ varint (key n wt) ++ rest -> i = llen pre ->
  0 <= n < 2 ^ 60 -> 0 <= wt < 8 ->
  skip_loop (S f) x i depth
  = (let '(iNdEx, depth', err) := skip_field x wt (i + llen (varint (key n wt))) depth in
     match err with
     | Some e => (0, Err e)
     | None =>
         if iNdEx <? 0 then (0, Err ErrInvalidLengthMessage)
         else if depth' =? 0 then (iNdEx, Nil)
         else skip_loop f x iNdEx depth'
     end).
Proof.
  intros -> -> Hn Hwt. cbn [skip_loop].
  pose proof (llen_varint_pos (key n wt)). pose proof (llen_nonneg rest).
  destruct (Z.ltb_spec (llen pre) (llen (pre ++ varint (key n wt) ++ rest)));
    [|list_len; lia].
  rewrite key_read_at by lia. rewrite key_land by lia. rewrite int_small by lia.
  reflexivity.
Qed.

Lemma skip_loop_leaf (u : unknown_field) (n wt : Z) (value : list byte) :
  match u with
  | UVarint _ v => wt = 0 /\ value = varint (uint64 v)
  | UFixed64 _ v => wt = 1 /\ value = fixed_bytes 8 v
  | UBytes _ payload => wt = 2 /\ value = varint (uint64 (llen payload)) ++ payload
  | UGroup _ _ => False
  | UFixed32 _ v => wt = 5 /\ value = fixed_bytes 4 v
  end ->
  0 <= n < 2 ^ 60 ->
  forall pre rest f depth,
    slice_len_ok (pre ++ varint (key n wt) ++ value ++ rest) ->
    0 <= depth ->
    llen (pre ++ varint (key n wt) ++ value ++ rest) - llen pre <= Z.of_nat f ->
    skip_loop f (pre ++ varint (key n wt) ++ value ++ rest) (llen pre) depth
    = if depth =? 0 then (llen pre + llen (varint (key n wt) ++ value), Nil)
      else skip_loop f (pre ++ varint (key n wt) ++ value ++ rest)
                     (llen pre + llen (varint (key n wt) ++ value)) depth.
Proof.
  intros Hu Hn pre rest f depth Hl Hd Hf.
  assert (Hwt : 0 <= wt < 8) by (destruct u; try contradiction; destruct Hu; lia).
  set (kb := varint (key n wt)) in *. set (x := pre ++ kb ++ value ++ rest) in *.
  pose proof (llen_varint_pos (key n wt)) as Hk. fold kb in Hk.
  pose proof (llen_nonneg pre). pose proof (llen_nonneg value). pose proof (llen_nonneg rest).
  assert (Hx : llen x = llen pre + llen kb + llen value + llen rest)
    by (unfold x; list_len; lia).
  destruct f as [|f]; [lia|].
  rewrite (skip_loop_iter x pre (value ++ rest) n wt f (llen pre) depth eq_refl eq_refl Hn Hwt).
  fold kb.
  pose proof (skip_field_unknown u wt (pre ++ kb) value rest depth) as Hs.
  rewrite <- app_assoc, llen_app in Hs. fold x in Hs. rewrite Hs by assumption.
  destruct (Z.ltb_spec (llen pre + llen kb + llen value) 0); [lia|].
  replace (llen pre + llen (kb ++ value)) with (llen pre + llen kb + llen value)
    by (list_len; lia).
  destruct (depth =? 0); [reflexivity|].
  apply skip_loop_fuel; try assumption; lia.
Qed.

Lemma unknown_field_nested_ind (P : unknown_field -> Prop) :
  (forall n v, P (UVarint n v)) ->
  (forall n v, P (UFixed64 n v)) ->
  (forall n payload, P (UBytes n payload)) ->
  (forall n fields, Forall P fields -> P (UGroup n fields)) ->
  (forall n v, P (UFixed32 n v)) ->
  forall u, P u.
Proof.
  intros H1 H2 H3 H4 H5. fix IH 1. intros [n v|n v|n payload|n fields|n v].
  - apply H1.
  - apply H2.
  - apply H3.
  - apply H4. induction fields as [|a l IHl]; constructor; [apply IH | exact IHl].
  - apply H5.
Qed.

(** [skip_loop] passes over one unknown field; inside a group it goes
    on with the next field. *)
Lemma skip_loop_unknown (u : unknown_field) :
  0 <= unknown_fieldNum u < 2 ^ 60 -> nested_ok u ->
  forall x pre rest f depth,
    x = pre ++ wire_unknown u ++ rest ->
    slice_len_ok x -> 0 <= depth ->
    llen x - llen pre <= Z.of_nat f ->
    skip_loop f x (llen pre) depth
    = if depth =? 0 then (llen pre + llen (wire_unknown u), Nil)
      else skip_loop f x (llen pre + llen (wire_unknown u)) depth.
Proof.
  induction u as [n v|n v|n payload|n fields IH|n v] using unknown_field_nested_ind;
    cbn [unknown_fieldNum]; intros Hn Hok x pre rest f depth Ex Hl Hd Hf.
  - subst x. cbn [wire_unknown] in *. rewrite <- !app_assoc in *.
    apply (skip_loop_leaf (UVarint n v)); try assumption. split; reflexivity.
  - subst x. cbn [wire_unknown] in *. rewrite <- !app_assoc in *.
    apply (skip_loop_leaf (UFixed64 n v)); try assumption. split; reflexivity.
  - subst x. cbn [wire_unknown] in *. rewrite <- !app_assoc in *.
    pose proof (skip_loop_leaf (UBytes n payload) n 2
                  (varint (uint64 (llen payload)) ++ payload) (conj eq_refl eq_refl) Hn
                  pre rest f depth) as H.
    rewrite <- !app_assoc in H. apply H; assumption.
  - cbn [wire_unknown nested_ok] in *.
    set (fl := flat_map wire_unknown fields) in *.
    (* the fields of the group, at a depth that is not 0 *)
    assert (Hlist : forall pre' rest' f' depth',
               x = pre' ++ flat_map wire_unknown fields ++ rest' ->
               0 < depth' -> llen x - llen pre' <= Z.of_nat f' ->
               skip_loop f' x (llen pre') depth'
               = skip_loop f' x (llen pre' + llen (flat_map wire_unknown fields)) depth').
    { clear Ex Hf. clearbody fl. clear fl.
      induction fields as [|a l IHl]; intros pre' rest' f' depth' Ex' Hd' Hf'.
      - cbn [flat_map]. rewrite llen_nil, Z.add_0_r. reflexivity.
      - cbn [flat_map fold_right] in *. destruct Hok as (Ha & Hoka & Hokl).
        apply Forall_cons_iff in IH. destruct IH as [IHa IHl'].
        unfold field_number in Ha.
        rewrite (IHa ltac:(lia) Hoka _ pre' (flat_map wire_unknown l ++ rest') f' depth')
          by first [assumption | lia | (rewrite Ex', <- !app_assoc; reflexivity)].
        destruct (Z.eqb_spec depth' 0); [lia|].
        pose proof (llen_nonneg (wire_unknown a)).
        pose proof (IHl IHl' Hokl (pre' ++ wire_unknown a) rest' f' depth') as Hn'.
        rewrite llen_app in Hn'. rewrite Hn'.
        + f_equal. list_len. lia.
        + rewrite Ex', <- !app_assoc. reflexivity.
        + exact Hd'.
        + lia. }
    fold fl in Hlist.
    set (k3 := varint (key n 3)) in *. set (k4 := varint (key n 4)) in *.
    pose proof (llen_varint_pos (key n 3)) as Hk3. fold k3 in Hk3.
    pose proof (llen_varint_pos (key n 4)) as Hk4. fold k4 in Hk4.
    pose proof (llen_nonneg pre). pose proof (llen_nonneg fl). pose proof (llen_nonneg rest).
    assert (Hx : llen x = llen pre + llen k3 + llen fl + llen k4 + llen rest)
      by (subst x; list_len; lia).
    destruct f as [|f]; [lia|].
    rewrite (skip_loop_iter x pre (fl ++ k4 ++ rest) n 3 f (llen pre) depth)
      by (try lia; try reflexivity; subst x; rewrite <- !app_assoc; reflexivity).
    fold k3. change (skip_field x 3 (llen pre + llen k3) depth)
      with (llen pre + llen k3, depth + 1, @None error).
    cbv iota beta.
    destruct (Z.ltb_spec (llen pre + llen k3) 0); [lia|].
    destruct (Z.eqb_spec (depth + 1) 0); [lia|].
    pose proof (Hlist (pre ++ k3) (k4 ++ rest) f (depth + 1)) as Hb.
    rewrite llen_app in Hb. rewrite Hb
      by (try lia; subst x; rewrite <- !app_assoc; reflexivity).
    rewrite (skip_loop_fuel x Hl f (S f)) by lia.
    rewrite (skip_loop_iter x (pre ++ k3 ++ fl) rest n 4 f
               (llen pre + llen k3 + llen fl) (depth + 1))
      by first [lia | (list_len; lia) | (subst x; rewrite <- !app_assoc; reflexivity)].
    fold k4. unfold skip_field. cbn [Z.eqb Pos.eqb].
    destruct (Z.eqb_spec (depth + 1) 0); [lia|].
    destruct (Z.ltb_spec (llen pre + llen k3 + llen fl + llen k4) 0); [lia|].
    replace (depth + 1 - 1) with depth by lia.
    replace (llen pre + llen (k3 ++ fl ++ k4))
      with (llen pre + llen k3 + llen fl + llen k4) by (list_len; lia).
    destruct (depth =? 0); [reflexivity|].
    apply skip_loop_fuel; try assumption; lia.
  - subst x. cbn [wire_unknown] in *. rewrite <- !app_assoc in *.
    apply (skip_loop_leaf (UFixed32 n v)); try assumption. split; reflexivity.
Qed.

(** [skipMessage] passes over one unknown field. *)
Lemma skipMessage_unknown (u : unknown_field) (rest : list byte) :
  0 <= unknown_fieldNum u < 2 ^ 60 -> nested_ok u ->
  slice_len_ok (wire_unknown u ++ rest) ->
  skipMessage (wire_unknown u ++ rest) = (llen (wire_unknown u), Nil).
Proof.
  intros Hn Hok Hl. unfold skipMessage.
  pose proof (skip_loop_unknown u Hn Hok (wire_unknown u ++ rest) [] rest
                (length (wire_unknown u ++ rest)) 0 eq_refl Hl ltac:(lia)) as H.
  change (llen (@nil byte)) with 0 in H. cbn [Z.eqb Z.add] in H.
  apply H. unfold llen. lia.
Qed.

Lemma skip_unknown_at_0 (u : unknown_field) :
  0 <= unknown_fieldNum u < 2 ^ 60 -> nested_ok u ->
  slice_len_ok (wire_unknown u) ->
  skip_unknown (wire_unknown u) 0 = (llen (wire_unknown u), Nil).
Proof.
  unfold slice_len_ok. intros Hn Hok Hl. unfold skip_unknown. rewrite from_0.
  pose proof (skipMessage_unknown u [] Hn Hok) as Hs. rewrite app_nil_r in Hs.
  rewrite Hs by exact Hl.
  pose proof (llen_nonneg (wire_unknown u)).
  cbn [Z.add]. rewrite int_small by lia.
  destruct (Z.ltb_spec (llen (wire_unknown u)) 0); [lia|].
  destruct (Z.gtb_spec (llen (wire_unknown u)) (llen (wire_unknown u))); [lia|].
  reflexivity.
Qed.

(** The three decoders leave the receiver as it is on an unknown field. *)
Lemma unknown_step {M} (step : list byte -> M -> Z -> M * Z * status)
    (handlers : list byte -> M -> Z -> Z -> Z -> Z -> M * Z * status)
    (u : unknown_field) (m : M) :
  (forall d m i, step d m i = with_tag d m i (handlers d m i)) ->
  (forall d m i n wt i1, 2 < n ->
      handlers d m i n wt i1 = (let '(iNdEx, st) := skip_unknown d i in (m, iNdEx, st))) ->
  unknown_ok u ->
  slice_len_ok (wire_unknown u) ->
  decode_loop step (length (wire_unknown u)) (wire_unknown u) m 0 = (m, Nil).
Proof.
  unfold unknown_ok, unknown_number. intros Hstep Hh [Hn Hok] Hl.
  apply decode_loop_one; [apply wire_unknown_nonempty|].
  rewrite Hstep.
  destruct (unknown_wire_type_range u) as [Hwt H4].
  pose proof (wire_unknown_split u) as E. rewrite E.
  rewrite with_tag_key by lia.
  rewrite Hh by lia.
  rewrite <- E.
  rewrite skip_unknown_at_0; [reflexivity | lia | exact Hok | exact Hl].
Qed.

Lemma Item_Unmarshal_unknown (u : unknown_field) (m : VersionHistoryItem) :
  unknown_ok u -> slice_len_ok (wire_unknown u) ->
  Item_Unmarshal m (wire_unknown u) = (m, Nil).
Proof.
  intros Hn Hl. unfold Item_Unmarshal.
  eapply unknown_step; try eassumption.
  - intros d m0 i. unfold Item_step. cbv zeta. reflexivity.
  - intros d m0 i n wt i1 H. cbv beta.
    destruct (Z.eqb_spec n 1); [lia|]. destruct (Z.eqb_spec n 2); [lia|]. reflexivity.
Qed.

Lemma History_Unmarshal_unknown (u : unknown_field) (m : VersionHistory) :
  unknown_ok u -> slice_len_ok (wire_unknown u) ->
  History_Unmarshal m (wire_unknown u) = (m, Nil).
Proof.
  intros Hn Hl. unfold History_Unmarshal.
  eapply unknown_step; try eassumption.
  - intros d m0 i. unfold History_step. cbv zeta. reflexivity.
  - intros d m0 i n wt i1 H. cbv beta.
    destruct (Z.eqb_spec n 1); [lia|]. destruct (Z.eqb_spec n 2); [lia|]. reflexivity.
Qed.

Lemma Histories_Unmarshal_unknown (u : unknown_field) (m : VersionHistories) :
  unknown_ok u -> slice_len_ok (wire_unknown u) ->
  Histories_Unmarshal m (wire_unknown u) = (m, Nil).
Proof.
  intros Hn Hl. unfold Histories_Unmarshal.
  eapply unknown_step; try eassumption.
  - intros d m0 i. unfold Histories_step. cbv zeta. reflexivity.
  - intros d m0 i n wt i1 H. cbv beta.
    destruct (Z.eqb_spec n 1); [lia|]. destruct (Z.eqb_spec n 2); [lia|]. reflexivity.
Qed.

(** ** Decoding a buffer entry by entry *)

Lemma scalar_entry_step {M} (conv : Z -> Z) (set : Z -> M) (n v : Z) (m : M)
    (step : list byte -> M -> Z -> M * Z * status) :
  lor_morphism conv ->
  0 < n < 16 ->
  (forall rest, step (uint8 (key n 0) :: rest) m 0
                = let '(x, iNdEx, err) := read_varint conv (uint8 (key n 0) :: rest) 1 in
                  (set x, iNdEx, of_err err)) ->
  decode_loop step (length (scalar_entry (key n 0) v)) (scalar_entry (key n 0) v) m 0
  = (set (conv (uint64 v)), Nil).
Proof.
  intros Hc Hn Hstep. apply decode_loop_one; [discriminate|].
  unfold scalar_entry. rewrite Hstep.
  rewrite <- (app_nil_r (varint (uint64 v))).
  rewrite (scalar_field_step conv set (key n 0) v [] Hc). rewrite app_nil_r. reflexivity.
Qed.

Lemma Item_Unmarshal_entry (m : VersionHistoryItem) (e : Item_entry) :
  Item_entry_ok e -> slice_len_ok (wire_Item_entry e) ->
  Item_Unmarshal m (wire_Item_entry e) = (Item_apply m e, Nil).
Proof.
  intros He Hl. destruct e as [v|v|u]; cbn [wire_Item_entry Item_apply Item_entry_ok] in *.
  - unfold Item_Unmarshal.
    rewrite (scalar_entry_step int64 (fun x => mkItem x (Version m)) 1 v m Item_step int64_lor)
      by (try lia; intros rest; unfold Item_step; cbv zeta;
          rewrite with_tag_byte by lia; reflexivity).
    rewrite int64_uint64, int64_small by exact He. reflexivity.
  - unfold Item_Unmarshal.
    rewrite (scalar_entry_step int64 (fun x => mkItem (EventId m) x) 2 v m Item_step int64_lor)
      by (try lia; intros rest; unfold Item_step; cbv zeta;
          rewrite with_tag_byte by lia; reflexivity).
    rewrite int64_uint64, int64_small by exact He. reflexivity.
  - apply Item_Unmarshal_unknown; assumption.
Qed.

Lemma History_Unmarshal_entry (m : VersionHistory) (e : History_entry) :
  History_entry_ok e -> slice_len_ok (wire_History_entry e) ->
  History_Unmarshal m (wire_History_entry e) = (History_apply m e, Nil).
Proof.
  intros He Hl. destruct e as [tok|p|u];
    cbn [wire_History_entry History_apply History_entry_ok] in *.
  - apply History_Unmarshal_token. exact Hl.
  - change (key 2 2) with 18 in *. rewrite History_Unmarshal_item by exact Hl.
    destruct (Item_Unmarshal Item_zero p) as [x st]. cbn [snd fst] in *. subst st. reflexivity.
  - apply History_Unmarshal_unknown; assumption.
Qed.

Lemma Histories_Unmarshal_entry (m : VersionHistories) (e : Histories_entry) :
  Histories_entry_ok e -> slice_len_ok (wire_Histories_entry e) ->
  Histories_Unmarshal m (wire_Histories_entry e) = (Histories_apply m e, Nil).
Proof.
  intros He Hl. destruct e as [v|p|u];
    cbn [wire_Histories_entry Histories_apply Histories_entry_ok] in *.
  - unfold Histories_Unmarshal.
    rewrite (scalar_entry_step int32 (fun x => mkHistories x (Histories m)) 1 v m
               Histories_step int32_lor)
      by (try lia; intros rest; unfold Histories_step; cbv zeta;
          rewrite with_tag_byte by lia; reflexivity).
    rewrite int32_uint64, int32_small by exact He. reflexivity.
  - change (key 2 2) with 18 in *. rewrite Histories_Unmarshal_history by exact Hl.
    destruct (History_Unmarshal History_zero p) as [x st]. cbn [snd fst] in *. subst st.
    reflexivity.
  - apply Histories_Unmarshal_unknown; assumption.
Qed.

(** A decoder that handles every entry handles their sequence. *)
Lemma decode_entries {M E} (Unmarshal : M -> list byte -> M * status)
    (wire : E -> list byte) (ok : E -> Prop) (apply : M -> E -> M) :
  (forall a b m m1 m2, slice_len_ok (a ++ b) ->
      Unmarshal m a = (m1, Nil) -> Unmarshal m1 b = (m2, Nil) ->
      Unmarshal m (a ++ b) = (m2, Nil)) ->
  (forall m, Unmarshal m [] = (m, Nil)) ->
  (forall m e, ok e -> slice_len_ok (wire e) -> Unmarshal m (wire e) = (apply m e, Nil)) ->
  forall es m,
    Forall ok es -> slice_len_ok (flat_map wire es) ->
    Unmarshal m (flat_map wire es) = (fold_left apply es m, Nil).
Proof.
  intros Happ Hnil Hone. induction es as [|e es IH]; intros m Hok Hl.
  - apply Hnil.
  - inversion Hok; subst. cbn [flat_map fold_left] in *.
    apply Happ with (m1 := apply m e).
    + exact Hl.
    + apply Hone; [assumption | eapply slice_len_ok_app_l; exact Hl].
    + apply IH; [assumption | eapply slice_len_ok_app_r; exact Hl].
Qed.

Lemma Item_Unmarshal_entries (es : list Item_entry) (m : VersionHistoryItem) :
  Forall Item_entry_ok es -> slice_len_ok (flat_map wire_Item_entry es) ->
  Item_Unmarshal m (flat_map wire_Item_entry es) = (fold_left Item_apply es m, Nil).
Proof.
  apply (decode_entries Item_Unmarshal wire_Item_entry Item_entry_ok Item_apply).
  - intros. eapply Item_Unmarshal_app; eassumption.
  - reflexivity.
  - apply Item_Unmarshal_entry.
Qed.

Lemma History_Unmarshal_entries (es : list History_entry) (m : VersionHistory) :
  Forall History_entry_ok es -> slice_len_ok (flat_map wire_History_entry es) ->
  History_Unmarshal m (flat_map wire_History_entry es) = (fold_left History_apply es m, Nil).
Proof.
  apply (decode_entries History_Unmarshal wire_History_entry History_entry_ok History_apply).
  - intros. eapply History_Unmarshal_app; eassumption.
  - reflexivity.
  - apply History_Unmarshal_entry.
Qed.

Lemma Histories_Unmarshal_entries (es : list Histories_entry) (m : VersionHistories) :
  Forall Histories_entry_ok es -> slice_len_ok (flat_map wire_Histories_entry es) ->
  Histories_Unmarshal m (flat_map wire_Histories_entry es)
  = (fold_left Histories_apply es m, Nil).
Proof.
  apply (decode_entries Histories_Unmarshal wire_Histories_entry Histories_entry_ok
           Histories_apply).
  - intros. eapply Histories_Unmarshal_app; eassumption.
  - reflexivity.
  - apply Histories_Unmarshal_entry.
Qed.

(** The repeated field after a sequence of entries. *)
Lemma History_apply_items (es : list History_entry) :
  forall m,
    elems (Items (fold_left History_apply es m))
    = elems (Items m) ++ flat_map History_entry_items es.
Proof.
  induction es as [|e es IH]; intros m; cbn [fold_left flat_map].
  - symmetry. apply app_nil_r.
  - rewrite IH. destruct e; cbn [History_apply History_entry_items Items append elems app];
      rewrite <- ?app_assoc; reflexivity.
Qed.

Lemma Histories_apply_histories (es : list Histories_entry) :
  forall m,
    elems (Histories (fold_left Histories_apply es m))
    = elems (Histories m) ++ flat_map Histories_entry_histories es.
Proof.
  induction es as [|e es IH]; intros m; cbn [fold_left flat_map].
  - symmetry. apply app_nil_r.
  - rewrite IH. destruct e;
      cbn [Histories_apply Histories_entry_histories Histories append elems app];
      rewrite <- ?app_assoc; reflexivity.
Qed.

(** ** What a failed call leaves in the receiver *)

Lemma with_tag_inv {M} (P : M -> Prop) (d : list byte) (m : M) (i : Z)
    (k : Z -> Z -> Z -> M * Z * status) :
  P m -> (forall fieldNum wireType i1, P (fst (fst (k fieldNum wireType i1)))) ->
  P (fst (fst (with_tag d m i k))).
Proof.
  intros Hm Hk. unfold with_tag.
  destruct (read_varint uint64 d i) as [[wire i1] [e|]]; [exact Hm|].
  cbv zeta. destruct (_ =? 4); [exact Hm|]. destruct (_ <=? 0); [exact Hm|]. apply Hk.
Qed.

Lemma decode_loop_inv {M} (R : M -> M -> Prop) (step : list byte -> M -> Z -> M * Z * status) :
  (forall m, R m m) ->
  (forall a b c, R a b -> R b c -> R a c) ->
  (forall d m i, R m (fst (fst (step d m i)))) ->
  forall f d m i, R m (fst (decode_loop step f d m i)).
Proof.
  intros Hrefl Htrans Hstep. induction f as [|f IH]; intros d m i; cbn [decode_loop].
  - destruct (i <? llen d); [apply Hrefl|]. destruct (i >? llen d); apply Hrefl.
  - destruct (i <? llen d); [|destruct (i >? llen d); apply Hrefl].
    pose proof (Hstep d m i) as H1.
    destruct (step d m i) as [[m' i'] st]. cbn [fst] in H1.
    destruct st; cbn [fst]; try exact H1.
    eapply Htrans; [exact H1 | apply IH].
Qed.

Lemma Items_extended_refl (m : VersionHistory) : Items_extended m m.
Proof. exists []. symmetry. apply app_nil_r. Qed.

Lemma Items_extended_trans (a b c : VersionHistory) :
  Items_extended a b -> Items_extended b c -> Items_extended a c.
Proof.
  intros [x Hx] [y Hy]. exists (x ++ y). rewrite Hy, Hx. symmetry. apply app_assoc.
Qed.

Lemma Histories_extended_refl (m : VersionHistories) : Histories_extended m m.
Proof. exists []. symmetry. apply app_nil_r. Qed.

Lemma Histories_extended_trans (a b c : VersionHistories) :
  Histories_extended a b -> Histories_extended b c -> Histories_extended a c.
Proof.
  intros [x Hx] [y Hy]. exists (x ++ y). rewrite Hy, Hx. symmetry. apply app_assoc.
Qed.

Lemma History_step_extends (d : list byte) (m : VersionHistory) (i : Z) :
  Items_extended m (fst (fst (History_step d m i))).
Proof.
  unfold History_step. cbv zeta. apply with_tag_inv; [apply Items_extended_refl|].
  intros fieldNum wireType i1.
  destruct (fieldNum =? 1).
  { destruct (negb (wireType =? 2)); [apply Items_extended_refl|].
    destruct (read_length d i1) as [[i2 p] [e|]]; [apply Items_extended_refl|].
    exists []. cbn. symmetry. apply app_nil_r. }
  destruct (fieldNum =? 2).
  { destruct (negb (wireType =? 2)); [apply Items_extended_refl|].
    destruct (read_length d i1) as [[i2 p] [e|]]; [apply Items_extended_refl|].
    destruct (Item_Unmarshal Item_zero (sub d i2 p)) as [x st].
    eexists. reflexivity. }
  destruct (skip_unknown d i). apply Items_extended_refl.
Qed.

Lemma Histories_step_extends (d : list byte) (m : VersionHistories) (i : Z) :
  Histories_extended m (fst (fst (Histories_step d m i))).
Proof.
  unfold Histories_step. cbv zeta. apply with_tag_inv; [apply Histories_extended_refl|].
  intros fieldNum wireType i1.
  destruct (fieldNum =? 1).
  { destruct (negb (wireType =? 0)); [apply Histories_extended_refl|].
    destruct (read_varint int32 d i1) as [[v i2] e].
    exists []. cbn. symmetry. apply app_nil_r. }
  destruct (fieldNum =? 2).
  { destruct (negb (wireType =? 2)); [apply Histories_extended_refl|].
    destruct (read_length d i1) as [[i2 p] [e|]]; [apply Histories_extended_refl|].
    destruct (History_Unmarshal History_zero (sub d i2 p)) as [x st].
    eexists. reflexivity. }
  destruct (skip_unknown d i). apply Histories_extended_refl.
Qed.


(** ** The decoders as instances of the template *)

Lemma with_tag_ext {M} (d : list byte) (m : M) (i : Z) (k k' : Z -> Z -> Z -> M * Z * status) :
  (forall a b c, k a b c = k' a b c) -> with_tag d m i k = with_tag d m i k'.
Proof.
  intros H. unfold with_tag. destruct (read_varint uint64 d i) as [[wire i1] [e|]];
    [reflexivity|].
  cbv zeta. destruct (_ =? 4); [reflexivity|]. destruct (_ <=? 0); [reflexivity|]. apply H.
Qed.

Lemma Item_step_pass (d : list byte) (m : VersionHistoryItem) (i : Z) :
  Item_step d m i = field_pass Item_kind d m i.
Proof.
  unfold Item_step, field_pass. cbv zeta. apply with_tag_ext. intros n wt i1.
  unfold Item_kind. destruct (n =? 1); [reflexivity|]. destruct (n =? 2); reflexivity.
Qed.

Lemma History_step_pass (d : list byte) (m : VersionHistory) (i : Z) :
  History_step d m i = field_pass History_kind d m i.
Proof.
  unfold History_step, field_pass. cbv zeta. apply with_tag_ext. intros n wt i1.
  unfold History_kind. destruct (n =? 1).
  { destruct (negb (wt =? 2)); [reflexivity|].
    destruct (read_length d i1) as [[i2 p] [e|]]; reflexivity. }
  destruct (n =? 2); [|reflexivity].
  destruct (negb (wt =? 2)); [reflexivity|].
  destruct (read_length d i1) as [[i2 p] [e|]]; [reflexivity|].
  destruct (Item_Unmarshal Item_zero (sub d i2 p)). reflexivity.
Qed.

Lemma Histories_step_pass (d : list byte) (m : VersionHistories) (i : Z) :
  Histories_step d m i = field_pass Histories_kind d m i.
Proof.
  unfold Histories_step, field_pass. cbv zeta. apply with_tag_ext. intros n wt i1.
  unfold Histories_kind. destruct (n =? 1); [reflexivity|].
  destruct (n =? 2); [|reflexivity].
  destruct (negb (wt =? 2)); [reflexivity|].
  destruct (read_length d i1) as [[i2 p] [e|]]; [reflexivity|].
  destruct (History_Unmarshal History_zero (sub d i2 p)). reflexivity.
Qed.

(** ** Varints that are too long or cut *)

Lemma varint_loop_overlong (conv : Z -> Z) (bs tl : list byte) :
  Forall continues bs ->
  forall shift x i,
    64 <= shift + 7 * llen bs ->
    snd (varint_loop conv (bs ++ tl) shift x i) = Some ErrIntOverflowMessage.
Proof.
  induction 1 as [|b bs Hb Hall IH]; intros shift x i H.
  - change (llen (@nil byte)) with 0 in H. cbn [app].
    destruct tl; cbn [varint_loop]; destruct (Z.leb_spec 64 shift); try lia; reflexivity.
  - rewrite llen_cons in H. cbn [app varint_loop].
    destruct (Z.leb_spec 64 shift); [reflexivity|].
    unfold continues in Hb. destruct (Z.ltb_spec (b2z b) 128); [lia|].
    apply IH. lia.
Qed.

Lemma varint_loop_cut (conv : Z -> Z) (bs : list byte) :
  Forall continues bs ->
  forall shift x i,
    shift + 7 * llen bs < 64 ->
    snd (varint_loop conv bs shift x i) = Some ErrUnexpectedEOF.
Proof.
  induction 1 as [|b bs Hb Hall IH]; intros shift x i H.
  - change (llen (@nil byte)) with 0 in H. cbn [varint_loop].
    destruct (Z.leb_spec 64 shift); [lia | reflexivity].
  - rewrite llen_cons in H. pose proof (llen_nonneg bs). cbn [varint_loop].
    destruct (Z.leb_spec 64 shift); [lia|].
    unfold continues in Hb. destruct (Z.ltb_spec (b2z b) 128); [lia|].
    apply IH. lia.
Qed.

Lemma read_varint_overlong (conv : Z -> Z) (pre bs tl : list byte) :
  overlong bs ->
  snd (read_varint conv (pre ++ bs ++ tl) (llen pre)) = Some ErrIntOverflowMessage.
Proof.
  intros [Hlen Hall]. unfold read_varint. rewrite from_app.
  apply varint_loop_overlong; [exact Hall|]. unfold llen. lia.
Qed.

Lemma read_varint_cut (conv : Z -> Z) (pre bs : list byte) :
  cut_varint bs ->
  snd (read_varint conv (pre ++ bs) (llen pre)) = Some ErrUnexpectedEOF.
Proof.
  intros [Hlen Hall]. unfold read_varint. rewrite from_app.
  apply varint_loop_cut; [exact Hall|]. unfold llen. lia.
Qed.

(** ** The head of a pass at a position of the buffer *)

Lemma with_tag_key_error {M} (d : list byte) (m : M) (i : Z)
    (k : Z -> Z -> Z -> M * Z * status) (e : error) :
  snd (read_varint uint64 d i) = Some e -> snd (with_tag d m i k) = Err e.
Proof.
  intros H. unfold with_tag. destruct (read_varint uint64 d i) as [[wire i1] err].
  cbn [snd] in H. subst err. reflexivity.
Qed.

Lemma with_tag_key_at {M} (n wt : Z) (pre rest : list byte) (m : M)
    (k : Z -> Z -> Z -> M * Z * status) :
  0 < n < 2 ^ 31 -> 0 <= wt < 8 -> wt <> 4 ->
  with_tag (pre ++ varint (key n wt) ++ rest) m (llen pre) k
  = k n wt (llen pre + llen (varint (key n wt))).
Proof.
  intros Hn Hwt H4. unfold with_tag.
  assert (Hk : is_uint64 (key n wt)) by (unfold is_uint64, key; lia).
  rewrite (read_varint_at uint64 (key n wt) pre rest uint64_lor Hk).
  rewrite uint64_small by exact Hk. cbv zeta.
  rewrite key_shiftr, key_land by lia.
  rewrite int32_small by (unfold is_int32; lia).
  rewrite int_small by lia.
  destruct (Z.eqb_spec wt 4); [contradiction|].
  destruct (Z.leb_spec n 0); [lia|]. reflexivity.
Qed.

Lemma with_tag_byte_at {M} (n wt : Z) (pre rest : list byte) (m : M)
    (k : Z -> Z -> Z -> M * Z * status) :
  0 < n < 16 -> 0 <= wt < 8 -> wt <> 4 ->
  with_tag (pre ++ uint8 (key n wt) :: rest) m (llen pre) k = k n wt (llen pre + 1).
Proof.
  intros Hn Hwt H4.
  assert (Hv : varint (key n wt) = [uint8 (key n wt)])
    by (apply varint_small; unfold key; lia).
  change (uint8 (key n wt) :: rest) with ([uint8 (key n wt)] ++ rest).
  rewrite <- Hv, with_tag_key_at by lia. rewrite Hv. reflexivity.
Qed.

(** ** Malformed declared fields *)

Lemma scalar_value_error {M} (conv : Z -> Z) (set : Z -> M) (d : list byte) (i : Z) (e : error) :
  snd (read_varint conv d i) = Some e ->
  snd (let '(v, iNdEx, err) := read_varint conv d i in (set v, iNdEx, of_err err)) = Err e.
Proof.
  destruct (read_varint conv d i) as [[v i2] err]. cbn [snd]. intros ->. reflexivity.
Qed.

Lemma read_length_varint_error (d : list byte) (i : Z) (e : error) :
  snd (read_varint int d i) = Some e -> snd (read_length d i) = Some e.
Proof.
  unfold read_length. destruct (read_varint int d i) as [[v i2] err]. cbn [snd].
  intros ->. reflexivity.
Qed.

Lemma embedded_length_error {M} (body : M -> list byte -> M * status) (m : M)
    (d : list byte) (i : Z) (e : error) :
  snd (read_length d i) = Some e ->
  snd (let '(iNdEx, postIndex, err) := read_length d i in
       match err with
       | Some e => (m, iNdEx, Err e)
       | None => let '(m', st) := body m (sub d iNdEx postIndex) in (m', postIndex, st)
       end) = Err e.
Proof.
  destruct (read_length d i) as [[i2 p] err]. cbn [snd]. intros ->. reflexivity.
Qed.

(** The length prefix [lenb], behind the key byte of a declared field. *)
Lemma length_prefix_read (pre lenb tl : list byte) (kb : byte) (L : Z) :
  length_prefix lenb L ->
  read_varint int (pre ++ kb :: lenb ++ tl) (llen pre + 1)
  = (L, llen pre + 1 + llen lenb, None) /\ is_int64 L.
Proof.
  unfold length_prefix. intros H. split.
  - pose proof (llen_nonneg lenb).
    destruct (read_varint_frame int (pre ++ [kb]) lenb tl 0 L (llen lenb) ltac:(lia) H)
      as [_ Hr].
    rewrite <- app_assoc in Hr. cbn [app] in Hr.
    assert (E1 : llen (pre ++ [kb]) + 0 = llen pre + 1) by (list_len; lia).
    assert (E2 : llen (pre ++ [kb]) + llen lenb = llen pre + 1 + llen lenb)
      by (list_len; lia).
    rewrite E1, E2 in Hr. exact Hr.
  - eapply read_varint_int_range. exact H.
Qed.

Lemma int_negative (z : Z) : 2 ^ 63 <= z < 2 ^ 64 -> int z < 0.
Proof.
  intros H. unfold int, int64.
  replace (z + 2 ^ 63) with (z - 2 ^ 63 + 1 * 2 ^ 64) by lia.
  rewrite Z.mod_add by lia. rewrite Z.mod_small by lia. lia.
Qed.

Lemma read_length_negative (pre lenb tl : list byte) (kb : byte) (L : Z) :
  length_prefix lenb L -> L < 0 ->
  snd (read_length (pre ++ kb :: lenb ++ tl) (llen pre + 1)) = Some ErrInvalidLengthMessage.
Proof.
  intros Hp HL. unfold read_length.
  destruct (length_prefix_read pre lenb tl kb L Hp) as [-> _].
  destruct (Z.ltb_spec L 0); [reflexivity | lia].
Qed.

Lemma read_length_overflow (pre lenb tl : list byte) (kb : byte) (L : Z) :
  slice_len_ok (pre ++ kb :: lenb ++ tl) ->
  length_prefix lenb L -> 0 <= L -> 2 ^ 63 <= llen pre + 1 + llen lenb + L ->
  snd (read_length (pre ++ kb :: lenb ++ tl) (llen pre + 1)) = Some ErrInvalidLengthMessage.
Proof.
  unfold slice_len_ok. intros Hl Hp HL Hov. unfold read_length.
  destruct (length_prefix_read pre lenb tl kb L Hp) as [-> Hr]. unfold is_int64 in Hr.
  rewrite llen_app, llen_cons, llen_app in Hl.
  pose proof (llen_nonneg pre). pose proof (llen_nonneg lenb). pose proof (llen_nonneg tl).
  destruct (Z.ltb_spec L 0); [lia|]. cbv zeta.
  pose proof (int_negative (llen pre + 1 + llen lenb + L) ltac:(lia)).
  destruct (Z.ltb_spec (int (llen pre + 1 + llen lenb + L)) 0); [reflexivity | lia].
Qed.

Lemma read_length_field_cut (pre lenb tl : list byte) (kb : byte) (L : Z) :
  length_prefix lenb L -> 0 <= L -> llen pre + 1 + llen lenb + L < 2 ^ 63 ->
  llen tl < L ->
  snd (read_length (pre ++ kb :: lenb ++ tl) (llen pre + 1)) = Some ErrUnexpectedEOF.
Proof.
  intros Hp HL Hov Hcut. unfold read_length.
  destruct (length_prefix_read pre lenb tl kb L Hp) as [-> Hr].
  rewrite llen_app, llen_cons, llen_app.
  pose proof (llen_nonneg pre). pose proof (llen_nonneg lenb). pose proof (llen_nonneg tl).
  destruct (Z.ltb_spec L 0); [lia|]. cbv zeta.
  rewrite int_small by lia.
  destruct (Z.ltb_spec (llen pre + 1 + llen lenb + L) 0); [lia|].
  destruct (Z.gtb_spec (llen pre + 1 + llen lenb + L) (llen pre + (1 + (llen lenb + llen tl))));
    [reflexivity | lia].
Qed.

(** An embedded message that fails to decode. *)
Lemma embedded_body_error {M} (body : M -> list byte -> M * status) (m : M)
    (pre p tl : list byte) (tag : Z) (e : error) :
  slice_len_ok (pre ++ delimited_field tag p ++ tl) ->
  (forall m, snd (body m p) = Err e) ->
  snd (let '(iNdEx, postIndex, err) :=
         read_length (pre ++ delimited_field tag p ++ tl) (llen pre + 1) in
       match err with
       | Some e => (m, iNdEx, Err e)
       | None => let '(m', st) := body m (sub (pre ++ delimited_field tag p ++ tl)
                                              iNdEx postIndex) in
                 (m', postIndex, st)
       end) = Err e.
Proof.
  intros Hl Hb. unfold delimited_field in *. cbn [app] in *.
  replace (pre ++ uint8 tag :: (varint (uint64 (llen p)) ++ p) ++ tl)
    with ((pre ++ [uint8 tag]) ++ varint (uint64 (llen p)) ++ p ++ tl) in *
    by (rewrite <- !app_assoc; reflexivity).
  pose proof (read_length_at (pre ++ [uint8 tag]) p tl Hl) as Hr.
  rewrite llen_app, llen_cons, llen_nil in Hr.
  replace (llen pre + (1 + 0)) with (llen pre + 1) in Hr by lia. rewrite Hr.
  rewrite (app_assoc (pre ++ [uint8 tag])).
  rewrite sub_whole by (list_len; lia).
  specialize (Hb m). destruct (body m p) as [m' st]. cbn [snd] in *. exact Hb.
Qed.

(** ** Malformed undeclared fields *)

Lemma skipMessage_first (n wt : Z) (value : list byte) :
  0 <= n < 2 ^ 60 -> 0 <= wt < 8 ->
  skipMessage (varint (key n wt) ++ value)
  = (let '(iNdEx, depth, err) :=
       skip_field (varint (key n wt) ++ value) wt (llen (varint (key n wt))) 0 in
     match err with
     | Some e => (0, Err e)
     | None =>
         if iNdEx <? 0 then (0, Err ErrInvalidLengthMessage)
         else if depth =? 0 then (iNdEx, Nil)
         else skip_loop (pred (length (varint (key n wt) ++ value)))
                        (varint (key n wt) ++ value) iNdEx depth
     end).
Proof.
  intros Hn Hwt. unfold skipMessage.
  set (bad := varint (key n wt) ++ value).
  assert (Hf : exists f, length bad = S f).
  { unfold bad. destruct (varint (key n wt)) eqn:E; [exact (False_ind _ (varint_nonempty _ E))|].
    eexists. reflexivity. }
  destruct Hf as [f Hf]. rewrite Hf. cbn [pred skip_loop].
  assert (0 < llen bad) by (unfold llen; lia).
  destruct (Z.ltb_spec 0 (llen bad)); [|lia].
  unfold bad at 1. rewrite tag_read by lia. fold bad.
  rewrite key_land by lia. rewrite int_small by lia. reflexivity.
Qed.

Lemma skip_unknown_status (pre bad : list byte) :
  snd (skip_unknown (pre ++ bad) (llen pre))
  = (let '(skippy, st) := skipMessage bad in
     match st with
     | Nil =>
         if skippy <? 0 then Err ErrInvalidLengthMessage
         else if int (llen pre + skippy) <? 0 then Err ErrInvalidLengthMessage
         else if int (llen pre + skippy) >? llen (pre ++ bad) then Err ErrUnexpectedEOF
         else Nil
     | _ => st
     end).
Proof.
  unfold skip_unknown. rewrite from_app. destruct (skipMessage bad) as [skippy st].
  destruct st; try reflexivity.
  destruct (skippy <? 0); [reflexivity|].
  destruct (int (llen pre + skippy) <? 0); [reflexivity|].
  destruct (int (llen pre + skippy) >? llen (pre ++ bad)); reflexivity.
Qed.

Lemma skip_field_varint_error (kb value : list byte) (e : error) :
  snd (read_varint (fun _ => 0) (kb ++ value) (llen kb)) = Some e ->
  snd (skip_field (kb ++ value) 0 (llen kb) 0) = Some e.
Proof.
  unfold skip_field. cbn [Z.eqb].
  destruct (read_varint (fun _ => 0) (kb ++ value) (llen kb)) as [[v i] err].
  cbn [snd]. intros ->. reflexivity.
Qed.

Lemma skip_field_length_error (kb value : list byte) (e : error) :
  snd (read_varint int (kb ++ value) (llen kb)) = Some e ->
  snd (skip_field (kb ++ value) 2 (llen kb) 0) = Some e.
Proof.
  unfold skip_field. cbn [Z.eqb Pos.eqb].
  destruct (read_varint int (kb ++ value) (llen kb)) as [[v i] err].
  cbn [snd]. intros ->. reflexivity.
Qed.

Lemma skip_error (pre : list byte) (n wt : Z) (value : list byte) (e : error) :
  0 <= n < 2 ^ 60 -> 0 <= wt < 8 ->
  snd (skip_field (varint (key n wt) ++ value) wt (llen (varint (key n wt))) 0) = Some e ->
  snd (skip_unknown (pre ++ varint (key n wt) ++ value) (llen pre)) = Err e.
Proof.
  intros Hn Hwt H. rewrite skip_unknown_status, skipMessage_first by assumption.
  destruct (skip_field _ wt _ 0) as [[i d] err]. cbn [snd] in H. subst err. reflexivity.
Qed.

Lemma skip_fixed_cut (pre : list byte) (n wt k : Z) (tl : list byte) :
  slice_len_ok (pre ++ varint (key n wt) ++ tl) ->
  0 <= n < 2 ^ 60 -> (wt = 1 /\ k = 8 \/ wt = 5 /\ k = 4) ->
  llen tl < k ->
  snd (skip_unknown (pre ++ varint (key n wt) ++ tl) (llen pre)) = Err ErrUnexpectedEOF.
Proof.
  unfold slice_len_ok. intros Hl Hn Hwt Hcut.
  rewrite skip_unknown_status, skipMessage_first by lia.
  rewrite !llen_app in *.
  pose proof (llen_nonneg pre). pose proof (llen_nonneg tl).
  pose proof (llen_nonneg (varint (key n wt))).
  set (lk := llen (varint (key n wt))) in *.
  assert (Hs : skip_field (varint (key n wt) ++ tl) wt lk 0 = (lk + k, 0, None)).
  { unfold skip_field. destruct Hwt as [[-> ->]|[-> ->]]; reflexivity. }
  rewrite Hs.
  destruct (Z.ltb_spec (lk + k) 0); [lia|]. cbn [Z.eqb].
  destruct (Z.ltb_spec (lk + k) 0); [lia|].
  rewrite int_small by lia.
  destruct (Z.ltb_spec (llen pre + (lk + k)) 0); [lia|].
  destruct (Z.gtb_spec (llen pre + (lk + k)) (llen pre + (lk + llen tl))); [reflexivity | lia].
Qed.

(** The length prefix [lenb] of an undeclared field, behind its key. *)
Lemma unknown_length_read (kb lenb tl : list byte) (L : Z) :
  length_prefix lenb L ->
  read_varint int (kb ++ lenb ++ tl) (llen kb) = (L, llen kb + llen lenb, None)
  /\ is_int64 L.
Proof.
  unfold length_prefix. intros H. split.
  - pose proof (llen_nonneg lenb).
    destruct (read_varint_frame int kb lenb tl 0 L (llen lenb) ltac:(lia) H) as [_ Hr].
    rewrite Z.add_0_r in Hr. exact Hr.
  - eapply read_varint_int_range. exact H.
Qed.

Lemma skip_length_negative (pre : list byte) (n : Z) (lenb tl : list byte) (L : Z) :
  0 <= n < 2 ^ 60 -> length_prefix lenb L -> L < 0 ->
  snd (skip_unknown (pre ++ varint (key n 2) ++ lenb ++ tl) (llen pre))
  = Err ErrInvalidLengthMessage.
Proof.
  intros Hn Hp HL. apply skip_error; [assumption | lia |].
  unfold skip_field. cbn [Z.eqb Pos.eqb].
  destruct (unknown_length_read (varint (key n 2)) lenb tl L Hp) as [-> _].
  destruct (Z.ltb_spec L 0); [reflexivity | lia].
Qed.

Lemma skip_length_overflow (pre : list byte) (n : Z) (lenb tl : list byte) (L : Z) :
  slice_len_ok (pre ++ varint (key n 2) ++ lenb ++ tl) ->
  0 <= n < 2 ^ 60 -> length_prefix lenb L -> 0 <= L ->
  2 ^ 63 <= llen pre + llen (varint (key n 2)) + llen lenb + L ->
  snd (skip_unknown (pre ++ varint (key n 2) ++ lenb ++ tl) (llen pre))
  = Err ErrInvalidLengthMessage.
Proof.
  unfold slice_len_ok. intros Hl Hn Hp HL Hov.
  rewrite skip_unknown_status, skipMessage_first by lia.
  rewrite !llen_app in *.
  pose proof (llen_nonneg pre). pose proof (llen_nonneg tl). pose proof (llen_nonneg lenb).
  pose proof (llen_nonneg (varint (key n 2))).
  set (kb := varint (key n 2)) in *.
  unfold skip_field. cbn [Z.eqb Pos.eqb].
  destruct (unknown_length_read kb lenb tl L Hp) as [-> Hr]. unfold is_int64 in Hr.
  destruct (Z.ltb_spec L 0); [lia|].
  destruct (Z.ltb_spec (int (llen kb + llen lenb + L)) 0); [reflexivity|].
  rewrite int_sum_nonneg in * by lia. cbn [Z.eqb].
  destruct (Z.ltb_spec (llen kb + llen lenb + L) 0); [lia|].
  pose proof (int_negative (llen pre + (llen kb + llen lenb + L))
                ltac:(pose proof (int64_range (llen kb + llen lenb + L)); lia)).
  destruct (Z.ltb_spec (int (llen pre + (llen kb + llen lenb + L))) 0); [reflexivity | lia].
Qed.

Lemma skip_field_cut (pre : list byte) (n : Z) (lenb tl : list byte) (L : Z) :
  slice_len_ok (pre ++ varint (key n 2) ++ lenb ++ tl) ->
  0 <= n < 2 ^ 60 -> length_prefix lenb L -> 0 <= L ->
  llen pre + llen (varint (key n 2)) + llen lenb + L < 2 ^ 63 ->
  llen tl < L ->
  snd (skip_unknown (pre ++ varint (key n 2) ++ lenb ++ tl) (llen pre))
  = Err ErrUnexpectedEOF.
Proof.
  unfold slice_len_ok. intros Hl Hn Hp HL Hov Hcut.
  rewrite skip_unknown_status, skipMessage_first by lia.
  rewrite !llen_app in *.
  pose proof (llen_nonneg pre). pose proof (llen_nonneg tl). pose proof (llen_nonneg lenb).
  pose proof (llen_nonneg (varint (key n 2))).
  set (kb := varint (key n 2)) in *.
  unfold skip_field. cbn [Z.eqb Pos.eqb].
  destruct (unknown_length_read kb lenb tl L Hp) as [-> Hr]. unfold is_int64 in Hr.
  destruct (Z.ltb_spec L 0); [lia|].
  rewrite (int_small (llen kb + llen lenb + L)) by lia.
  destruct (Z.ltb_spec (llen kb + llen lenb + L) 0); [lia|]. cbn [Z.eqb].
  destruct (Z.ltb_spec (llen kb + llen lenb + L) 0); [lia|].
  rewrite int_small by lia.
  destruct (Z.ltb_spec (llen pre + (llen kb + llen lenb + L)) 0); [lia|].
  destruct (Z.gtb_spec (llen pre + (llen kb + llen lenb + L))
                       (llen pre + (llen kb + (llen lenb + llen tl)))); [reflexivity | lia].
Qed.

(** ** A malformed field fails the pass that reads it *)

Lemma overlong_nonempty (bs tl : list byte) : overlong bs -> bs ++ tl <> [].
Proof. intros [H _]. destruct bs; [discriminate H | discriminate]. Qed.

Lemma malformed_nonempty {M} (kind : Z -> field_kind M) (pos : Z) (bad : list byte) (e : error) :
  malformed kind pos bad e -> bad <> [].
Proof.
  intros H. destruct H;
    try discriminate;
    try (apply overlong_nonempty; assumption);
    try assumption;
    try (intros E; apply app_eq_nil in E; destruct E as [E _];
         exact (varint_nonempty _ E)).
Qed.

Lemma cons_app {A} (pre : list A) (x : A) (l : list A) : pre ++ x :: l = (pre ++ [x]) ++ l.
Proof. rewrite <- app_assoc. reflexivity. Qed.

Lemma llen_snoc {A} (pre : list A) (x : A) : llen (pre ++ [x]) = llen pre + 1.
Proof. rewrite llen_app, llen_cons, llen_nil. lia. Qed.

Lemma field_pass_malformed {M} (kind : Z -> field_kind M) (pre bad : list byte)
    (m : M) (e : error) :
  slice_len_ok (pre ++ bad) ->
  malformed kind (llen pre) bad e ->
  snd (field_pass kind (pre ++ bad) m (llen pre)) = Err e.
Proof.
  intros Hl H. unfold field_pass.
  destruct H as
    [ bs tl Hb | bs Hne Hb
    | n conv set bs tl Hn Hk Hb | n conv set bs Hn Hk Hb
    | n body bs tl Hn Hk Hb | n body bs Hn Hk Hb
    | n body lenb L tl Hn Hk Hp HL | n body lenb L tl Hn Hk Hp HL Hov
    | n body lenb L tl Hn Hk Hp HL Hov Hcut
    | n body p tl e Hn Hk Hbody
    | n bs tl Hn Hk Hb | n bs Hn Hk Hb
    | n tl Hn Hk Hcut | n tl Hn Hk Hcut
    | n bs tl Hn Hk Hb | n bs Hn Hk Hb
    | n lenb L tl Hn Hk Hp HL | n lenb L tl Hn Hk Hp HL Hov
    | n lenb L tl Hn Hk Hp HL Hov Hcut ].
  - apply with_tag_key_error. apply read_varint_overlong. exact Hb.
  - apply with_tag_key_error. apply read_varint_cut. exact Hb.
  - rewrite with_tag_byte_at by lia. rewrite Hk. cbn [Z.eqb negb].
    apply scalar_value_error.
    rewrite cons_app, <- (llen_snoc pre (uint8 (key n 0))). apply read_varint_overlong. exact Hb.
  - rewrite with_tag_byte_at by lia. rewrite Hk. cbn [Z.eqb negb].
    apply scalar_value_error.
    rewrite cons_app, <- (llen_snoc pre (uint8 (key n 0))). apply read_varint_cut. exact Hb.
  - rewrite with_tag_byte_at by lia. rewrite Hk. cbn [Z.eqb Pos.eqb negb].
    apply embedded_length_error. apply read_length_varint_error.
    rewrite cons_app, <- (llen_snoc pre (uint8 (key n 2))). apply read_varint_overlong. exact Hb.
  - rewrite with_tag_byte_at by lia. rewrite Hk. cbn [Z.eqb Pos.eqb negb].
    apply embedded_length_error. apply read_length_varint_error.
    rewrite cons_app, <- (llen_snoc pre (uint8 (key n 2))). apply read_varint_cut. exact Hb.
  - rewrite with_tag_byte_at by lia. rewrite Hk. cbn [Z.eqb Pos.eqb negb].
    apply embedded_length_error. eapply read_length_negative; eassumption.
  - rewrite with_tag_byte_at by lia. rewrite Hk. cbn [Z.eqb Pos.eqb negb].
    apply embedded_length_error. eapply read_length_overflow; eassumption.
  - rewrite with_tag_byte_at by lia. rewrite Hk. cbn [Z.eqb Pos.eqb negb].
    apply embedded_length_error. eapply read_length_field_cut; eassumption.
  - unfold delimited_field in *. cbn [app] in *.
    rewrite with_tag_byte_at by lia. rewrite Hk. cbn [Z.eqb Pos.eqb negb].
    apply (embedded_body_error body m pre p tl (key n 2) e); assumption.
  - rewrite with_tag_key_at by lia. rewrite Hk.
    pose proof (skip_error pre n 0 (bs ++ tl) ErrIntOverflowMessage
                  ltac:(lia) ltac:(lia)) as Hs.
    destruct (skip_unknown _ (llen pre)) as [i st]. cbn [snd] in *. apply Hs.
    apply skip_field_varint_error. apply read_varint_overlong. exact Hb.
  - rewrite with_tag_key_at by lia. rewrite Hk.
    pose proof (skip_error pre n 0 bs ErrUnexpectedEOF ltac:(lia) ltac:(lia)) as Hs.
    destruct (skip_unknown _ (llen pre)) as [i st]. cbn [snd] in *. apply Hs.
    apply skip_field_varint_error. apply read_varint_cut. exact Hb.
  - rewrite with_tag_key_at by lia. rewrite Hk.
    pose proof (skip_fixed_cut pre n 1 8 tl Hl ltac:(lia) ltac:(lia) Hcut) as Hs.
    destruct (skip_unknown _ (llen pre)) as [i st]. exact Hs.
  - rewrite with_tag_key_at by lia. rewrite Hk.
    pose proof (skip_fixed_cut pre n 5 4 tl Hl ltac:(lia) ltac:(lia) Hcut) as Hs.
    destruct (skip_unknown _ (llen pre)) as [i st]. exact Hs.
  - rewrite with_tag_key_at by lia. rewrite Hk.
    pose proof (skip_error pre n 2 (bs ++ tl) ErrIntOverflowMessage
                  ltac:(lia) ltac:(lia)) as Hs.
    destruct (skip_unknown _ (llen pre)) as [i st]. cbn [snd] in *. apply Hs.
    apply skip_field_length_error. apply read_varint_overlong. exact Hb.
  - rewrite with_tag_key_at by lia. rewrite Hk.
    pose proof (skip_error pre n 2 bs ErrUnexpectedEOF ltac:(lia) ltac:(lia)) as Hs.
    destruct (skip_unknown _ (llen pre)) as [i st]. cbn [snd] in *. apply Hs.
    apply skip_field_length_error. apply read_varint_cut. exact Hb.
  - rewrite with_tag_key_at by lia. rewrite Hk.
    pose proof (skip_length_negative pre n lenb tl L ltac:(lia) Hp HL) as Hs.
    destruct (skip_unknown _ (llen pre)) as [i st]. exact Hs.
  - rewrite with_tag_key_at by lia. rewrite Hk.
    pose proof (skip_length_overflow pre n lenb tl L Hl ltac:(lia) Hp HL Hov) as Hs.
    destruct (skip_unknown _ (llen pre)) as [i st]. exact Hs.
  - rewrite with_tag_key_at by lia. rewrite Hk.
    pose proof (skip_field_cut pre n lenb tl L Hl ltac:(lia) Hp HL Hov Hcut) as Hs.
    destruct (skip_unknown _ (llen pre)) as [i st]. exact Hs.
Qed.

(** The loop stops at the first pass that fails, with its error. *)
Lemma decode_loop_step_error {M} (step : list byte -> M -> Z -> M * Z * status)
    (pre bad : list byte) (m : M) (e : error) :
  bad <> [] ->
  snd (step (pre ++ bad) m (llen pre)) = Err e ->
  snd (decode_loop step (length (pre ++ bad)) (pre ++ bad) m (llen pre)) = Err e.
Proof.
  intros Hne Hs.
  assert (Hlen : llen pre < llen (pre ++ bad)).
  { rewrite llen_app. destruct bad; [contradiction|]. rewrite llen_cons.
    pose proof (llen_nonneg bad). lia. }
  destruct (length (pre ++ bad)) eqn:Ef.
  - unfold llen in Hlen. rewrite Ef in Hlen. lia.
  - cbn [decode_loop]. destruct (Z.ltb_spec (llen pre) (llen (pre ++ bad))); [|lia].
    destruct (step (pre ++ bad) m (llen pre)) as [[m' i'] st]. cbn [snd] in Hs.
    subst st. reflexivity.
Qed.

Lemma decode_malformed {M} (kind : Z -> field_kind M)
    (step : list byte -> M -> Z -> M * Z * status) (pre bad : list byte)
    (m m1 : M) (e : error) :
  step_frame step ->
  (forall d m i, step d m i = field_pass kind d m i) ->
  slice_len_ok (pre ++ bad) ->
  decode_loop step (length pre) pre m 0 = (m1, Nil) ->
  malformed kind (llen pre) bad e ->
  snd (decode_loop step (length (pre ++ bad)) (pre ++ bad) m 0) = Err e.
Proof.
  intros Hf Hp Hl Hpre Hbad.
  rewrite (decode_loop_app step pre bad m m1 Hf Hl Hpre).
  apply decode_loop_step_error.
  - eapply malformed_nonempty. exact Hbad.
  - rewrite Hp. apply field_pass_malformed; assumption.
Qed.

(** ** The loops of the model end

    The loops of the decoders are bounded by the length of the buffer:
    every pass moves the cursor forward, so the bound is never reached. *)

Lemma skip_loop_total (x : list byte) :
  slice_len_ok x ->
  forall f i depth,
    0 <= i -> 0 <= depth -> llen x - i <= Z.of_nat f ->
    snd (skip_loop f x i depth) <> Fuel.
Proof.
  intros Hl f. induction f as [|f IH]; intros i depth Hi Hd Hf; cbn [skip_loop];
    destruct (Z.ltb_spec i (llen x)); try (cbn; discriminate); [lia|].
  destruct (read_varint uint64 x i) as [[wire i1] err] eqn:Hr.
  destruct err as [e|]; [cbn; discriminate|].
  destruct (read_varint_frame uint64 [] x [] i wire i1 ltac:(lia) Hr) as [Hb _].
  destruct (skip_field x (int (Z.land wire 7)) i1 depth) as [[i2 depth'] err] eqn:Hs.
  destruct err as [e|]; [cbn; discriminate|].
  destruct (Z.ltb_spec i2 0); [cbn; discriminate|].
  destruct (skip_field_bound x _ i1 depth i2 depth' Hl ltac:(lia) Hd Hs ltac:(lia))
    as [Hb2 Hd'].
  destruct (depth' =? 0); [cbn; discriminate|].
  apply IH; lia.
Qed.

Lemma skipMessage_total (x : list byte) : slice_len_ok x -> snd (skipMessage x) <> Fuel.
Proof.
  intros Hl. unfold skipMessage. apply skip_loop_total; try assumption; try lia.
  unfold llen. lia.
Qed.

Lemma llen_from_le (d : list byte) (i : Z) : llen (from d i) <= llen d.
Proof. unfold from, llen. rewrite length_skipn. lia. Qed.

Lemma llen_sub_le (d : list byte) (i p : Z) : llen (sub d i p) <= llen d.
Proof.
  unfold sub. pose proof (llen_from_le d i). unfold llen in *.
  rewrite length_firstn. lia.
Qed.

Lemma skip_unknown_total (d : list byte) (i : Z) :
  slice_len_ok d -> snd (skip_unknown d i) <> Fuel.
Proof.
  intros Hl. unfold skip_unknown.
  assert (Hx : slice_len_ok (from d i)).
  { unfold slice_len_ok in *. pose proof (llen_from_le d i). lia. }
  pose proof (skipMessage_total _ Hx) as Ht.
  destruct (skipMessage (from d i)) as [skippy st]. cbn [snd] in Ht.
  destruct st; [| cbn; discriminate | contradiction].
  destruct (skippy <? 0); [cbn; discriminate|].
  destruct (int (i + skippy) <? 0); [cbn; discriminate|].
  destruct (int (i + skippy) >? llen d); cbn; discriminate.
Qed.

Lemma with_tag_total {M} (d : list byte) (m : M) (i : Z) (k : Z -> Z -> Z -> M * Z * status) :
  (forall fieldNum wireType i1, snd (k fieldNum wireType i1) <> Fuel) ->
  snd (with_tag d m i k) <> Fuel.
Proof.
  intros Hk. unfold with_tag.
  destruct (read_varint uint64 d i) as [[wire i1] err].
  destruct err as [e|]; [cbn; discriminate|].
  destruct (_ =? 4); [cbn; discriminate|].
  destruct (_ <=? 0); [cbn; discriminate|].
  apply Hk.
Qed.

Lemma field_pass_total {M} (kind : Z -> field_kind M) :
  (forall n body, kind n = Embedded body ->
                  forall m bs, slice_len_ok bs -> snd (body m bs) <> Fuel) ->
  never_fuel (field_pass kind).
Proof.
  intros Hbody d m i Hl. unfold field_pass. apply with_tag_total.
  intros fieldNum wireType i1.
  destruct (kind fieldNum) as [conv set | body |] eqn:Hk.
  - destruct (negb (wireType =? 0)); [cbn; discriminate|].
    destruct (read_varint conv d i1) as [[v i2] err].
    destruct err; cbn; discriminate.
  - destruct (negb (wireType =? 2)); [cbn; discriminate|].
    destruct (read_length d i1) as [[i2 p] err].
    destruct err as [e|]; [cbn; discriminate|].
    assert (Hx : slice_len_ok (sub d i2 p)).
    { unfold slice_len_ok in *. pose proof (llen_sub_le d i2 p). lia. }
    pose proof (Hbody fieldNum body Hk m (sub d i2 p) Hx) as Ht.
    destruct (body m (sub d i2 p)) as [m' st]. exact Ht.
  - pose proof (skip_unknown_total d i Hl) as Ht.
    destruct (skip_unknown d i) as [i2 st]. exact Ht.
Qed.

Lemma decode_loop_total {M} (step : list byte -> M -> Z -> M * Z * status) (d : list byte) :
  step_frame step -> never_fuel step -> slice_len_ok d ->
  forall f m i,
    0 <= i -> llen d - i <= Z.of_nat f ->
    snd (decode_loop step f d m i) <> Fuel.
Proof.
  intros Hf Hn Hl f. induction f as [|f IH]; intros m i Hi Hb; cbn [decode_loop];
    destruct (Z.ltb_spec i (llen d)); try lia;
    try (destruct (i >? llen d); cbn; discriminate).
  pose proof (Hn d m i Hl) as Ht.
  destruct (step d m i) as [[m' i'] st] eqn:Hs. cbn [snd] in Ht.
  destruct st; [| cbn; discriminate | contradiction].
  pose proof (Hf [] d [] m i m' i') as Hp. rewrite app_nil_r in Hp. cbn [app] in Hp.
  destruct (Hp Hl ltac:(lia) Hs) as [Hlt _].
  apply IH; lia.
Qed.

Lemma Unmarshal_with_total {M} (kind : Z -> field_kind M)
    (step : list byte -> M -> Z -> M * Z * status) :
  step_frame step ->
  (forall d m i, step d m i = field_pass kind d m i) ->
  (forall n body, kind n = Embedded body ->
                  forall m bs, slice_len_ok bs -> snd (body m bs) <> Fuel) ->
  forall m d, slice_len_ok d -> snd (decode_loop step (length d) d m 0) <> Fuel.
Proof.
  intros Hf Hp Hbody m d Hl. apply decode_loop_total; try assumption; try lia.
  - intros d' m' i Hl'. rewrite Hp. apply field_pass_total; assumption.
  - unfold llen. lia.
Qed.

Lemma Item_Unmarshal_total (m : VersionHistoryItem) (d : list byte) :
  slice_len_ok d -> snd (Item_Unmarshal m d) <> Fuel.
Proof.
  apply (Unmarshal_with_total Item_kind Item_step Item_step_frame Item_step_pass).
  intros n body Hk. unfold Item_kind in Hk.
  destruct (n =? 1); [discriminate|]. destruct (n =? 2); discriminate.
Qed.

Lemma History_Unmarshal_total (m : VersionHistory) (d : list byte) :
  slice_len_ok d -> snd (History_Unmarshal m d) <> Fuel.
Proof.
  apply (Unmarshal_with_total History_kind History_step History_step_frame History_step_pass).
  intros n body Hk m' bs Hl. unfold History_kind in Hk.
  destruct (n =? 1); [injection Hk as <-; cbn; discriminate|].
  destruct (n =? 2); [|discriminate]. injection Hk as <-.
  pose proof (Item_Unmarshal_total Item_zero bs Hl) as Ht.
  destruct (Item_Unmarshal Item_zero bs) as [e st]. exact Ht.
Qed.

Lemma Histories_Unmarshal_total (m : VersionHistories) (d : list byte) :
  slice_len_ok d -> snd (Histories_Unmarshal m d) <> Fuel.
Proof.
  apply (Unmarshal_with_total Histories_kind Histories_step Histories_step_frame
           Histories_step_pass).
  intros n body Hk m' bs Hl. unfold Histories_kind in Hk.
  destruct (n =? 1); [discriminate|].
  destruct (n =? 2); [|discriminate]. injection Hk as <-.
  pose proof (History_Unmarshal_total History_zero bs Hl) as Ht.
  destruct (History_Unmarshal History_zero bs) as [e st]. exact Ht.
Qed.

(** * The claims *)

(** ** Getters *)

(** C10. The getters are total on nil receivers: [GetEventId] and
    [GetVersion] of a nil item are 0, [GetBranchToken] and [GetItems] of
    a nil branch are nil, [GetCurrentVersionHistoryIndex] and
    [GetHistories] of a nil branch set are 0 and nil. *)
Theorem getters_nil_receiver :
  GetEventId None = 0 /\ GetVersion None = 0
  /\ GetBranchToken None = None /\ GetItems None = None
  /\ GetCurrentVersionHistoryIndex None = 0 /\ GetHistories None = None.
Proof. repeat split. Qed.

(** ** Marshal *)

Lemma History_wf_nonnil (m : ptr VersionHistory) : History_wf m -> History_nonnil m.
Proof.
  destruct m as [m|]; [|exact (fun H => H)]. cbn.
  apply Forall_impl. intros [x|] H; [discriminate | contradiction].
Qed.

Lemma Histories_wf_nonnil (m : VersionHistories) :
  Histories_wf m -> Histories_nonnil (Some m).
Proof.
  intros [_ H]. cbn. revert H. apply Forall_impl. apply History_wf_nonnil.
Qed.

(** C7. The wire encoding has the declared shape.  An item is its
    [eventId] as a varint under field number 1, then its [version] as a
    varint under field number 2, each left out when zero.  A branch set is
    its [currentIndex] as a varint under field number 1, left out when
    zero, then one length-delimited entry under field number 2 for each
    branch, in the order of the sequence; the bytes of an entry are what
    [Marshal] returns for that branch. *)
Theorem wire_shape :
  (forall m : VersionHistoryItem,
      Item_Marshal (Some m)
      = Returns (Some (varint_field (key 1 0) (EventId m)
                       ++ varint_field (key 2 0) (Version m)), None))
  /\ (forall m : VersionHistories,
        Histories_nonnil (Some m) ->
        Histories_Marshal (Some m)
        = Returns (Some (varint_field (key 1 0) (CurrentVersionHistoryIndex m)
                         ++ flat_map (fun h => delimited_field (key 2 2) (wire_history h))
                                     (elems (Histories m))), None)
        /\ Forall (fun h => History_Marshal h = Returns (Some (wire_history h), None))
                  (elems (Histories m))).
Proof.
  split.
  - intros m. apply Item_Marshal_wire.
  - intros m Hm. split.
    + apply (Histories_Marshal_wire m Hm).
    + cbn in Hm. revert Hm. apply Forall_impl. intros [h|] Hh; [|contradiction].
      apply History_Marshal_wire. exact Hh.
Qed.

Lemma vhs_two_nonnil : Histories_nonnil (Some vhs_two).
Proof. cbn. repeat constructor; discriminate. Qed.

Lemma wire_shape_witness :
  Histories_nonnil (Some vhs_two)
  /\ Histories_Marshal (Some vhs_two)
     = Returns (Some (varint_field (key 1 0) (CurrentVersionHistoryIndex vhs_two)
                      ++ flat_map (fun h => delimited_field (key 2 2) (wire_history h))
                                  (elems (Histories vhs_two))), None).
Proof.
  split; [exact vhs_two_nonnil|].
  exact (proj1 (proj2 wire_shape vhs_two vhs_two_nonnil)).
Defined.

(** C9, as the program has it.  [Marshal] returns without error a buffer
    of exactly [Size()] bytes for every item, and for every branch and
    branch set that holds no nil pointer in [Items] and [Histories]; the
    history invariants play no part. *)
Theorem Marshal_total_size_exact :
  (forall m : VersionHistoryItem, marshals_to_size Item_Marshal Item_Size (Some m))
  /\ (forall m : VersionHistory,
        History_nonnil (Some m) -> marshals_to_size History_Marshal History_Size (Some m))
  /\ (forall m : VersionHistories,
        Histories_nonnil (Some m) ->
        marshals_to_size Histories_Marshal Histories_Size (Some m)).
Proof.
  split; [|split].
  - intros m. exists (wire_item (Some m)). split; [apply Item_Marshal_wire|].
    symmetry. apply Item_Size_wire.
  - intros m Hm. exists (wire_history (Some m)).
    split; [apply History_Marshal_wire; assumption|].
    symmetry. apply History_Size_wire.
  - intros m Hm. exists (wire_histories (Some m)).
    split; [apply Histories_Marshal_wire; assumption|].
    symmetry. apply Histories_Size_wire.
Qed.

Lemma Marshal_total_size_exact_witness :
  Histories_nonnil (Some vhs_two)
  /\ marshals_to_size Histories_Marshal Histories_Size (Some vhs_two).
Proof.
  split; [exact vhs_two_nonnil|].
  exact (proj2 (proj2 Marshal_total_size_exact) vhs_two vhs_two_nonnil).
Defined.

(** C9, as it is stated, fails on a branch whose [Items] holds a nil
    pointer: [Size] counts two bytes for the element and
    [MarshalToSizedBuffer] reads [m.Version] through the nil pointer. *)
Lemma Marshal_nil_item_panics :
  History_Size (Some vh_nil_item) = 2
  /\ History_Marshal (Some vh_nil_item) = Panics
  /\ ~ marshals_to_size History_Marshal History_Size (Some vh_nil_item).
Proof.
  split; [reflexivity|]. split; [reflexivity|].
  intros [dAtA [H _]]. discriminate H.
Qed.

(** ** Round trip *)

Lemma History_valid_wf (m : ptr VersionHistory) : History_valid m -> History_wf m.
Proof. intros [H _]. exact H. Qed.

Lemma Histories_valid_wf (m : VersionHistories) : Histories_valid m -> Histories_wf m.
Proof.
  intros (Hi & _ & H). split; [exact Hi|].
  revert H. apply Forall_impl. apply History_valid_wf.
Qed.

(** C1. For a valid branch set [v], [Marshal] returns a buffer, decoding
    that buffer into a fresh message succeeds, and the decoded value is
    [Equal] to [v], in both directions.  The buffer has to be one that
    exists: fewer than [2^62] bytes. *)
Theorem Histories_roundtrip (v : VersionHistories) :
  Histories_valid v ->
  Histories_Size (Some v) < 2 ^ 62 ->
  exists dAtA v',
    Histories_Marshal (Some v) = Returns (Some dAtA, None)
    /\ Histories_Unmarshal Histories_zero dAtA = (v', Nil)
    /\ Histories_Equal (Some v') (Some v) = true
    /\ Histories_Equal (Some v) (Some v') = true.
Proof.
  intros Hv Hsize. pose proof (Histories_valid_wf v Hv) as Hw.
  assert (Hl : slice_len_ok (wire_histories (Some v))).
  { unfold slice_len_ok. rewrite <- Histories_Size_wire. exact Hsize. }
  exists (wire_histories (Some v)). eexists. split; [|split].
  - apply Histories_Marshal_wire, Histories_wf_nonnil, Hw.
  - apply (Histories_Unmarshal_wire Histories_zero v Hw Hl).
  - cbn [Histories_zero CurrentVersionHistoryIndex Histories].
    replace (if CurrentVersionHistoryIndex v =? 0 then 0 else CurrentVersionHistoryIndex v)
      with (CurrentVersionHistoryIndex v)
      by (destruct (Z.eqb_spec (CurrentVersionHistoryIndex v) 0); congruence).
    apply Histories_Equal_decoded.
    + apply Hw.
    + cbn [wire_histories] in Hl. eapply slice_len_ok_app_r, Hl.
    + apply elems_extend.
Qed.

Lemma vhs_two_valid : Histories_valid vhs_two.
Proof.
  unfold Histories_valid, History_valid, is_int32. cbn.
  repeat (constructor || split); cbn; unfold is_int64; lia.
Qed.

Lemma Histories_roundtrip_witness :
  Histories_valid vhs_two
  /\ Histories_Size (Some vhs_two) < 2 ^ 62
  /\ exists dAtA v',
      Histories_Marshal (Some vhs_two) = Returns (Some dAtA, None)
      /\ Histories_Unmarshal Histories_zero dAtA = (v', Nil)
      /\ Histories_Equal (Some v') (Some vhs_two) = true
      /\ Histories_Equal (Some vhs_two) (Some v') = true.
Proof.
  assert (Hs : Histories_Size (Some vhs_two) < 2 ^ 62) by (vm_compute; reflexivity).
  split; [exact vhs_two_valid|]. split; [exact Hs|].
  exact (Histories_roundtrip vhs_two vhs_two_valid Hs).
Defined.

(** ** Unknown fields *)

(** C4. A field that the message does not declare (a field number above
    2, written as a varint, a fixed 64-bit or 32-bit number, a byte
    string or a group, whose fields may again be groups) is skipped:
    where the fields before it decode and the fields behind it decode,
    the buffer with the unknown field between them decodes to the same
    message as the buffer without it.  This holds for the three
    decoders. *)
Theorem unknown_field_skipped (u : unknown_field) :
  unknown_ok u ->
  (forall (m m1 m2 : VersionHistoryItem) pre post,
      slice_len_ok (pre ++ wire_unknown u ++ post) ->
      Item_Unmarshal m pre = (m1, Nil) -> Item_Unmarshal m1 post = (m2, Nil) ->
      Item_Unmarshal m (pre ++ wire_unknown u ++ post) = (m2, Nil)
      /\ Item_Unmarshal m (pre ++ post) = (m2, Nil))
  /\ (forall (m m1 m2 : VersionHistory) pre post,
        slice_len_ok (pre ++ wire_unknown u ++ post) ->
        History_Unmarshal m pre = (m1, Nil) -> History_Unmarshal m1 post = (m2, Nil) ->
        History_Unmarshal m (pre ++ wire_unknown u ++ post) = (m2, Nil)
        /\ History_Unmarshal m (pre ++ post) = (m2, Nil))
  /\ (forall (m m1 m2 : VersionHistories) pre post,
        slice_len_ok (pre ++ wire_unknown u ++ post) ->
        Histories_Unmarshal m pre = (m1, Nil) -> Histories_Unmarshal m1 post = (m2, Nil) ->
        Histories_Unmarshal m (pre ++ wire_unknown u ++ post) = (m2, Nil)
        /\ Histories_Unmarshal m (pre ++ post) = (m2, Nil)).
Proof.
  intros Hn.
  assert (Hshort : forall pre post,
             slice_len_ok (pre ++ wire_unknown u ++ post) ->
             slice_len_ok (pre ++ post) /\ slice_len_ok (wire_unknown u ++ post)
             /\ slice_len_ok (wire_unknown u)).
  { unfold slice_len_ok. intros pre post. rewrite !llen_app.
    pose proof (llen_nonneg pre). pose proof (llen_nonneg post).
    pose proof (llen_nonneg (wire_unknown u)). lia. }
  split; [|split]; intros m m1 m2 pre post Hl Hpre Hpost;
    destruct (Hshort pre post Hl) as (H1 & H2 & H3); split.
  - apply Item_Unmarshal_app with (m1 := m1); [exact Hl | exact Hpre |].
    apply Item_Unmarshal_app with (m1 := m1); [exact H2 | | exact Hpost].
    apply Item_Unmarshal_unknown; assumption.
  - apply Item_Unmarshal_app with (m1 := m1); assumption.
  - apply History_Unmarshal_app with (m1 := m1); [exact Hl | exact Hpre |].
    apply History_Unmarshal_app with (m1 := m1); [exact H2 | | exact Hpost].
    apply History_Unmarshal_unknown; assumption.
  - apply History_Unmarshal_app with (m1 := m1); assumption.
  - apply Histories_Unmarshal_app with (m1 := m1); [exact Hl | exact Hpre |].
    apply Histories_Unmarshal_app with (m1 := m1); [exact H2 | | exact Hpost].
    apply Histories_Unmarshal_unknown; assumption.
  - apply Histories_Unmarshal_app with (m1 := m1); assumption.
Qed.

(** A branch set with an unknown group 7 between its index and its
    first branch; the group holds a varint, a byte string and an empty
    group. *)
Lemma unknown_field_skipped_witness :
  unknown_ok unknown_group
  /\ Histories_Unmarshal Histories_zero
       (scalar_entry (key 1 0) 1 ++ wire_unknown unknown_group
        ++ wire_histories (Some (mkHistories 0 (Some [Some vh_ab]))))
     = (mkHistories 1 (Some [History_decoded (Some vh_ab)]), Nil).
Proof.
  assert (Hn : unknown_ok unknown_group)
    by (unfold unknown_ok, unknown_number; cbn; unfold field_number; cbn; lia).
  split; [exact Hn|].
  refine (proj1 (proj2 (proj2 (unknown_field_skipped _ Hn))
                  Histories_zero (mkHistories 1 None) _ _ _ _ _ _)).
  - unfold slice_len_ok. vm_compute. reflexivity.
  - vm_compute. reflexivity.
  - vm_compute. reflexivity.
Defined.

(** ** Repeated fields *)

(** C5. Decoding keeps the order and the number of the entries of a
    repeated field.  For a buffer that is a sequence of well-formed
    fields, the decoded [Items] of a branch are the [Items] the receiver
    had, followed by one element for each items entry of the buffer, in
    the order of the buffer; the same holds of the [Histories] of a
    branch set.  An entry that occurs twice gives two elements. *)
Theorem repeated_fields_in_wire_order :
  (forall (es : list History_entry) (m : VersionHistory),
      Forall History_entry_ok es ->
      slice_len_ok (flat_map wire_History_entry es) ->
      exists m',
        History_Unmarshal m (flat_map wire_History_entry es) = (m', Nil)
        /\ elems (Items m') = elems (Items m) ++ flat_map History_entry_items es)
  /\ (forall (es : list Histories_entry) (m : VersionHistories),
        Forall Histories_entry_ok es ->
        slice_len_ok (flat_map wire_Histories_entry es) ->
        exists m',
          Histories_Unmarshal m (flat_map wire_Histories_entry es) = (m', Nil)
          /\ elems (Histories m')
             = elems (Histories m) ++ flat_map Histories_entry_histories es).
Proof.
  split; intros es m Hok Hl.
  - exists (fold_left History_apply es m). split.
    + apply History_Unmarshal_entries; assumption.
    + apply History_apply_items.
  - exists (fold_left Histories_apply es m). split.
    + apply Histories_Unmarshal_entries; assumption.
    + apply Histories_apply_histories.
Qed.

(** The same item entry twice, around a later one: three elements, in
    the order of the buffer. *)
Lemma repeated_fields_in_wire_order_witness :
  let es := [HItem (wire_item (some_item 8 3)); HItem (wire_item (some_item 5 1));
             HBranchToken ["A"%byte]; HItem (wire_item (some_item 8 3))] in
  Forall History_entry_ok es
  /\ slice_len_ok (flat_map wire_History_entry es)
  /\ exists m',
      History_Unmarshal History_zero (flat_map wire_History_entry es) = (m', Nil)
      /\ elems (Items m') = [some_item 8 3; some_item 5 1; some_item 8 3].
Proof.
  intros es.
  assert (Hok : Forall History_entry_ok es) by (repeat constructor).
  assert (Hl : slice_len_ok (flat_map wire_History_entry es))
    by (unfold slice_len_ok; vm_compute; reflexivity).
  split; [exact Hok|]. split; [exact Hl|].
  destruct (proj1 repeated_fields_in_wire_order es History_zero Hok Hl) as [m' [H1 H2]].
  exists m'. split; [exact H1|]. rewrite H2. vm_compute. reflexivity.
Defined.

(** ** Failure *)

(** C2, as it is stated, fails: the decoders write into the receiver as
    they go and do not undo it.  Here the index 1 and the token "A" are
    in the receiver when the next key turns out to be cut. *)
Lemma Unmarshal_failure_changes_receiver :
  (Histories_Unmarshal Histories_zero [uint8 8; uint8 1; uint8 255]
   = (mkHistories 1 None, Err ErrUnexpectedEOF)
   /\ mkHistories 1 None <> Histories_zero)
  /\ (History_Unmarshal History_zero [uint8 10; uint8 1; "A"%byte; uint8 255]
      = (mkHistory (Some ["A"%byte]) None, Err ErrUnexpectedEOF)
      /\ mkHistory (Some ["A"%byte]) None <> History_zero).
Proof.
  split; split; try (vm_compute; reflexivity); discriminate.
Qed.

(** C2, as the program has it.  When decoding fails the call returns
    the error and leaves in the receiver what it has written so far:
    behind a part of the buffer that decodes, the [Items] (the
    [Histories]) that this part gave are still in the receiver after the
    failure, in their order, followed by what the failing entry added. *)
Theorem Unmarshal_failure_keeps_decoded :
  (forall (m m1 m' : VersionHistory) pre rest e,
      slice_len_ok (pre ++ rest) ->
      History_Unmarshal m pre = (m1, Nil) ->
      History_Unmarshal m (pre ++ rest) = (m', Err e) ->
      Items_extended m1 m')
  /\ (forall (m m1 m' : VersionHistories) pre rest e,
        slice_len_ok (pre ++ rest) ->
        Histories_Unmarshal m pre = (m1, Nil) ->
        Histories_Unmarshal m (pre ++ rest) = (m', Err e) ->
        Histories_extended m1 m').
Proof.
  split; intros m m1 m' pre rest e Hl Hpre Hfail.
  - unfold History_Unmarshal in *.
    rewrite (decode_loop_app History_step pre rest m m1 History_step_frame Hl Hpre) in Hfail.
    pose proof (decode_loop_inv Items_extended History_step Items_extended_refl
                  Items_extended_trans History_step_extends
                  (length (pre ++ rest)) (pre ++ rest) m1 (llen pre)) as H.
    rewrite Hfail in H. exact H.
  - unfold Histories_Unmarshal in *.
    rewrite (decode_loop_app Histories_step pre rest m m1 Histories_step_frame Hl Hpre)
      in Hfail.
    pose proof (decode_loop_inv Histories_extended Histories_step Histories_extended_refl
                  Histories_extended_trans Histories_step_extends
                  (length (pre ++ rest)) (pre ++ rest) m1 (llen pre)) as H.
    rewrite Hfail in H. exact H.
Qed.

(** Two items decode, the third is cut inside its bytes: the two items
    stay, followed by the item that was being decoded. *)
Lemma Unmarshal_failure_keeps_decoded_witness :
  let pre := delimited_field 18 (wire_item (some_item 5 1))
             ++ delimited_field 18 (wire_item (some_item 8 3)) in
  let rest := [uint8 18; uint8 1; uint8 8] in
  slice_len_ok (pre ++ rest)
  /\ History_Unmarshal History_zero pre
     = (mkHistory None (Some [some_item 5 1; some_item 8 3]), Nil)
  /\ History_Unmarshal History_zero (pre ++ rest)
     = (mkHistory None (Some [some_item 5 1; some_item 8 3; some_item 0 0]),
        Err ErrUnexpectedEOF)
  /\ Items_extended (mkHistory None (Some [some_item 5 1; some_item 8 3]))
                    (mkHistory None (Some [some_item 5 1; some_item 8 3; some_item 0 0])).
Proof.
  intros pre rest.
  assert (Hl : slice_len_ok (pre ++ rest)) by (unfold slice_len_ok; vm_compute; reflexivity).
  assert (H1 : History_Unmarshal History_zero pre
               = (mkHistory None (Some [some_item 5 1; some_item 8 3]), Nil))
    by (vm_compute; reflexivity).
  assert (H2 : History_Unmarshal History_zero (pre ++ rest)
               = (mkHistory None (Some [some_item 5 1; some_item 8 3; some_item 0 0]),
                  Err ErrUnexpectedEOF))
    by (vm_compute; reflexivity).
  split; [exact Hl|]. split; [exact H1|]. split; [exact H2|].
  exact (proj1 Unmarshal_failure_keeps_decoded _ _ _ pre rest _ Hl H1 H2).
Defined.

(** ** Malformed buffers *)

(** C6. A buffer whose fields decode up to a malformed one is rejected
    with the error of that field: [ErrIntOverflowMessage] for a varint
    that continues after ten bytes, [ErrInvalidLengthMessage] for a
    length that is negative or overflows the cursor,
    [io.ErrUnexpectedEOF] for a buffer that ends inside a field, and for
    an embedded message the error of its own bytes.  This holds for the
    three decoders, whatever follows the malformed field. *)
Theorem malformed_rejected :
  (forall (m m1 : VersionHistoryItem) pre bad e,
      slice_len_ok (pre ++ bad) ->
      Item_Unmarshal m pre = (m1, Nil) ->
      malformed Item_kind (llen pre) bad e ->
      snd (Item_Unmarshal m (pre ++ bad)) = Err e)
  /\ (forall (m m1 : VersionHistory) pre bad e,
        slice_len_ok (pre ++ bad) ->
        History_Unmarshal m pre = (m1, Nil) ->
        malformed History_kind (llen pre) bad e ->
        snd (History_Unmarshal m (pre ++ bad)) = Err e)
  /\ (forall (m m1 : VersionHistories) pre bad e,
        slice_len_ok (pre ++ bad) ->
        Histories_Unmarshal m pre = (m1, Nil) ->
        malformed Histories_kind (llen pre) bad e ->
        snd (Histories_Unmarshal m (pre ++ bad)) = Err e).
Proof.
  split; [|split]; intros m m1 pre bad e Hl Hpre Hbad.
  - exact (decode_malformed Item_kind Item_step pre bad m m1 e
             Item_step_frame Item_step_pass Hl Hpre Hbad).
  - exact (decode_malformed History_kind History_step pre bad m m1 e
             History_step_frame History_step_pass Hl Hpre Hbad).
  - exact (decode_malformed Histories_kind Histories_step pre bad m m1 e
             Histories_step_frame Histories_step_pass Hl Hpre Hbad).
Qed.

(** Three malformed buffers: an item that ends inside its version, a
    branch whose items entry has the length -1, and a branch set whose
    second key has eleven bytes. *)
Lemma malformed_rejected_witness :
  snd (Item_Unmarshal Item_zero ([uint8 8; uint8 5] ++ item_cut)) = Err ErrUnexpectedEOF
  /\ snd (History_Unmarshal History_zero ([] ++ history_negative))
     = Err ErrInvalidLengthMessage
  /\ snd (Histories_Unmarshal Histories_zero ([uint8 8; uint8 1] ++ histories_overlong))
     = Err ErrIntOverflowMessage.
Proof.
  split; [|split].
  - refine (proj1 malformed_rejected Item_zero (mkItem 5 0) _ _ _ _ _ _).
    + unfold slice_len_ok. vm_compute. reflexivity.
    + vm_compute. reflexivity.
    + refine (Mal_scalar_cut Item_kind _ 2 int64 (fun m v => mkItem (EventId m) v)
                [uint8 128] _ _ _).
      * lia.
      * reflexivity.
      * split; [cbn; lia | repeat constructor; vm_compute; discriminate].
  - refine (proj1 (proj2 malformed_rejected) History_zero History_zero _ _ _ _ _ _).
    + unfold slice_len_ok. vm_compute. reflexivity.
    + vm_compute. reflexivity.
    + refine (Mal_length_negative History_kind _ 2 _
                (repeat (uint8 255) 9 ++ [uint8 1]) (-1) [uint8 8; uint8 5] _ _ _ _).
      * lia.
      * reflexivity.
      * vm_compute. reflexivity.
      * lia.
  - refine (proj2 (proj2 malformed_rejected) Histories_zero (mkHistories 1 None) _ _ _ _ _ _).
    + unfold slice_len_ok. vm_compute. reflexivity.
    + vm_compute. reflexivity.
    + refine (Mal_key_overlong Histories_kind _ (repeat (uint8 128) 10) [uint8 1] _).
      split; [reflexivity | repeat constructor; vm_compute; discriminate].
Defined.

(** The tenth byte of a varint holds one bit of the number; the bits
    above it are dropped without an error, as [uint64(b&0x7F) << 63]
    drops them. *)
Example tenth_byte_high_bits_dropped :
  Item_Unmarshal Item_zero (uint8 8 :: repeat (uint8 128) 9 ++ [uint8 126])
  = (mkItem 0 0, Nil).
Proof. vm_compute. reflexivity. Qed.

(** * Further properties of the codec *)

(** ** Varints *)

Lemma sovMessage_threshold (n : nat) :
  forall x, 0 <= x ->
    (sovMessage x <= Z.of_nat n + 1 <-> x < 2 ^ (7 * (Z.of_nat n + 1))).
Proof.
  induction n as [|n IH]; intros x Hx.
  - change (2 ^ (7 * (Z.of_nat 0 + 1))) with 128. cbn [Z.of_nat Z.add].
    destruct (Z_lt_le_dec x 128).
    + rewrite sovMessage_small by lia. lia.
    + rewrite sovMessage_large by lia.
      assert (0 <= Z.shiftr x 7) by (apply Z.shiftr_nonneg; lia).
      pose proof (sovMessage_pos (Z.shiftr x 7)). lia.
  - assert (Hp : 2 ^ (7 * (Z.of_nat (S n) + 1)) = 128 * 2 ^ (7 * (Z.of_nat n + 1))).
    { replace (7 * (Z.of_nat (S n) + 1)) with (7 + 7 * (Z.of_nat n + 1)) by lia.
      rewrite Z.pow_add_r by lia. reflexivity. }
    assert (0 < 2 ^ (7 * (Z.of_nat n + 1))) by (apply Z.pow_pos_nonneg; lia).
    destruct (Z_lt_le_dec x 128).
    + rewrite sovMessage_small by lia. lia.
    + rewrite sovMessage_large by lia.
      assert (Hs : 0 <= Z.shiftr x 7) by (apply Z.shiftr_nonneg; lia).
      specialize (IH (Z.shiftr x 7) Hs). rewrite Hp.
      rewrite Z.shiftr_div_pow2 in * by lia. change (2 ^ 7) with 128 in *.
      pose proof (Z.div_mod x 128 ltac:(lia)). pose proof (Z.mod_pos_bound x 128 ltac:(lia)).
      lia.
Qed.

(** X1. [sovMessage(x)] is the number of groups of seven bits that [x]
    needs: between 1 and 10 for a 64-bit number, and at most [k] exactly
    when [x] is below [2^(7k)]. *)
Theorem sovMessage_seven_bit_groups (x : Z) :
  is_uint64 x ->
  1 <= sovMessage x <= 10
  /\ forall k, 1 <= k -> (sovMessage x <= k <-> x < 2 ^ (7 * k)).
Proof.
  unfold is_uint64. intros Hx. split.
  - split; [apply sovMessage_pos; lia | apply sovMessage_le_10; exact Hx].
  - intros k Hk.
    pose proof (sovMessage_threshold (Z.to_nat (k - 1)) x ltac:(lia)) as H.
    replace (Z.of_nat (Z.to_nat (k - 1)) + 1) with k in H by lia. exact H.
Qed.

Lemma sovMessage_seven_bit_groups_witness :
  is_uint64 300 /\ sovMessage 300 = 2.
Proof.
  assert (H : is_uint64 300) by (unfold is_uint64; lia).
  split; [exact H|].
  destruct (sovMessage_seven_bit_groups 300 H) as [[H1 _] Hk].
  pose proof (proj2 (Hk 2 ltac:(lia)) ltac:(lia)).
  pose proof (Hk 1 ltac:(lia)) as H1'. 
  destruct (Z_le_gt_dec (sovMessage 300) 1) as [Hle|Hgt]; [|lia].
  apply H1' in Hle. lia.
Defined.

Lemma store_length (d d' : list byte) (i : Z) (b : byte) :
  store d i b = Returns d' -> llen d' = llen d.
Proof.
  unfold store. destruct (Z.leb_spec 0 i); [|discriminate].
  destruct (Z.ltb_spec i (llen d)); [|discriminate].
  change (true && true) with true. cbv iota. intros E.
  assert (E' : d' = firstn (Z.to_nat i) d ++ b :: skipn (S (Z.to_nat i)) d) by congruence.
  rewrite E'. unfold llen in *.
  rewrite length_app, length_cons, length_firstn, length_skipn. lia.
Qed.

Lemma store_out_of_range (d : list byte) (i : Z) (b : byte) :
  i < 0 \/ llen d <= i -> store d i b = Panics.
Proof.
  unfold store. intros H.
  destruct (Z.leb_spec 0 i); destruct (Z.ltb_spec i (llen d)); try reflexivity; lia.
Qed.

Lemma encodeVarint_loop_short (fuel : nat) :
  forall dAtA o v,
    0 <= v < 2 ^ (7 * (Z.of_nat fuel + 1)) ->
    o < 0 \/ llen dAtA < o + sovMessage v ->
    encodeVarint_loop fuel dAtA o v = Panics.
Proof.
  induction fuel as [|fuel IH]; intros dAtA o v Hv Ho; cbn [encodeVarint_loop].
  - change (2 ^ (7 * (Z.of_nat 0 + 1))) with 128 in Hv.
    destruct (Z.leb_spec 128 v); [lia|].
    rewrite sovMessage_small in Ho by lia. apply store_out_of_range. lia.
  - destruct (Z.leb_spec 128 v).
    + rewrite sovMessage_large in Ho by lia.
      assert (0 <= Z.shiftr v 7) by (apply Z.shiftr_nonneg; lia).
      pose proof (sovMessage_pos (Z.shiftr v 7) ltac:(lia)).
      destruct (store dAtA o _) as [d'| |] eqn:Hs; cbn [bind]; try reflexivity.
      * apply IH; [apply shiftr7_bound; exact Hv|].
        pose proof (store_length _ _ _ _ Hs).
        right. unfold store in Hs.
        destruct (Z.leb_spec 0 o); [|discriminate]. lia.
      * unfold store in Hs. destruct ((0 <=? o) && (o <? llen dAtA)); discriminate.
    + rewrite sovMessage_small in Ho by lia. apply store_out_of_range. lia.
Qed.

Lemma encodeVarintMessage_returns (dAtA : list byte) (offset v : Z) :
  is_uint64 v ->
  sovMessage v <= offset <= llen dAtA ->
  encodeVarintMessage dAtA offset v
  = Returns (upto dAtA (offset - sovMessage v) ++ varint v ++ from dAtA offset,
             offset - sovMessage v).
Proof.
  intros Hv Ho. pose proof (sovMessage_pos v ltac:(unfold is_uint64 in Hv; lia)) as Hp.
  destruct (split_length dAtA offset ltac:(lia)) as (ab & post & E & Hab).
  destruct (split_length ab (offset - sovMessage v) ltac:(lia)) as (pre & hole & E' & Hpre).
  subst ab dAtA.
  assert (Hh : llen hole = sovMessage v) by (rewrite llen_app in Hab; lia).
  rewrite <- Hpre. rewrite <- Hab.
  rewrite from_app. rewrite <- app_assoc. rewrite upto_app.
  apply encodeVarintMessage_at with (hole := hole); try assumption; try reflexivity.
  rewrite llen_app. reflexivity.
Qed.

Lemma encodeVarintMessage_panics (dAtA : list byte) (offset v : Z) :
  is_uint64 v ->
  offset < sovMessage v \/ llen dAtA < offset ->
  encodeVarintMessage dAtA offset v = Panics.
Proof.
  intros Hv Ho. unfold encodeVarintMessage.
  rewrite encodeVarint_loop_short; [reflexivity | |].
  - unfold is_uint64 in Hv. change (2 ^ (7 * (Z.of_nat 9 + 1))) with (2 ^ 70). lia.
  - lia.
Qed.

(** X2. [encodeVarintMessage(dAtA, offset, v)] needs [sovMessage(v)]
    bytes in front of [offset]: it writes the varint of [v] there, leaves
    the other bytes as they are and returns where the varint begins; with
    fewer bytes in front of [offset], or with [offset] behind the end of
    the slice, it panics. *)
Theorem encodeVarintMessage_bounds (dAtA : list byte) (offset v : Z) :
  is_uint64 v ->
  (sovMessage v <= offset <= llen dAtA ->
   encodeVarintMessage dAtA offset v
   = Returns (upto dAtA (offset - sovMessage v) ++ varint v ++ from dAtA offset,
              offset - sovMessage v))
  /\ (offset < sovMessage v \/ llen dAtA < offset ->
      encodeVarintMessage dAtA offset v = Panics).
Proof.
  intros Hv. split.
  - apply encodeVarintMessage_returns. exact Hv.
  - apply encodeVarintMessage_panics. exact Hv.
Qed.

Lemma encodeVarintMessage_bounds_witness :
  is_uint64 300
  /\ encodeVarintMessage (make 4) 3 300 = Returns ([x00; xac; x02; x00], 1)
  /\ encodeVarintMessage (make 4) 1 300 = Panics.
Proof.
  assert (H : is_uint64 300) by (unfold is_uint64; lia).
  split; [exact H|].
  destruct (encodeVarintMessage_bounds (make 4) 3 300 H) as [H1 _].
  destruct (encodeVarintMessage_bounds (make 4) 1 300 H) as [_ H2].
  split.
  - rewrite H1 by (vm_compute; split; discriminate). vm_compute. reflexivity.
  - apply H2. left. vm_compute. reflexivity.
Defined.

(** X3. What [encodeVarintMessage] writes, the varint loop of the
    decoders reads back: started where the varint begins, it stops at
    [offset] with the number, converted to the type of the field. *)
Theorem encodeVarintMessage_read_back (conv : Z -> Z) (dAtA : list byte) (offset v : Z) :
  lor_morphism conv ->
  is_uint64 v ->
  sovMessage v <= offset <= llen dAtA ->
  exists dAtA' base,
    encodeVarintMessage dAtA offset v = Returns (dAtA', base)
    /\ base = offset - sovMessage v
    /\ read_varint conv dAtA' base = (conv v, offset, None).
Proof.
  intros Hc Hv Ho.
  pose proof (sovMessage_pos v ltac:(unfold is_uint64 in Hv; lia)) as Hp.
  eexists _, _. split; [apply encodeVarintMessage_returns; assumption|].
  split; [reflexivity|].
  assert (Hl : llen (upto dAtA (offset - sovMessage v)) = offset - sovMessage v).
  { unfold upto, llen in *. rewrite length_firstn. lia. }
  rewrite <- Hl at 2.
  rewrite (read_varint_at conv v _ _ Hc Hv). rewrite Hl, varint_length by exact Hv.
  f_equal. f_equal. lia.
Qed.

Lemma encodeVarintMessage_read_back_witness :
  exists dAtA' base,
    encodeVarintMessage (make 12) 11 (uint64 (-2)) = Returns (dAtA', base)
    /\ base = 11 - sovMessage (uint64 (-2))
    /\ read_varint int64 dAtA' base = (int64 (uint64 (-2)), 11, None).
Proof.
  apply (encodeVarintMessage_read_back int64 (make 12) 11 (uint64 (-2)) int64_lor).
  - apply uint64_range.
  - vm_compute. split; discriminate.
Defined.

(** ** Zig-zag *)

Lemma lxor_ones_64 (a : Z) : 0 <= a < 2 ^ 64 -> Z.lxor a (2 ^ 64 - 1) = 2 ^ 64 - 1 - a.
Proof.
  intros H. change (Z.lxor a (2 ^ 64 - 1)) with (Z.lxor a (Z.ones 64)).
  assert (E : Z.lxor a (Z.ones 64) = Z.land (Z.lnot a) (Z.ones 64)).
  { apply Z.bits_inj'. intros n Hn.
    rewrite Z.lxor_spec, Z.land_spec, Z.lnot_spec by lia.
    destruct (Z_lt_le_dec n 64).
    - rewrite Z.ones_spec_low by lia. rewrite andb_true_r. apply xorb_true_r.
    - rewrite Z.ones_spec_high by lia. rewrite andb_false_r, xorb_false_r.
      apply Z.bits_above_log2; [lia|].
      destruct (Z.eq_dec a 0) as [->|]; [simpl; lia|].
      assert (Z.log2 a < 64) by (apply Z.log2_lt_pow2; lia). lia. }
  rewrite E, Z.land_ones by lia.
  replace (Z.lnot a) with (- a - 1) by (unfold Z.lnot; lia).
  symmetry. apply Z.mod_unique with (q := -1); lia.
Qed.

(** X4. [sozMessage] is the size of the zig-zag form: for a signed
    64-bit [v], given as its [uint64] conversion, it is
    [sovMessage] of [2v] when [v >= 0] and of [-2v-1] when [v < 0];
    numbers from -64 to 63 take one byte. *)
Theorem sozMessage_zigzag (v : Z) :
  is_int64 v ->
  sozMessage (uint64 v) = sovMessage (zigzag v)
  /\ (- 64 <= v < 64 -> sozMessage (uint64 v) = 1).
Proof.
  unfold is_int64. intros Hv.
  assert (E : sozMessage (uint64 v) = sovMessage (zigzag v)).
  { unfold sozMessage, zigzag. rewrite int64_uint64, int64_small by exact Hv.
    f_equal. destruct (Z.leb_spec 0 v).
    - rewrite (uint64_small v) by (unfold is_uint64; lia).
      replace (Z.shiftr v 63) with 0
        by (symmetry; rewrite Z.shiftr_div_pow2 by lia; apply Z.div_small; lia).
      rewrite Z.shiftl_mul_pow2 by lia.
      rewrite (uint64_small (v * 2 ^ 1)) by (unfold is_uint64; lia).
      change (uint64 0) with 0. rewrite Z.lxor_0_r.
      rewrite uint64_small by (unfold is_uint64; lia). lia.
    - assert (Hu : uint64 v = v + 2 ^ 64).
      { unfold uint64. symmetry. apply Z.mod_unique with (q := -1); lia. }
      rewrite Hu.
      replace (Z.shiftr v 63) with (-1).
      2:{ rewrite Z.shiftr_div_pow2 by lia. apply Z.div_unique with (r := v + 2 ^ 63); lia. }
      change (uint64 (-1)) with (2 ^ 64 - 1).
      rewrite Z.shiftl_mul_pow2 by lia.
      assert (Hs : uint64 ((v + 2 ^ 64) * 2 ^ 1) = 2 * v + 2 ^ 64).
      { unfold uint64. symmetry. apply Z.mod_unique with (q := 1); lia. }
      rewrite Hs. rewrite lxor_ones_64 by lia.
      rewrite uint64_small by (unfold is_uint64; lia). lia. }
  split; [exact E|].
  intros Hs. rewrite E. apply sovMessage_small. unfold zigzag.
  destruct (Z.leb_spec 0 v); lia.
Qed.

Lemma sozMessage_zigzag_witness :
  is_int64 (-64) /\ sozMessage (uint64 (-64)) = 1 /\ sovMessage (uint64 (-64)) = 10.
Proof.
  assert (H : is_int64 (-64)) by (unfold is_int64; lia).
  split; [exact H|]. split.
  - apply (proj2 (sozMessage_zigzag (-64) H)). lia.
  - vm_compute. reflexivity.
Defined.

(** ** [MarshalToSizedBuffer] on any buffer *)

Lemma llen_upto (d : list byte) (i : Z) : 0 <= i <= llen d -> llen (upto d i) = i.
Proof. unfold upto, llen. intros H. rewrite length_firstn. lia. Qed.

Lemma upto_from (d : list byte) (i : Z) : upto d i ++ from d i = d.
Proof. apply firstn_skipn. Qed.

Lemma encodeVarintMessage_spec (d : list byte) (o v : Z) :
  is_uint64 v ->
  encodeVarintMessage d o v
  = if (sovMessage v <=? o) && (o <=? llen d)
    then Returns (upto d (o - sovMessage v) ++ varint v ++ from d o, o - sovMessage v)
    else Panics.
Proof.
  intros Hv.
  destruct (Z.leb_spec (sovMessage v) o); destruct (Z.leb_spec o (llen d));
    cbn [andb]; cbv iota.
  - apply encodeVarintMessage_returns; [exact Hv | lia].
  - apply encodeVarintMessage_panics; [exact Hv | lia].
  - apply encodeVarintMessage_panics; [exact Hv | lia].
  - apply encodeVarintMessage_panics; [exact Hv | lia].
Qed.

Lemma put_varint_field_spec (d : list byte) (i v tag : Z) :
  is_uint64 v ->
  put_varint_field d i v tag
  = if (1 + sovMessage v <=? i) && (i <=? llen d)
    then Returns (upto d (i - 1 - sovMessage v) ++ uint8 tag :: varint v ++ from d i,
                  i - 1 - sovMessage v)
    else Panics.
Proof.
  intros Hv. pose proof (sovMessage_pos v ltac:(unfold is_uint64 in Hv; lia)) as Hp.
  destruct (Z.leb_spec (1 + sovMessage v) i); destruct (Z.leb_spec i (llen d));
    cbn [andb]; cbv iota.
  - destruct (split_length d i ltac:(lia)) as (ab & post & E & Hab).
    destruct (split_length ab (i - 1 - sovMessage v) ltac:(lia)) as (pre & hole & E' & Hpre).
    subst ab d. rewrite llen_app in Hab. rewrite <- app_assoc.
    assert (E1 : i - 1 - sovMessage v = llen pre) by lia.
    assert (E2 : i = llen pre + llen hole) by lia.
    rewrite E1, E2. rewrite upto_app.
    replace (from (pre ++ hole ++ post) (llen pre + llen hole)) with post
      by (rewrite app_assoc, <- llen_app; symmetry; apply from_app).
    apply put_varint_field_app; [exact Hv | lia].
  - unfold put_varint_field. rewrite encodeVarintMessage_panics by (assumption || lia).
    reflexivity.
  - unfold put_varint_field. rewrite encodeVarintMessage_spec by exact Hv.
    destruct (Z.leb_spec (sovMessage v) i); cbn [andb bind]; [|reflexivity].
    destruct (Z.leb_spec i (llen d)); [|lia]. cbn [bind].
    rewrite store_out_of_range by lia. reflexivity.
  - unfold put_varint_field. rewrite encodeVarintMessage_panics by (assumption || lia).
    reflexivity.
Qed.

Lemma fills_of_writes {A} (sub : ptr A -> list byte -> exec (list byte * Z * option error))
    (wire : ptr A -> list byte) (e : ptr A) :
  writes_at_end sub (wire e) e -> fills sub wire e.
Proof.
  intros H pre hole Hl. rewrite H. rewrite llen_app.
  pose proof (llen_nonneg pre).
  destruct (Z.leb_spec (llen (wire e)) (llen pre + llen hole)); [|lia].
  replace (llen pre + llen hole - llen (wire e)) with (llen pre) by lia.
  rewrite upto_app, Hl. reflexivity.
Qed.

Lemma writes_of_fills {A} (sub : ptr A -> list byte -> exec (list byte * Z * option error))
    (wire : ptr A -> list byte) (e : ptr A) :
  fills sub wire e ->
  (forall d, llen d < llen (wire e) -> sub e d = Panics) ->
  writes_at_end sub (wire e) e.
Proof.
  intros Hf Hs d. pose proof (llen_nonneg (wire e)).
  destruct (Z.leb_spec (llen (wire e)) (llen d)); [|apply Hs; lia].
  destruct (split_length d (llen d - llen (wire e)) ltac:(lia)) as (pre & hole & -> & Hpre).
  assert (Hh : llen hole = llen (wire e)) by (rewrite llen_app in Hpre; lia).
  rewrite (Hf pre hole Hh). rewrite <- Hpre. rewrite upto_app, Hh. reflexivity.
Qed.

Lemma Item_short (m : VersionHistoryItem) (d : list byte) :
  llen d < llen (wire_item (Some m)) -> Item_MarshalToSizedBuffer (Some m) d = Panics.
Proof.
  cbn [wire_item]. rewrite llen_app, !varint_field_length. intros H.
  pose proof (llen_nonneg d).
  unfold Item_MarshalToSizedBuffer. cbv zeta.
  destruct (Version m =? 0); destruct (EventId m =? 0); cbn [negb bind] in *; try lia.
  - rewrite put_varint_field_spec by apply uint64_range.
    destruct (Z.leb_spec (1 + sovMessage (uint64 (EventId m))) (llen d)); [lia|].
    reflexivity.
  - rewrite put_varint_field_spec by apply uint64_range.
    destruct (Z.leb_spec (1 + sovMessage (uint64 (Version m))) (llen d)); [lia|].
    reflexivity.
  - rewrite put_varint_field_spec by apply uint64_range.
    destruct (Z.leb_spec (1 + sovMessage (uint64 (Version m))) (llen d)); [|reflexivity].
    rewrite Z.leb_refl. cbn [andb bind].
    rewrite put_varint_field_spec by apply uint64_range.
    destruct (Z.leb_spec (1 + sovMessage (uint64 (EventId m)))
                (llen d - 1 - sovMessage (uint64 (Version m)))); [lia|].
    reflexivity.
Qed.

Lemma Item_writes (m : VersionHistoryItem) :
  writes_at_end Item_MarshalToSizedBuffer (wire_item (Some m)) (Some m).
Proof.
  apply (writes_of_fills Item_MarshalToSizedBuffer wire_item (Some m)).
  - apply Item_fills. discriminate.
  - apply Item_short.
Qed.

Lemma put_repeated_short {A} (sub : ptr A -> list byte -> exec (list byte * Z * option error))
    (wire : ptr A -> list byte) (elts : list (ptr A)) :
  Forall (fun e => writes_at_end sub (wire e) e) elts ->
  forall d i,
    0 <= i ->
    i < llen (flat_map (fun e => delimited_field 18 (wire e)) (rev elts)) ->
    put_repeated sub elts d i = Panics.
Proof.
  induction 1 as [|e elts He Hall IH]; intros d i Hi Hs.
  - cbn in Hs. lia.
  - cbn [rev] in Hs. rewrite flat_map_app, llen_app in Hs. cbn [flat_map] in Hs.
    rewrite app_nil_r, delimited_field_length in Hs.
    pose proof (llen_nonneg (wire e)).
    cbn [put_repeated]. unfold slice_to.
    destruct (Z.leb_spec 0 i); [|lia].
    destruct (Z.leb_spec i (llen d)); cbn [andb bind]; [|reflexivity].
    rewrite He. rewrite llen_upto by lia.
    destruct (Z.leb_spec (llen (wire e)) i); cbn [bind]; [|reflexivity].
    rewrite encodeVarintMessage_spec by apply uint64_range.
    destruct (Z.leb_spec (sovMessage (uint64 (llen (wire e)))) (i - llen (wire e)));
      cbn [andb bind]; [|reflexivity].
    destruct (_ <=? _); cbn [bind]; [|reflexivity].
    unfold store at 1.
    destruct (Z.leb_spec 0 (i - llen (wire e) - sovMessage (uint64 (llen (wire e))) - 1));
      cbn [andb bind]; [|reflexivity].
    destruct (_ <? _); cbn [bind]; [|reflexivity].
    apply IH; lia.
Qed.

Lemma History_short (m : VersionHistory) (d : list byte) :
  History_nonnil (Some m) ->
  llen d < llen (wire_history (Some m)) ->
  History_MarshalToSizedBuffer (Some m) d = Panics.
Proof.
  intros Hm. cbn [History_nonnil wire_history] in *. rewrite llen_app. intros Hs.
  unfold History_MarshalToSizedBuffer. cbv zeta.
  set (body := flat_map (fun e => delimited_field 18 (wire_item e)) (elems (Items m))) in *.
  pose proof (llen_nonneg d). pose proof (llen_nonneg body).
  assert (Hw : Forall (fun e => writes_at_end Item_MarshalToSizedBuffer (wire_item e) e)
                 (rev (elems (Items m)))).
  { rewrite Forall_forall in *. intros e He. apply in_rev in He.
    specialize (Hm e He). destruct e as [x|]; [apply Item_writes | contradiction]. }
  destruct (Z_lt_le_dec (llen d) (llen body)).
  - rewrite (put_repeated_short _ wire_item _ Hw) by (rewrite ?rev_involutive; fold body; lia).
    reflexivity.
  - destruct (split_length d (llen d - llen body) ltac:(lia)) as (pre & hole & -> & Hpre).
    rewrite llen_app in *.
    rewrite (put_repeated_app _ wire_item _
               (Forall_impl _ (fun e H => fills_of_writes _ wire_item e H) Hw)
               pre hole [] (pre ++ hole) (llen pre + llen hole))
      by (rewrite ?app_nil_r, ?rev_involutive; fold body; reflexivity || lia).
    rewrite rev_involutive. fold body. cbn [bind]. rewrite app_nil_r.
    unfold len in *. fold (llen (elems (BranchToken m))) in *.
    destruct (0 <? llen (elems (BranchToken m))); [|rewrite llen_nil in Hs; lia].
    rewrite delimited_field_length in Hs.
    unfold copy_at.
    destruct ((0 <=? llen pre - llen (elems (BranchToken m)))
              && (llen pre - llen (elems (BranchToken m)) <=? llen (pre ++ body)));
      cbn [bind]; [|reflexivity].
    rewrite encodeVarintMessage_spec by apply uint64_range.
    destruct (Z.leb_spec (sovMessage (uint64 (llen (elems (BranchToken m)))))
                (llen pre - llen (elems (BranchToken m)))); cbn [andb bind]; [|reflexivity].
    destruct (_ <=? _); cbn [bind]; [|reflexivity].
    rewrite store_out_of_range by lia. reflexivity.
Qed.

Lemma History_writes (m : VersionHistory) :
  History_nonnil (Some m) ->
  writes_at_end History_MarshalToSizedBuffer (wire_history (Some m)) (Some m).
Proof.
  intros Hm. apply (writes_of_fills History_MarshalToSizedBuffer wire_history (Some m)).
  - apply History_fills. exact Hm.
  - intros d. apply History_short. exact Hm.
Qed.

Lemma Histories_short (m : VersionHistories) (d : list byte) :
  Histories_nonnil (Some m) ->
  llen d < llen (wire_histories (Some m)) ->
  Histories_MarshalToSizedBuffer (Some m) d = Panics.
Proof.
  intros Hm. cbn [Histories_nonnil wire_histories] in *. rewrite llen_app. intros Hs.
  unfold Histories_MarshalToSizedBuffer. cbv zeta.
  set (body := flat_map (fun e => delimited_field 18 (wire_history e)) (elems (Histories m)))
    in *.
  pose proof (llen_nonneg d). pose proof (llen_nonneg body).
  assert (Hw : Forall (fun e => writes_at_end History_MarshalToSizedBuffer (wire_history e) e)
                 (rev (elems (Histories m)))).
  { rewrite Forall_forall in *. intros e He. apply in_rev in He.
    specialize (Hm e He). destruct e as [x|]; [apply History_writes; exact Hm | contradiction]. }
  destruct (Z_lt_le_dec (llen d) (llen body)).
  - rewrite (put_repeated_short _ wire_history _ Hw)
      by (rewrite ?rev_involutive; fold body; lia).
    reflexivity.
  - destruct (split_length d (llen d - llen body) ltac:(lia)) as (pre & hole & -> & Hpre).
    rewrite llen_app in *.
    rewrite (put_repeated_app _ wire_history _
               (Forall_impl _ (fun e H => fills_of_writes _ wire_history e H) Hw)
               pre hole [] (pre ++ hole) (llen pre + llen hole))
      by (rewrite ?app_nil_r, ?rev_involutive; fold body; reflexivity || lia).
    rewrite rev_involutive. fold body. cbn [bind]. rewrite app_nil_r.
    rewrite varint_field_length in Hs.
    destruct (CurrentVersionHistoryIndex m =? 0); cbn [negb bind]; [lia|].
    rewrite put_varint_field_spec by apply uint64_range.
    destruct (Z.leb_spec (1 + sovMessage (uint64 (CurrentVersionHistoryIndex m))) (llen pre));
      [lia|].
    reflexivity.
Qed.

Lemma Histories_writes (m : VersionHistories) :
  Histories_nonnil (Some m) ->
  writes_at_end Histories_MarshalToSizedBuffer (wire_histories (Some m)) (Some m).
Proof.
  intros Hm. apply (writes_of_fills Histories_MarshalToSizedBuffer wire_histories (Some m)).
  - apply Histories_fills. exact Hm.
  - intros d. apply Histories_short. exact Hm.
Qed.

(** X5. [MarshalToSizedBuffer] writes the encoding, the bytes that
    [Marshal] returns, into the last bytes of its buffer and returns
    their number; the bytes in front are left as they are.  On a buffer
    shorter than the encoding it panics.  This holds for every item and
    for every branch and branch set without nil pointers. *)
Theorem MarshalToSizedBuffer_writes_at_end :
  (forall m : VersionHistoryItem,
      exists bytes,
        Item_Marshal (Some m) = Returns (Some bytes, None)
        /\ writes_at_end Item_MarshalToSizedBuffer bytes (Some m))
  /\ (forall m : VersionHistory,
        History_nonnil (Some m) ->
        exists bytes,
          History_Marshal (Some m) = Returns (Some bytes, None)
          /\ writes_at_end History_MarshalToSizedBuffer bytes (Some m))
  /\ (forall m : VersionHistories,
        Histories_nonnil (Some m) ->
        exists bytes,
          Histories_Marshal (Some m) = Returns (Some bytes, None)
          /\ writes_at_end Histories_MarshalToSizedBuffer bytes (Some m)).
Proof.
  split; [|split].
  - intros m. exists (wire_item (Some m)). split; [apply Item_Marshal_wire | apply Item_writes].
  - intros m Hm. exists (wire_history (Some m)).
    split; [apply History_Marshal_wire | apply History_writes]; exact Hm.
  - intros m Hm. exists (wire_histories (Some m)).
    split; [apply Histories_Marshal_wire | apply Histories_writes]; exact Hm.
Qed.

Lemma MarshalToSizedBuffer_writes_at_end_witness :
  Histories_nonnil (Some vhs_two)
  /\ exists bytes,
      Histories_Marshal (Some vhs_two) = Returns (Some bytes, None)
      /\ Histories_MarshalToSizedBuffer (Some vhs_two) (make 3) = Panics
      /\ Histories_MarshalToSizedBuffer (Some vhs_two) (make (llen bytes + 2))
         = Returns (make 2 ++ bytes, llen bytes, None).
Proof.
  split; [exact vhs_two_nonnil|].
  destruct (proj2 (proj2 MarshalToSizedBuffer_writes_at_end) vhs_two vhs_two_nonnil)
    as (bytes & Hb & Hw).
  exists bytes. split; [exact Hb|].
  assert (E : bytes = wire_histories (Some vhs_two)).
  { rewrite Histories_Marshal_wire in Hb by exact vhs_two_nonnil. congruence. }
  split; rewrite Hw, E; vm_compute; reflexivity.
Defined.
(** * The branch operations *)

Module CoreFacts.
Import Core.

(** ** Append *)

Lemma LastItem_app (its : list VersionHistoryItem) (x : VersionHistoryItem) :
  LastItem (its ++ [x]) = Some x.
Proof. unfold LastItem. rewrite map_app. apply last_last. Qed.

Lemma LastItem_nonempty (its : list VersionHistoryItem) :
  its <> [] -> exists x, LastItem its = Some x /\ In x its.
Proof.
  intros H. destruct (exists_last H) as (l & x & ->).
  exists x. split; [apply LastItem_app | apply in_or_app; right; left; reflexivity].
Qed.

(** ** FindLCA of a branch with itself *)

Lemma covering_self (a : list VersionHistoryItem) (it : VersionHistoryItem) :
  increasing_ids a -> In it a -> covering a (EventId it) = Some it.
Proof.
  unfold increasing_ids. induction 1 as [|x rest Hs IH Hx]; intros Hin; [contradiction|].
  cbn [covering]. destruct rest as [|next rest'].
  - destruct Hin as [->|[]]. rewrite Z.eqb_refl. reflexivity.
  - destruct Hin as [->|Hin].
    + inversion Hx; subst.
      destruct (Z.leb_spec (EventId it) (EventId it)); [|lia].
      destruct (Z.ltb_spec (EventId it) (EventId next)); [|lia]. reflexivity.
    + assert (EventId next <= EventId it).
      { destruct Hin as [->|Hin]; [lia|].
        inversion Hs; subst. rewrite Forall_forall in *.
        match goal with H : forall x, In x rest' -> _ |- _ => specialize (H it Hin) end. lia. }
      destruct (Z.ltb_spec (EventId it) (EventId next)); [lia|].
      rewrite andb_false_r. apply IH. exact Hin.
Qed.

Lemma agree_self (a : list VersionHistoryItem) (it : VersionHistoryItem) :
  increasing_ids a -> In it a -> agree a a it = true.
Proof.
  intros Ha Hin. unfold agree, Contains. rewrite covering_self by assumption.
  rewrite Z.eqb_refl. reflexivity.
Qed.

Lemma filter_all {A} (f : A -> bool) (l : list A) :
  (forall x, In x l -> f x = true) -> filter f l = l.
Proof.
  induction l as [|x l IH]; intros H; [reflexivity|].
  cbn [filter]. rewrite H by (left; reflexivity). f_equal. apply IH.
  intros y Hy. apply H. right. exact Hy.
Qed.

Lemma greatest_fold_le (l : list VersionHistoryItem) (z : VersionHistoryItem) :
  (forall x, In x l -> EventId x <= EventId z) ->
  fold_left greatest l (Some z) = Some z.
Proof.
  induction l as [|x l IH]; intros H; [reflexivity|].
  cbn [fold_left greatest].
  pose proof (H x (or_introl eq_refl)).
  destruct (Z.ltb_spec (EventId z) (EventId x)); [lia|].
  apply IH. intros y Hy. apply H. right. exact Hy.
Qed.

Lemma greatest_fold_increasing (a : list VersionHistoryItem) :
  increasing_ids a ->
  forall best,
    a <> [] ->
    match best with
    | None => True
    | Some y => forall x, In x a -> EventId y < EventId x
    end ->
    fold_left greatest a best = LastItem a.
Proof.
  unfold increasing_ids. induction 1 as [|x rest Hs IH Hx]; intros best Hne Hbest;
    [contradiction|].
  cbn [fold_left].
  assert (Hg : greatest best x = Some x).
  { destruct best as [y|]; [|reflexivity]. cbn [greatest].
    specialize (Hbest x (or_introl eq_refl)).
    destruct (Z.ltb_spec (EventId y) (EventId x)); [reflexivity | lia]. }
  rewrite Hg. destruct rest as [|n rest'].
  - reflexivity.
  - rewrite IH; [| discriminate |].
    + unfold LastItem. cbn [map]. reflexivity.
    + rewrite Forall_forall in Hx. exact Hx.
Qed.

Lemma LastItem_greatest (a : list VersionHistoryItem) (z x : VersionHistoryItem) :
  increasing_ids a -> LastItem a = Some z -> In x a -> EventId x <= EventId z.
Proof.
  unfold increasing_ids. induction 1 as [|y rest Hs IH Hy]; intros Hl Hin; [contradiction|].
  destruct rest as [|n rest'].
  - cbn in Hl. inversion Hl; subst. destruct Hin as [->|[]]. lia.
  - assert (Hl' : LastItem (n :: rest') = Some z) by exact Hl.
    destruct Hin as [->|Hin].
    + rewrite Forall_forall in Hy.
      destruct (LastItem_nonempty (n :: rest') ltac:(discriminate)) as (w & Hw & Hwin).
      rewrite Hw in Hl'. inversion Hl'; subst. specialize (Hy z Hwin). lia.
    + apply IH; assumption.
Qed.

Lemma FindLCA_self (a : list VersionHistoryItem) :
  increasing_ids a -> a <> [] -> FindLCA a a = LastItem a.
Proof.
  intros Ha Hne. unfold FindLCA.
  rewrite filter_all.
  2:{ intros x Hx. apply agree_self; [exact Ha|].
      apply in_app_or in Hx. destruct Hx; assumption. }
  rewrite fold_left_app, (greatest_fold_increasing a Ha None Hne I).
  destruct (LastItem_nonempty a Hne) as (z & Hz & _). rewrite Hz.
  apply greatest_fold_le. intros x Hx. eapply LastItem_greatest; eassumption.
Qed.

(** ** The selection of the best ancestor *)










Lemma item_eqb_refl (x : VersionHistoryItem) : item_eqb x x = true.
Proof. unfold item_eqb. rewrite !Z.eqb_refl. reflexivity. Qed.

Lemma CompareTo_same (lca : VersionHistoryItem) (a : list VersionHistoryItem) :
  CompareTo lca a a = Equal.
Proof.
  unfold CompareTo. rewrite (list_eqb_refl item_eqb) by apply item_eqb_refl. reflexivity.
Qed.





(** ** Branches with increasing event ids *)










(** ** What [Append] keeps *)



(** ** The LCA of two branches that end with the same item *)



(** ** A second [Reconcile] *)



(** ** The scenarios of the specification, section 8 *)


Example scenario_B :
  Reconcile (one_branch [(5, 1); (10, 2)]) (branch [(5, 1); (8, 1)])
  = (one_branch [(5, 1); (10, 2)], Decided NoOp 0%nat).
Proof. vm_compute. reflexivity. Qed.


Example scenario_D :
  Reconcile (one_branch [(5, 1); (10, 2)]) (branch [(5, 1); (8, 2)])
  = (one_branch [(5, 1); (10, 2)], Failed ConflictResolutionError).
Proof. vm_compute. reflexivity. Qed.

(** ** Append *)

(** C8. On a branch that is not empty, [Append] with an event id that is
    not greater than the event id of the last item, or with a version
    below the version of the last item, fails with [InvalidHistoryError]
    and the items of the branch are what they were. *)
Theorem Append_rejects_non_increasing (its : list VersionHistoryItem)
    (lastItem : VersionHistoryItem) (eventId version : Z) :
  LastItem its = Some lastItem ->
  eventId <= EventId lastItem \/ version < Version lastItem ->
  Append its eventId version = (its, Some InvalidHistoryError).
Proof.
  intros Hl H. unfold Append. rewrite Hl.
  destruct (Z.leb_spec eventId (EventId lastItem)); [reflexivity|].
  destruct (Z.ltb_spec version (Version lastItem)); [reflexivity | lia].
Qed.

Lemma Append_rejects_non_increasing_witness :
  LastItem (items (branch [(5, 1); (10, 2)])) = Some (mkItem 10 2)
  /\ (10 <= EventId (mkItem 10 2) \/ 2 < Version (mkItem 10 2))
  /\ Append (items (branch [(5, 1); (10, 2)])) 10 2
     = (items (branch [(5, 1); (10, 2)]), Some InvalidHistoryError).
Proof.
  assert (H1 : LastItem (items (branch [(5, 1); (10, 2)])) = Some (mkItem 10 2))
    by reflexivity.
  assert (H2 : 10 <= EventId (mkItem 10 2) \/ 2 < Version (mkItem 10 2))
    by (left; cbn; lia).
  split; [exact H1|]. split; [exact H2|].
  exact (Append_rejects_non_increasing _ _ 10 2 H1 H2).
Defined.

(** ** Reconcile *)




End CoreFacts.
